(** * The Scheme interpreter of [scheme/scheme.py] and [scheme/scheme_primitives.py]

    A shallow embedding of the evaluator, its special forms, its frames and
    the arithmetic primitives, followed by the properties of the
    specification that concern them.

    Python objects are an inductive type [value]; frames are mutable and
    shared by closures, so they live in an explicit store and are referred to
    by index; a raised exception is a [Raise] result that every later
    statement skips; recursion and [while] loops are bounded by fuel.

    The specification names several kinds of error ([SyntaxError],
    [NameError], [TypeError], [ArityError]); the code raises one class for
    all of them, [SchemeError].  The [TypeError] of this file is Python's
    own, which the read-eval-print loop does not catch. *)

From Stdlib Require Import ZArith QArith Qround Zquot String List Lia Bool.
From stdpp Require Import base gmap list strings.

Close Scope Q_scope.
Open Scope string_scope.
Open Scope list_scope.

(** ** Values *)

(** The three primitives that [create_global_frame] registers with
    [use_env=True], and the ones the [@primitive] decorator registers under
    their first name. *)
Inductive primitive : Type :=
  | PrimEval
  | PrimApply
  | PrimLoad
  | PrimNamed (name : string).

(** A Python object the interpreter handles.  [Str] is any Python [str]:
    Scheme symbols and Scheme string literals are both [str], told apart by a
    leading double quote ([scheme_stringp]).  [Float] idealises a double as
    the rational it denotes: the embedding tracks which representation a
    number has, not the rounding of its digits. *)
Inductive value : Type :=
  | Nil
  | Okay
  | Bool (b : bool)
  | Int (z : Z)
  | Float (q : Q)
  | Str (s : string)
  | Pair (first second : value)
  | PrimitiveProcedure (fn : primitive)
  | LambdaProcedure (formals body : value) (env : nat)
  | MuProcedure (formals body : value).

(** The exception classes that can surface. *)
Inductive exn : Type :=
  | SchemeError
  | TypeError
  | IndexError
  | AttributeError
  | ZeroDivisionError.

Inductive result (A : Type) : Type :=
  | Return (a : A)
  | Raise (e : exn).
Arguments Return {A} a.
Arguments Raise {A} e.

(** ** Frames and the store *)

Record Frame : Type := mkFrame {
  bindings : gmap string value;
  parent : option nat
}.

Abbreviation store := (list Frame).

(** What running a piece of the interpreter gives: it finishes in a store
    with a value or an exception; or the fuel ran out; or it reached a
    corner of Python that the embedding leaves out ([Unsupported]). *)
Inductive outcome (A : Type) : Type :=
  | Done (st : store) (r : result A)
  | OutOfFuel
  | Unsupported.
Arguments Done {A} st r.
Arguments OutOfFuel {A}.
Arguments Unsupported {A}.

Definition M (A : Type) : Type := store -> outcome A.

Definition ret {A} (a : A) : M A := fun st => Done st (Return a).
Definition raise {A} (e : exn) : M A := fun st => Done st (Raise e).
Definition unsupported {A} : M A := fun _ => Unsupported.

Definition bind {A B} (m : M A) (k : A -> M B) : M B :=
  fun st =>
    match m st with
    | Done st' (Return a) => k a st'
    | Done st' (Raise e) => Done st' (Raise e)
    | OutOfFuel => OutOfFuel
    | Unsupported => Unsupported
    end.

Definition lift {A} (r : result A) : M A := fun st => Done st r.

Notation "'do' x <- m ; k" := (bind m (fun x => k))
  (at level 10, x name, m at level 100, k at level 200).

(** ** Predicates of [scheme_primitives.py] *)

Definition startswith_quote (s : string) : bool :=
  match s with
  | String c _ => Ascii.eqb c (Ascii.ascii_of_nat 34)
  | EmptyString => false
  end.

Definition scheme_booleanp (x : value) : bool :=
  match x with Bool _ => true | _ => false end.

(** All values are true except [False]. *)
Definition scheme_true (val : value) : bool :=
  match val with Bool false => false | _ => true end.

Definition scheme_pairp (x : value) : bool :=
  match x with Pair _ _ => true | _ => false end.

Definition scheme_nullp (x : value) : bool :=
  match x with Nil => true | _ => false end.

(** [while x is not nil: if not isinstance(x, Pair): return False; x = x.second] *)
Fixpoint scheme_listp (x : value) : bool :=
  match x with
  | Nil => true
  | Pair _ second => scheme_listp second
  | _ => false
  end.

Definition scheme_stringp (x : value) : bool :=
  match x with Str s => startswith_quote s | _ => false end.

Definition scheme_symbolp (x : value) : bool :=
  match x with Str s => negb (startswith_quote s) | _ => false end.

Definition scheme_numberp (x : value) : bool :=
  match x with Int _ | Float _ => true | _ => false end.

Definition scheme_atomp (x : value) : bool :=
  if scheme_booleanp x then true
  else if scheme_numberp x then true
  else if scheme_symbolp x then true
  else if scheme_nullp x then true
  else false.

Definition is_okay (x : value) : bool :=
  match x with Okay => true | _ => false end.

Definition self_evaluating (expr : value) : bool :=
  scheme_atomp expr || scheme_stringp expr || is_okay expr.

(** ** The sequence protocol of [Pair], [nil] and [str]

    Modelled from the spec: [scheme_reader.py], which defines [Pair] and
    [nil], is not among the sources.  The spec gives the list utilities of
    the Symbolic Value Model: [length] fails with [TypeError] on an improper
    list, indexed access, conversion to host sequences and a [map] that
    applies a function to every element of a proper list and returns a new
    proper list.  [len], indexing and iteration of a Python [str] are the
    host's. *)

Fixpoint pair_len (second : value) (n : nat) : result nat :=
  match second with
  | Pair _ s => pair_len s (S n)
  | Nil => Return n
  | _ => Raise TypeError
  end.

Definition py_len (x : value) : result nat :=
  match x with
  | Nil => Return 0
  | Pair _ second => pair_len second 1
  | Str s => Return (String.length s)
  | _ => Raise TypeError
  end.

Fixpoint pair_getitem (first second : value) (k : nat) {struct k}
  : result value :=
  match k with
  | 0 => Return first
  | S k' =>
      match second with
      | Nil => Raise IndexError
      | Pair f s => pair_getitem f s k'
      | _ => Raise TypeError
      end
  end.

Definition py_getitem (x : value) (k : nat) : result value :=
  match x with
  | Nil => Raise IndexError
  | Pair first second => pair_getitem first second k
  | Str s =>
      match String.get k s with
      | Some c => Return (Str (String c EmptyString))
      | None => Raise IndexError
      end
  | _ => Raise TypeError
  end.

(** Iterating an object that has [__getitem__] but no [__iter__]: the items
    at 0, 1, ... until [IndexError]; any other exception escapes. *)
Fixpoint pair_items (x : value) : result (list value) :=
  match x with
  | Nil => Return []
  | Pair first second =>
      match second with
      | Nil => Return [first]
      | Pair _ _ =>
          match pair_items second with
          | Return l => Return (first :: l)
          | Raise e => Raise e
          end
      | _ => Raise TypeError
      end
  | _ => Raise TypeError
  end.

Definition py_list (x : value) : result (list value) :=
  match x with
  | Str s => Return (map (fun c => Str (String c EmptyString)) (list_ascii_of_string s))
  | _ => pair_items x
  end.

(** [x == y] where [y] is a [str]: no other class of the interpreter compares
    equal to a string. *)
Definition eq_str (x : value) (s : string) : bool :=
  match x with Str s' => String.eqb s' s | _ => false end.

(** [Pair.map] and [nil.map]; a value of another class has no [map]. *)
Fixpoint pair_map (fn : value -> M value) (x : value) : M value :=
  match x with
  | Nil => ret Nil
  | Pair first second =>
      do mapped <- fn first;
      match second with
      | Nil | Pair _ _ =>
          do rest <- pair_map fn second;
          ret (Pair mapped rest)
      | _ => raise TypeError
      end
  | _ => raise AttributeError
  end.

(** ** Environments: class [Frame] *)

(** [Frame(parent)]: a new frame at the end of the store. *)
Definition new_frame (parent : option nat) : M nat :=
  fun st => Done (st ++ [mkFrame ∅ parent]) (Return (length st)).

(** [Frame.define]: [self.bindings[symbol] = value]. *)
Definition define (self : nat) (symbol : string) (val : value) : M unit :=
  fun st =>
    match st !! self with
    | Some fr =>
        Done (<[self := mkFrame (<[symbol := val]> (bindings fr)) (parent fr)]> st)
             (Return tt)
    | None => Unsupported
    end.

(** [Frame.lookup], following parents for at most [fuel] frames. *)
Fixpoint lookup_in (fuel : nat) (st : store) (self : nat) (symbol : string)
  : outcome value :=
  match fuel with
  | 0 => OutOfFuel
  | S fuel' =>
      match st !! self with
      | None => Unsupported
      | Some fr =>
          match bindings fr !! symbol with
          | Some v => Done st (Return v)
          | None =>
              match parent fr with
              | Some p => lookup_in fuel' st p symbol
              | None => Done st (Raise SchemeError)
              end
          end
      end
  end.

(** A chain of frames is never longer than the store. *)
Definition lookup (self : nat) (symbol : string) : M value :=
  fun st => lookup_in (length st) st self symbol.

(** The keys of [bindings] are strings in every call the interpreter makes;
    a key of another class is left out. *)
Definition define_key (self : nat) (key : value) (val : value) : M unit :=
  match key with
  | Str s => define self s val
  | _ => unsupported
  end.

(** [for x in range(len(formals)): frame.define(formals[x], vals[x])] *)
Fixpoint bind_formals (frame : nat) (formals vals : value) (xs : list nat) : M unit :=
  match xs with
  | [] => ret tt
  | x :: xs' =>
      do k <- lift (py_getitem formals x);
      do v <- lift (py_getitem vals x);
      do _u <- define_key frame k v;
      bind_formals frame formals vals xs'
  end.

Definition make_child_frame (self : nat) (formals vals : value) : M nat :=
  do frame <- new_frame (Some self);
  do n <- lift (py_len formals);
  do m <- lift (py_len vals);
  if Nat.eqb n m then
    do _u <- bind_formals frame formals vals (seq 0 n);
    ret frame
  else raise SchemeError.

(** ** Checking the structure of programs *)

(** [check_form(expr, min, max)]; [max = None] is the default, no maximum. *)
Definition check_form (expr : value) (min : nat) (max : option nat) : M unit :=
  if negb (scheme_listp expr) then raise SchemeError
  else
    do length <- lift (py_len expr);
    if Nat.ltb length min then raise SchemeError
    else match max with
         | Some mx => if Nat.ltb mx length then raise SchemeError else ret tt
         | None => ret tt
         end.

(** [python_list.remove(v)] for a string [v]: drops the first equal item. *)
Fixpoint list_remove (v : string) (l : list value) : list value :=
  match l with
  | [] => []
  | y :: l' => if eq_str y v then l' else y :: list_remove v l'
  end.

Fixpoint check_formals_loop (formals : value) (python_list : list value)
    (xs : list nat) : result unit :=
  match xs with
  | [] => Return tt
  | x :: xs' =>
      match py_getitem formals x with
      | Raise e => Raise e
      | Return f =>
          match f with
          | Str s =>
              if negb (scheme_symbolp f) then Raise SchemeError
              else
                let python_list' := list_remove s python_list in
                if existsb (fun y => eq_str y s) python_list' then Raise SchemeError
                else check_formals_loop formals python_list' xs'
          | _ => Raise SchemeError
          end
      end
  end.

(** [check_formals]: nothing is checked when [formals] is not a list. *)
Definition check_formals (formals : value) : result unit :=
  if scheme_listp formals then
    match py_list formals, py_len formals with
    | Return python_list, Return n => check_formals_loop formals python_list (seq 0 n)
    | Raise e, _ => Raise e
    | _, Raise e => Raise e
    end
  else Return tt.

(** ** Arithmetic primitives of [scheme_primitives.py]

    A Python function is a function of its argument list; a call with the
    wrong number of arguments raises [TypeError]. *)

Module Prim.

Definition Q_of (x : value) : Q :=
  match x with
  | Int z => inject_Z z
  | Float q => q
  | _ => 0%Q
  end.

Definition is_zero (x : value) : bool := Qeq_bool (Q_of x) 0.
Definition num_lt (x y : value) : bool := negb (Qle_bool (Q_of y) (Q_of x)).
Definition num_le (x y : value) : bool := Qle_bool (Q_of x) (Q_of y).
Definition num_eq (x y : value) : bool := Qeq_bool (Q_of x) (Q_of y).

(** [operator.add], [operator.sub], [operator.mul]: an [int] when both
    operands are, a [float] otherwise. *)
Definition add (a b : value) : result value :=
  match a, b with
  | Int x, Int y => Return (Int (x + y))
  | _, _ => Return (Float (Qred (Q_of a + Q_of b)))
  end.

Definition sub (a b : value) : result value :=
  match a, b with
  | Int x, Int y => Return (Int (x - y))
  | _, _ => Return (Float (Qred (Q_of a - Q_of b)))
  end.

Definition mul (a b : value) : result value :=
  match a, b with
  | Int x, Int y => Return (Int (x * y))
  | _, _ => Return (Float (Qred (Q_of a * Q_of b)))
  end.

Definition truediv (a b : value) : result value :=
  if is_zero b then Raise ZeroDivisionError
  else Return (Float (Qred (Q_of a / Q_of b))).

(** [a % b]: the result has the sign of [b]. *)
Definition mod_ (a b : value) : result value :=
  if is_zero b then Raise ZeroDivisionError
  else match a, b with
       | Int x, Int y => Return (Int (x mod y))
       | _, _ =>
           Return (Float (Qred (Q_of a - Q_of b * inject_Z (Qfloor (Q_of a / Q_of b)))))
       end.

Definition neg (a : value) : value :=
  match a with
  | Int x => Int (- x)
  | _ => Float (Qred (- Q_of a))
  end.

Definition is_integral (q : Q) : bool := Pos.eqb (Qden (Qred q)) 1.

(** [if round(s) == s: s = round(s)] *)
Definition normalize (s : value) : value :=
  match s with
  | Float q => if is_integral q then Int (Qnum (Qred q)) else s
  | _ => s
  end.

(** [_check_nums] over the tuple of arguments *)
Definition _check_nums (vals : list value) : result unit :=
  if forallb scheme_numberp vals then Return tt else Raise SchemeError.

Fixpoint fold_vals (fn : value -> value -> result value) (s : value)
    (vals : list value) : result value :=
  match vals with
  | [] => Return s
  | val :: vals' =>
      match fn s val with
      | Return s' => fold_vals fn s' vals'
      | Raise e => Raise e
      end
  end.

Definition _arith (fn : value -> value -> result value) (init : value)
    (vals : list value) : result value :=
  match _check_nums vals with
  | Raise e => Raise e
  | Return _ =>
      match fold_vals fn init vals with
      | Return s => Return (normalize s)
      | Raise e => Raise e
      end
  end.

(** [except ZeroDivisionError as err: raise SchemeError(err)] *)
Definition except_zero_division (r : result value) : result value :=
  match r with
  | Raise ZeroDivisionError => Raise SchemeError
  | _ => r
  end.

Definition scheme_add (vals : list value) : result value :=
  _arith add (Int 0) vals.

Definition scheme_sub (args : list value) : result value :=
  match args with
  | [] => Raise TypeError
  | val0 :: vals =>
      match _check_nums (val0 :: vals) with
      | Raise e => Raise e
      | Return _ =>
          match vals with
          | [] => Return (neg val0)
          | _ => _arith sub val0 vals
          end
      end
  end.

Definition scheme_mul (vals : list value) : result value :=
  _arith mul (Int 1) vals.

Definition scheme_div (args : list value) : result value :=
  match args with
  | [] => Raise TypeError
  | val0 :: vals =>
      match _check_nums (val0 :: vals) with
      | Raise e => Raise e
      | Return _ =>
          except_zero_division
            match vals with
            | [] => truediv (Int 1) val0
            | _ => _arith truediv val0 vals
            end
      end
  end.

(** [pow(val0, val1)].  An [int] to a non-negative [int] power is an [int];
    every other power is a [float].  A power that is not a whole number has
    no rational value in general and is left out ([None]). *)
Definition pow (val0 val1 : value) : option (result value) :=
  match val0, val1 with
  | Int x, Int y =>
      if (0 <=? y)%Z then Some (Return (Int (x ^ y)))
      else if is_zero val0 then Some (Raise ZeroDivisionError)
      else Some (Return (Float (Qred (Qpower (inject_Z x) y))))
  | _, _ =>
      if is_integral (Q_of val1) then
        let y := Qnum (Qred (Q_of val1)) in
        if ((y <? 0)%Z && is_zero val0)%bool then Some (Raise ZeroDivisionError)
        else Some (Return (Float (Qred (Qpower (Q_of val0) y))))
      else None
  end.

Definition scheme_expt (args : list value) : option (result value) :=
  match args with
  | [val0; val1] =>
      match _check_nums [val0; val1] with
      | Raise e => Some (Raise e)
      | Return _ => pow val0 val1
      end
  | _ => Some (Raise TypeError)
  end.

(** [int(val0 / val1)]: the quotient truncated toward zero. *)
Definition scheme_quo (args : list value) : result value :=
  match args with
  | [val0; val1] =>
      match _check_nums [val0; val1] with
      | Raise e => Raise e
      | Return _ =>
          except_zero_division
            match truediv val0 val1 with
            | Return q => Return (Int (Z.quot (Qnum (Q_of q)) (Z.pos (Qden (Q_of q)))))
            | Raise e => Raise e
            end
      end
  | _ => Raise TypeError
  end.

Definition scheme_modulo (args : list value) : result value :=
  match args with
  | [val0; val1] =>
      match _check_nums [val0; val1] with
      | Raise e => Raise e
      | Return _ => except_zero_division (mod_ val0 val1)
      end
  | _ => Raise TypeError
  end.

(** [while result < 0 and val0 > 0 or result > 0 and val0 < 0: result -= val1],
    for at most [fuel] rounds; [None] when the fuel runs out. *)
Fixpoint remainder_loop (fuel : nat) (val0 val1 result : value) : option value :=
  if (num_lt result (Int 0) && num_lt (Int 0) val0
      || num_lt (Int 0) result && num_lt val0 (Int 0))%bool
  then
    match fuel with
    | 0 => None
    | S fuel' =>
        match sub result val1 with
        | Return result' => remainder_loop fuel' val0 val1 result'
        | Raise _ => None
        end
    end
  else Some result.

Definition scheme_remainder (fuel : nat) (args : list value)
  : option (result value) :=
  match args with
  | [val0; val1] =>
      match _check_nums [val0; val1] with
      | Raise e => Some (Raise e)
      | Return _ =>
          match except_zero_division (mod_ val0 val1) with
          | Raise e => Some (Raise e)
          | Return result => option_map Return (remainder_loop fuel val0 val1 result)
          end
      end
  | _ => Some (Raise TypeError)
  end.

(** [_numcomp(op, x, y)] *)
Definition _numcomp (op : value -> value -> bool) (args : list value)
  : result value :=
  match args with
  | [x; y] =>
      match _check_nums [x; y] with
      | Raise e => Raise e
      | Return _ => Return (Bool (op x y))
      end
  | _ => Raise TypeError
  end.

Definition scheme_eq := _numcomp num_eq.
Definition scheme_lt := _numcomp num_lt.
Definition scheme_gt := _numcomp (fun x y => num_lt y x).
Definition scheme_le := _numcomp num_le.
Definition scheme_ge := _numcomp (fun x y => num_le y x).

(** [check_type(val, predicate, k, name)] *)
Definition check_type (val : value) (predicate : value -> bool) : result value :=
  if predicate val then Return val else Raise SchemeError.

Definition scheme_cons (args : list value) : result value :=
  match args with
  | [x; y] => Return (Pair x y)
  | _ => Raise TypeError
  end.

Definition scheme_car (args : list value) : result value :=
  match args with
  | [x] =>
      match check_type x scheme_pairp with
      | Return (Pair first _) => Return first
      | Return _ => Raise AttributeError
      | Raise e => Raise e
      end
  | _ => Raise TypeError
  end.

Definition scheme_cdr (args : list value) : result value :=
  match args with
  | [x] =>
      match check_type x scheme_pairp with
      | Return (Pair _ second) => Return second
      | Return _ => Raise AttributeError
      | Raise e => Raise e
      end
  | _ => Raise TypeError
  end.

(** [for e in reversed(vals): result = Pair(e, result)] *)
Definition scheme_list (vals : list value) : result value :=
  Return (fold_left (fun result e => Pair e result) (rev vals) Nil).

Definition scheme_nullp_fn (args : list value) : result value :=
  match args with
  | [x] => Return (Bool (scheme_nullp x))
  | _ => Raise TypeError
  end.

Definition scheme_not (args : list value) : result value :=
  match args with
  | [x] => Return (Bool (negb (scheme_true x)))
  | _ => Raise TypeError
  end.

(** The table [_PRIMITIVES], as far as it is embedded: the function
    registered under [name], applied to [args].  The turtle, I/O and [math]
    primitives and the ones that need [==] on arbitrary objects are left
    out. *)
Definition call (fuel : nat) (name : string) (args : list value) : M value :=
  if String.eqb name "+" then lift (scheme_add args)
  else if String.eqb name "-" then lift (scheme_sub args)
  else if String.eqb name "*" then lift (scheme_mul args)
  else if String.eqb name "/" then lift (scheme_div args)
  else if String.eqb name "expt" then
    match scheme_expt args with Some r => lift r | None => unsupported end
  else if String.eqb name "quotient" then lift (scheme_quo args)
  else if String.eqb name "modulo" then lift (scheme_modulo args)
  else if String.eqb name "remainder" then
    match scheme_remainder fuel args with
    | Some r => lift r
    | None => fun _ => OutOfFuel
    end
  else if String.eqb name "=" then lift (scheme_eq args)
  else if String.eqb name "<" then lift (scheme_lt args)
  else if String.eqb name ">" then lift (scheme_gt args)
  else if String.eqb name "<=" then lift (scheme_le args)
  else if String.eqb name ">=" then lift (scheme_ge args)
  else if String.eqb name "cons" then lift (scheme_cons args)
  else if String.eqb name "car" then lift (scheme_car args)
  else if String.eqb name "cdr" then lift (scheme_cdr args)
  else if String.eqb name "list" then lift (scheme_list args)
  else if String.eqb name "null?" then lift (scheme_nullp_fn args)
  else if String.eqb name "not" then lift (scheme_not args)
  else unsupported.

End Prim.

(** ** Eval/Apply and the special forms of [scheme.py]

    Every handler calls the global name [scheme_eval].  The handlers are
    written once, over what that name is bound to:
    - [scheme_eval expr env] is the call [scheme_eval(expr, env)], which
      gives a value;
    - [scheme_eval_tail expr env] is the call [scheme_eval(expr, env, True)],
      which gives an [R]: a value again for the evaluator that ignores its
      third argument, a value or an [Evaluate] marker for the optimized one;
    - [inj v] is a value [v] returned where a marker could be;
    - [scheme_apply_rec] is the global name [scheme_apply] as the primitive
      [apply] calls it. *)

Definition mmap {A B} (f : A -> B) (m : M A) : M B :=
  do a <- m; ret (f a).

Definition out_of_fuel {A} : M A := fun _ => OutOfFuel.

(** [x.first] and [x.second] *)
Definition attr_first (x : value) : result value :=
  match x with Pair first _ => Return first | _ => Raise AttributeError end.
Definition attr_second (x : value) : result value :=
  match x with Pair _ second => Return second | _ => Raise AttributeError end.

(** [try: ... except TypeError: raise SchemeError] *)
Definition except_type_error {A} (m : M A) : M A :=
  fun st =>
    match m st with
    | Done st' (Raise TypeError) => Done st' (Raise SchemeError)
    | o => o
    end.

Section Handlers.

Context {R : Type}.
Variable inj : value -> R.
Variable scheme_eval : value -> nat -> M value.
Variable scheme_eval_tail : value -> nat -> M R.
Variable scheme_apply_rec : value -> value -> nat -> M R.
Variable fuel : nat.

(** [for x in range(len(expressions)-1): scheme_eval(expressions[x], env)] *)
Fixpoint eval_each (expressions : value) (env : nat) (xs : list nat) : M unit :=
  match xs with
  | [] => ret tt
  | x :: xs' =>
      do e <- lift (py_getitem expressions x);
      do _v <- scheme_eval e env;
      eval_each expressions env xs'
  end.

Definition eval_all (expressions : value) (env : nat) : M R :=
  if scheme_nullp expressions then ret (inj Okay)
  else
    do n <- lift (py_len expressions);
    do _u <- eval_each expressions env (seq 0 (n - 1));
    do e <- lift (py_getitem expressions (n - 1));
    scheme_eval_tail e env.

Definition do_lambda_form (expressions : value) (env : nat) : M value :=
  do _u <- check_form expressions 2 None;
  do formals <- lift (attr_first expressions);
  do _c <- lift (check_formals formals);
  do body <- lift (attr_second expressions);
  ret (LambdaProcedure formals body env).

Definition do_mu_form (expressions : value) (env : nat) : M value :=
  do _u <- check_form expressions 2 None;
  do formals <- lift (py_getitem expressions 0);
  do _c <- lift (check_formals formals);
  do body <- lift (attr_second expressions);
  ret (MuProcedure formals body).

Definition do_define_form (expressions : value) (env : nat) : M value :=
  do _u <- check_form expressions 2 None;
  do target <- lift (py_getitem expressions 0);
  if scheme_symbolp target then
    do _c <- check_form expressions 2 (Some 2);
    do e <- lift (py_getitem expressions 1);
    do v <- scheme_eval e env;
    do _d <- define_key env target v;
    ret target
  else
    match target with
    | Pair first second =>
        if scheme_symbolp first then
          do rest <- lift (attr_second expressions);
          do proc <- do_lambda_form (Pair second rest) env;
          do _d <- define_key env first proc;
          ret first
        else raise SchemeError
    | _ => raise SchemeError
    end.

Definition do_quote_form (expressions : value) (env : nat) : M value :=
  do _u <- check_form expressions 1 (Some 1);
  lift (attr_first expressions).

Definition do_begin_form (expressions : value) (env : nat) : M R :=
  do _u <- check_form expressions 1 None;
  eval_all expressions env.

Definition do_if_form (expressions : value) (env : nat) : M R :=
  do _u <- check_form expressions 2 (Some 3);
  do e0 <- lift (py_getitem expressions 0);
  do test <- scheme_eval e0 env;
  if scheme_true test then
    do e1 <- lift (py_getitem expressions 1);
    scheme_eval_tail e1 env
  else
    do n <- lift (py_len expressions);
    if Nat.eqb n 2 then ret (inj Okay)
    else
      do e2 <- lift (py_getitem expressions 2);
      scheme_eval_tail e2 env.

(** The [for] loop of [do_and_form]; [after] is the statement after it. *)
Fixpoint and_loop (expressions : value) (env : nat) (xs : list nat)
    (after : M R) : M R :=
  match xs with
  | [] => after
  | x :: xs' =>
      do e <- lift (py_getitem expressions x);
      do term <- scheme_eval e env;
      if negb (scheme_true term) then ret (inj (Bool false))
      else and_loop expressions env xs' after
  end.

Definition do_and_form (expressions : value) (env : nat) : M R :=
  do n <- lift (py_len expressions);
  if Nat.eqb n 0 then ret (inj (Bool true))
  else
    and_loop expressions env (seq 0 (n - 1))
      (do e <- lift (py_getitem expressions (n - 1));
       scheme_eval_tail e env).

Fixpoint or_loop (expressions : value) (env : nat) (xs : list nat)
    (after : M R) : M R :=
  match xs with
  | [] => after
  | x :: xs' =>
      do e <- lift (py_getitem expressions x);
      do term <- scheme_eval e env;
      if scheme_true term then ret (inj term)
      else or_loop expressions env xs' after
  end.

Definition do_or_form (expressions : value) (env : nat) : M R :=
  do n <- lift (py_len expressions);
  if Nat.eqb n 0 then ret (inj (Bool false))
  else
    or_loop expressions env (seq 0 (n - 1))
      (do e <- lift (py_getitem expressions (n - 1));
       scheme_eval_tail e env).

(** The body of [for i, clause in enumerate(expressions)], from clause
    number [i] on. *)
Fixpoint cond_loop (num_clauses : nat) (env : nat) (i : nat)
    (clauses : list value) : M R :=
  match clauses with
  | [] => ret (inj Okay)
  | clause :: clauses' =>
      do _u <- check_form clause 1 None;
      do first <- lift (attr_first clause);
      do second <- lift (attr_second clause);
      do test <-
        (if eq_str first "else" then
           if Nat.ltb i (num_clauses - 1) then raise SchemeError
           else if scheme_nullp second then raise SchemeError
           else ret (Bool true)
         else scheme_eval first env);
      if scheme_true test then
        do n <- lift (py_len second);
        if Nat.ltb 1 n then eval_all second env
        else if Nat.eqb n 0 then ret (inj test)
        else
          do e <- lift (py_getitem clause 1);
          scheme_eval_tail e env
      else cond_loop num_clauses env (S i) clauses'
  end.

Definition do_cond_form (expressions : value) (env : nat) : M R :=
  do num_clauses <- lift (py_len expressions);
  do clauses <- lift (py_list expressions);
  cond_loop num_clauses env 0 clauses.

(** The body of [for bind in bindings] in [make_let_frame]. *)
Fixpoint let_loop (let_env env : nat) (bindings : list value) : M unit :=
  match bindings with
  | [] => ret tt
  | bind_ :: bindings' =>
      do n <- lift (py_len bind_);
      if negb (Nat.eqb n 2) then raise SchemeError
      else
        do b0 <- lift (py_getitem bind_ 0);
        do _c <- lift (check_formals (Pair b0 Nil));
        do b1 <- lift (py_getitem bind_ 1);
        do v <- scheme_eval b1 env;
        do _d <- define_key let_env b0 v;
        let_loop let_env env bindings'
  end.

Definition make_let_frame (bindings : value) (env : nat) : M nat :=
  if negb (scheme_listp bindings) then raise SchemeError
  else
    do let_env <- make_child_frame env Nil Nil;
    do binds <- lift (py_list bindings);
    do _u <- let_loop let_env env binds;
    ret let_env.

Definition do_let_form (expressions : value) (env : nat) : M R :=
  do _u <- check_form expressions 2 None;
  do bindings <- lift (attr_first expressions);
  do let_env <- make_let_frame bindings env;
  do body <- lift (attr_second expressions);
  eval_all body let_env.

(** The dictionary [SPECIAL_FORMS]. *)
Definition SPECIAL_FORMS (name : string) : option (value -> nat -> M R) :=
  if String.eqb name "and" then Some do_and_form
  else if String.eqb name "begin" then Some do_begin_form
  else if String.eqb name "cond" then Some do_cond_form
  else if String.eqb name "define" then
    Some (fun e env => mmap inj (do_define_form e env))
  else if String.eqb name "if" then Some do_if_form
  else if String.eqb name "lambda" then
    Some (fun e env => mmap inj (do_lambda_form e env))
  else if String.eqb name "let" then Some do_let_form
  else if String.eqb name "or" then Some do_or_form
  else if String.eqb name "quote" then
    Some (fun e env => mmap inj (do_quote_form e env))
  else if String.eqb name "mu" then
    Some (fun e env => mmap inj (do_mu_form e env))
  else None.

(** The call of [procedure.fn] on the arguments, with the environment
    appended when the primitive uses it.  Left out: [load], and [eval]
    given an explicit environment argument, which puts a Scheme value
    where a frame is expected. *)
Definition call_primitive (fn : primitive) (args : list value) (env : nat) : M R :=
  match fn with
  | PrimNamed name => mmap inj (Prim.call fuel name args)
  | PrimEval =>
      match args with
      | [expr] => mmap inj (scheme_eval expr env)
      | [_; _] => unsupported
      | _ => raise TypeError
      end
  | PrimApply =>
      match args with
      | [procedure; args'] => scheme_apply_rec procedure args' env
      | _ => raise TypeError
      end
  | PrimLoad => unsupported
  end.

Definition apply_primitive (fn : primitive) (args_scheme_list : value)
    (env : nat) : M R :=
  do args <- lift (py_list args_scheme_list);
  except_type_error (call_primitive fn args env).

Definition make_call_frame (procedure args : value) (env : nat) : M nat :=
  match procedure with
  | LambdaProcedure formals _ penv => make_child_frame penv formals args
  | MuProcedure formals _ => make_child_frame env formals args
  | _ => raise AttributeError
  end.

Definition scheme_apply (procedure args : value) (env : nat) : M R :=
  match procedure with
  | PrimitiveProcedure fn => apply_primitive fn args env
  | LambdaProcedure _ body _ | MuProcedure _ body =>
      do new_env <- make_call_frame procedure args env;
      eval_all body new_env
  | _ => raise SchemeError
  end.

(** What both evaluators do with an expression that is not an atom. *)
Definition eval_combination (expr : value) (env : nat) : M R :=
  if negb (scheme_listp expr) then raise SchemeError
  else
    do first <- lift (attr_first expr);
    do rest <- lift (attr_second expr);
    match (if scheme_symbolp first
           then match first with Str s => SPECIAL_FORMS s | _ => None end
           else None) with
    | Some handler => handler rest env
    | None =>
        do procedure <- scheme_eval first env;
        do args <- pair_map (fun operand => scheme_eval operand env) rest;
        scheme_apply procedure args env
    end.

End Handlers.

(** [env.lookup(expr)] for an expression that is a symbol. *)
Definition lookup_symbol (env : nat) (expr : value) : M value :=
  match expr with
  | Str s => lookup env s
  | _ => raise AttributeError
  end.

(** ** The evaluator that recurses directly

    [scheme_eval] as defined at the top of [scheme.py], with every handler
    calling it back; [depth] bounds the nesting of its calls, and the rounds
    of the [while] loop of [remainder].  The third argument is ignored, so a
    call in tail position is a call like any other. *)
Fixpoint scheme_eval (depth : nat) (expr : value) (env : nat) {struct depth}
  : M value :=
  match depth with
  | 0 => out_of_fuel
  | S d =>
      if scheme_symbolp expr then lookup_symbol env expr
      else if self_evaluating expr then ret expr
      else
        eval_combination id (scheme_eval d) (scheme_eval d)
          (scheme_apply_direct d) depth expr env
  end
with scheme_apply_direct (depth : nat) (procedure args : value) (env : nat)
    {struct depth} : M value :=
  match depth with
  | 0 => out_of_fuel
  | S d =>
      scheme_apply id (scheme_eval d) (scheme_eval d)
        (scheme_apply_direct d) depth procedure args env
  end.

(** ** Tail recursion: [Evaluate] and [scheme_optimized_eval] *)

(** What a call in tail position gives back: a value, or an expression still
    to be evaluated in an environment. *)
Inductive deferred : Type :=
  | Value (v : value)
  | Evaluate (expr : value) (env : nat).

(** [scheme_optimized_eval(expr, env, True)]: atoms are evaluated, anything
    else is wrapped. *)
Definition scheme_optimized_eval_tail (expr : value) (env : nat) : M deferred :=
  if scheme_symbolp expr then mmap Value (lookup_symbol env expr)
  else if self_evaluating expr then ret (Value expr)
  else ret (Evaluate expr env).

Section Trampoline.

Variable scheme_eval_nested : value -> nat -> M value.
Variable scheme_apply_nested : value -> value -> nat -> M deferred.
Variable fuel : nat.

(** [while isinstance(result, Evaluate): ...] for at most [steps] rounds. *)
Fixpoint trampoline (steps : nat) (result : deferred) : M value :=
  match result with
  | Value v => ret v
  | Evaluate expr env =>
      match steps with
      | 0 => out_of_fuel
      | S steps' =>
          do result' <-
            eval_combination Value scheme_eval_nested
              scheme_optimized_eval_tail scheme_apply_nested fuel expr env;
          trampoline steps' result'
      end
  end.

End Trampoline.

(** [scheme_optimized_eval(expr, env)], which [scheme.py] binds to the name
    [scheme_eval] once it is defined.  [depth] bounds the nesting of calls,
    [budget] the rounds of each [while] loop, that of [remainder] too. *)
Fixpoint scheme_optimized_eval (budget depth : nat) (expr : value) (env : nat)
    {struct depth} : M value :=
  match depth with
  | 0 => out_of_fuel
  | S d =>
      if scheme_symbolp expr then lookup_symbol env expr
      else if self_evaluating expr then ret expr
      else
        trampoline (scheme_optimized_eval budget d)
          (scheme_apply_optimized budget d) budget budget (Evaluate expr env)
  end
with scheme_apply_optimized (budget depth : nat) (procedure args : value)
    (env : nat) {struct depth} : M deferred :=
  match depth with
  | 0 => out_of_fuel
  | S d =>
      scheme_apply Value (scheme_optimized_eval budget d)
        scheme_optimized_eval_tail (scheme_apply_optimized budget d) budget
        procedure args env
  end.

(** The loop of an activation of [scheme_optimized_eval] whose nested calls
    have [depth] left. *)
Definition loop_of (budget depth : nat) : nat -> deferred -> M value :=
  trampoline (scheme_optimized_eval budget depth)
    (scheme_apply_optimized budget depth) budget.

(** ** The global frame *)

(** The names that [@primitive] registers, each with the first name of its
    decorator, which names the procedure. *)
Definition _PRIMITIVES : list (string * string) :=
  [("boolean?", "boolean?"); ("not", "not"); ("eq?", "eq?"); ("equal?", "eq?");
   ("pair?", "pair?"); ("null?", "null?"); ("list?", "list?");
   ("length", "length"); ("cons", "cons"); ("car", "car"); ("cdr", "cdr");
   ("list", "list"); ("append", "append"); ("string?", "string?");
   ("symbol?", "symbol?"); ("number?", "number?"); ("integer?", "integer?");
   ("+", "+"); ("-", "-"); ("*", "*"); ("/", "/"); ("expt", "expt");
   ("abs", "abs"); ("quotient", "quotient"); ("modulo", "modulo");
   ("remainder", "remainder");
   ("acos", "acos"); ("acosh", "acosh"); ("asin", "asin"); ("asinh", "asinh");
   ("atan", "atan"); ("atan2", "atan2"); ("atanh", "atanh"); ("ceil", "ceil");
   ("copysign", "copysign"); ("cos", "cos"); ("cosh", "cosh");
   ("degrees", "degrees"); ("floor", "floor"); ("log", "log");
   ("log10", "log10"); ("log1p", "log1p"); ("log2", "log2");
   ("radians", "radians"); ("sin", "sin"); ("sinh", "sinh"); ("sqrt", "sqrt");
   ("tan", "tan"); ("tanh", "tanh"); ("trunc", "trunc");
   ("=", "="); ("<", "<"); (">", ">"); ("<=", "<="); (">=", ">=");
   ("even?", "even?"); ("odd?", "odd?"); ("zero?", "zero?"); ("atom?", "atom?");
   ("display", "display"); ("print", "print"); ("newline", "newline");
   ("error", "error"); ("exit", "exit");
   ("forward", "forward"); ("fd", "forward");
   ("backward", "backward"); ("back", "backward"); ("bk", "backward");
   ("left", "left"); ("lt", "left"); ("right", "right"); ("rt", "right");
   ("circle", "circle");
   ("setposition", "setposition"); ("setpos", "setposition");
   ("goto", "setposition");
   ("setheading", "setheading"); ("seth", "setheading");
   ("penup", "penup"); ("pu", "penup"); ("pendown", "pendown");
   ("pd", "pendown"); ("showturtle", "showturtle"); ("st", "showturtle");
   ("hideturtle", "hideturtle"); ("ht", "hideturtle"); ("clear", "clear");
   ("color", "color"); ("rgb", "rgb"); ("begin_fill", "begin_fill");
   ("end_fill", "end_fill"); ("bgcolor", "bgcolor");
   ("exitonclick", "exitonclick"); ("speed", "speed"); ("pixel", "pixel");
   ("pixelsize", "pixelsize"); ("screen_width", "screen_width");
   ("screen_height", "screen_height")].

(** [add_primitives(frame)] on the bindings of the frame. *)
Definition add_primitives (b : gmap string value) : gmap string value :=
  fold_left (fun b np => <[np.1 := PrimitiveProcedure (PrimNamed np.2)]> b)
    _PRIMITIVES b.

(** The store right after [create_global_frame()]: one frame, number 0. *)
Definition create_global_frame : store :=
  [mkFrame
     (add_primitives
        (<["load" := PrimitiveProcedure PrimLoad]>
           (<["apply" := PrimitiveProcedure PrimApply]>
              (<["eval" := PrimitiveProcedure PrimEval]> ∅))))
     None].

(** A Scheme list from the list of its elements, as the reader builds it. *)
Definition slist (l : list value) : value := fold_right Pair Nil l.

(** The items of a Scheme list, up to the first [second] that is not a pair. *)
Fixpoint items (x : value) : list value :=
  match x with
  | Pair first second => first :: items second
  | _ => []
  end.

(** What [check_formals] computes on the items of a proper list: each item
    must be a symbol that does not occur again further on. *)
Fixpoint check_items (l : list value) : result unit :=
  match l with
  | [] => Return tt
  | f :: rest =>
      match f with
      | Str s =>
          if negb (scheme_symbolp f) then Raise SchemeError
          else if existsb (fun y => eq_str y s) rest then Raise SchemeError
          else check_items rest
      | _ => Raise SchemeError
      end
  end.

(** The formals of the spec: a proper list of distinct symbols. *)
Definition distinct_symbols (formals : value) : Prop :=
  scheme_listp formals = true /\
  Forall (fun f => scheme_symbolp f = true) (items formals) /\
  NoDup (items formals).

(** Defining each symbol as its value, in the order of the list. *)
Definition bind_into (b : gmap string value) (svs : list (string * value))
  : gmap string value :=
  fold_left (fun b sv => <[sv.1 := sv.2]> b) svs b.

(** The bindings that result from defining the symbols [ss] as the values
    [vs], one position after the other, in an empty frame. *)
Definition bound_positionally (ss : list string) (vs : list value)
  : gmap string value :=
  bind_into ∅ (zip ss vs).

(** Evaluating the expressions [es] one after the other, for their effects. *)
Fixpoint eval_in_order (scheme_eval : value -> nat -> M value)
    (es : list value) (env : nat) : M unit :=
  match es with
  | [] => ret tt
  | e :: es' => do _v <- scheme_eval e env; eval_in_order scheme_eval es' env
  end.

(** What the spec says of the bindings of a [let] form, each a symbol and an
    expression: the expression is evaluated in the outer environment [env]
    and the symbol bound to its value in the new frame [let_env]. *)
Fixpoint bind_each (scheme_eval : value -> nat -> M value) (let_env env : nat)
    (bindings : list (string * value)) : M unit :=
  match bindings with
  | [] => ret tt
  | (s, e) :: bindings' =>
      do v <- scheme_eval e env;
      do _d <- define let_env s v;
      bind_each scheme_eval let_env env bindings'
  end.

(** Evaluating the operands [es] from left to right and collecting their
    values. *)
Fixpoint eval_operands (scheme_eval : value -> nat -> M value)
    (es : list value) (env : nat) : M (list value) :=
  match es with
  | [] => ret []
  | e :: es' =>
      do v <- scheme_eval e env;
      do vs <- eval_operands scheme_eval es' env;
      ret (v :: vs)
  end.

(** Whether [first] names a special form. *)
Definition is_special_form (first : value) : bool :=
  match first with
  | Str s =>
      scheme_symbolp first &&
      existsb (String.eqb s)
        ["and"; "begin"; "cond"; "define"; "if"; "lambda"; "let"; "or";
         "quote"; "mu"]
  | _ => false
  end.

(** The operands [es] of an [and] form evaluated in order, up to the first
    false value; [after] is what follows when there is none. *)
Fixpoint and_in_order {R} (inj : value -> R)
    (scheme_eval : value -> nat -> M value) (es : list value) (env : nat)
    (after : M R) : M R :=
  match es with
  | [] => after
  | e :: es' =>
      do term <- scheme_eval e env;
      if negb (scheme_true term) then ret (inj (Bool false))
      else and_in_order inj scheme_eval es' env after
  end.

(** The operands [es] of an [or] form evaluated in order, up to the first
    true value. *)
Fixpoint or_in_order {R} (inj : value -> R)
    (scheme_eval : value -> nat -> M value) (es : list value) (env : nat)
    (after : M R) : M R :=
  match es with
  | [] => after
  | e :: es' =>
      do term <- scheme_eval e env;
      if scheme_true term then ret (inj term)
      else or_in_order inj scheme_eval es' env after
  end.

(** ** Comparing the two evaluators *)

(** The exception [e2] of the optimized evaluator stands for the exception
    [e1] of the direct one: the same exception, or a [TypeError] where the
    direct evaluator has the [SchemeError] that [apply_primitive] made of
    it.  This is what the inductions carry; when the second case arises is
    said by [type_error_escapes_apply] below. *)
Definition exn_rel (e1 e2 : exn) : Prop :=
  e1 = e2 \/ (e1 = SchemeError /\ e2 = TypeError).

(** The same, read from the optimized evaluator to the direct one. *)
Definition exn_rel_inv (e2 e1 : exn) : Prop := exn_rel e1 e2.

Definition result_rel {A} (rel : exn -> exn -> Prop) (r1 r2 : result A) : Prop :=
  match r1, r2 with
  | Return a1, Return a2 => a1 = a2
  | Raise e1, Raise e2 => rel e1 e2
  | _, _ => False
  end.

(** Whenever [m1] finishes, [m2] finishes in the same store with the same
    value or a related exception. *)
Definition refines {A} (rel : exn -> exn -> Prop) (m1 m2 : M A) : Prop :=
  forall st st' r, m1 st = Done st' r ->
    exists r', m2 st = Done st' r' /\ result_rel rel r r'.

(** What the induction on the depth [n] of the direct evaluator carries:
    the optimized evaluator agrees with it on an expression, on a call in
    tail position followed by the loop, and on an application made by the
    primitive [apply] followed by the loop. *)
Definition agree_at (n : nat) : Prop :=
  (forall e env b d, n <= b -> n <= d ->
     refines exn_rel (scheme_eval n e env) (scheme_optimized_eval b d e env)) /\
  (forall e env b d s, n <= b -> n <= d -> n <= s ->
     refines exn_rel (scheme_eval n e env)
       (bind (scheme_optimized_eval_tail e env) (loop_of b d s))) /\
  (forall p a env b d d' s, n <= b -> n <= d -> n <= d' -> n <= s ->
     refines exn_rel (scheme_apply_direct n p a env)
       (bind (scheme_apply_optimized b d p a env) (loop_of b d' s))).

(** [P] holds at every depth from some depth on. *)
Definition eventually (P : nat -> Prop) : Prop :=
  exists N, forall n, N <= n -> P n.

(** ** A counting loop

    [(define (loop n) (if (= n 0) 0 (let ((m (- n 1))) (loop m))))] *)

Definition loop_test : value := slist [Str "="; Str "n"; Int 0].

Definition loop_let : value :=
  slist [Str "let";
         slist [slist [Str "m"; slist [Str "-"; Str "n"; Int 1]]];
         slist [Str "loop"; Str "m"]].

Definition loop_body : value := slist [Str "if"; loop_test; Int 0; loop_let].

Definition loop_define : value :=
  slist [Str "define"; slist [Str "loop"; Str "n"]; loop_body].

Definition loop_procedure : value :=
  LambdaProcedure (slist [Str "n"]) (slist [loop_body]) 0.

(** The global frame once [loop] is defined. *)
Definition loop_global : Frame :=
  match create_global_frame with
  | g :: _ => mkFrame (<["loop" := loop_procedure]> (bindings g)) None
  | [] => mkFrame ∅ None
  end.


(** ** More of the primitive table

    List and number primitives of [scheme_primitives.py] that the table
    [Prim.call] of the evaluator leaves out; each is the Python function as
    a function of its argument list. *)

(** [scheme_length]: [check_type(x, scheme_listp, 0, 'length')], then [0]
    for [nil] and [len(x)] otherwise. *)
Definition scheme_length (args : list value) : result value :=
  match args with
  | [x] =>
      match Prim.check_type x scheme_listp with
      | Raise e => Raise e
      | Return _ =>
          if scheme_nullp x then Return (Int 0)
          else match py_len x with
               | Return n => Return (Int (Z.of_nat n))
               | Raise e => Raise e
               end
      end
  | _ => Raise TypeError
  end.

(** The inner part of [scheme_append] for an argument [v] that is a pair
    with fields [first] and [second]:
    [r = p = Pair(v.first, result); v = v.second] and then
    [while scheme_pairp(v): p.second = Pair(v.first, result); p = p.second;
    v = v.second].  Every round replaces the [second] of the pair made in
    the round before, which only [r] leads to, by a new pair in front of
    [result]; the value is [r] once the loop is over. *)
Fixpoint append_copy (first second result : value) : value :=
  Pair first
    match second with
    | Pair f s => append_copy f s result
    | _ => result
    end.

(** [for i in range(len(vals)-2, -1, -1)] over the indexes [ixs]. *)
Fixpoint append_loop (vals : list value) (ixs : list nat) (result_ : value)
  : result value :=
  match ixs with
  | [] => Return result_
  | i :: ixs' =>
      match vals !! i with
      | None => Raise IndexError
      | Some v =>
          if negb (scheme_nullp v) then
            match Prim.check_type v scheme_pairp with
            | Raise e => Raise e
            | Return (Pair first second) =>
                append_loop vals ixs' (append_copy first second result_)
            | Return _ => Raise AttributeError
            end
          else append_loop vals ixs' result_
      end
  end.

Definition scheme_append (vals : list value) : result value :=
  if Nat.eqb (length vals) 0 then Return Nil
  else
    match last vals with
    | Some result => append_loop vals (rev (seq 0 (length vals - 1))) result
    | None => Raise IndexError
    end.

(** What [scheme_append] accepts before its last argument. *)
Definition nil_or_pair (v : value) : bool := scheme_nullp v || scheme_pairp v.

(** [scheme_numberp(x) and (isinstance(x, int) or round(x) == x)] *)
Definition scheme_integerp (x : value) : bool :=
  scheme_numberp x &&
  (match x with Int _ => true | _ => false end || Prim.is_integral (Prim.Q_of x)).

(** [scheme_abs]: [abs(val0)] with no check of the operand.  Python's
    [bool] is an [int], so [abs] of a boolean is 0 or 1; the other classes
    of the interpreter have no absolute value. *)
Definition scheme_abs (args : list value) : result value :=
  match args with
  | [val0] =>
      match val0 with
      | Int z => Return (Int (Z.abs z))
      | Float q => Return (Float (Qred (if Qle_bool 0 q then q else Qopp q)))
      | Bool b => Return (Int (if b then 1 else 0))
      | _ => Raise TypeError
      end
  | _ => Raise TypeError
  end.

(** [_check_nums(x); return x % 2 == 0] *)
Definition scheme_evenp (args : list value) : result value :=
  match args with
  | [x] =>
      match Prim._check_nums [x] with
      | Raise e => Raise e
      | Return _ =>
          match Prim.mod_ x (Int 2) with
          | Return r => Return (Bool (Prim.num_eq r (Int 0)))
          | Raise e => Raise e
          end
      end
  | _ => Raise TypeError
  end.

(** [_check_nums(x); return x % 2 == 1] *)
Definition scheme_oddp (args : list value) : result value :=
  match args with
  | [x] =>
      match Prim._check_nums [x] with
      | Raise e => Raise e
      | Return _ =>
          match Prim.mod_ x (Int 2) with
          | Return r => Return (Bool (Prim.num_eq r (Int 1)))
          | Raise e => Raise e
          end
      end
  | _ => Raise TypeError
  end.

(** [_check_nums(x); return x == 0] *)
Definition scheme_zerop (args : list value) : result value :=
  match args with
  | [x] =>
      match Prim._check_nums [x] with
      | Raise e => Raise e
      | Return _ => Return (Bool (Prim.num_eq x (Int 0)))
      end
  | _ => Raise TypeError
  end.

(** [(expt 0 -1)] *)
Definition expt_zero : value := slist [Str "expt"; Int 0; Int (-1)].

(** ** Frames over time *)

(** Frame [fr'] is frame [fr] at a later time: the same parent, and every
    name that was bound is still bound. *)
Definition frame_le (fr fr' : Frame) : Prop :=
  parent fr' = parent fr /\
  forall s, is_Some (bindings fr !! s) -> is_Some (bindings fr' !! s).

(** Store [st'] is store [st] at a later time: every frame is still there,
    under its number. *)
Definition store_le (st st' : store) : Prop :=
  forall i fr, st !! i = Some fr ->
    exists fr', st' !! i = Some fr' /\ frame_le fr fr'.

(** Whenever [m] finishes, it leaves a later store. *)
Definition grows {A} (m : M A) : Prop :=
  forall st st' r, m st = Done st' r -> store_le st st'.

(** ** A yardstick for the errors of the two evaluators

    Not code of the interpreter: the direct evaluator once more, with one
    statement changed.  [apply_primitive] leaves its [try] out when the
    primitive is [apply]; for every other primitive, [eval] included, it is
    as in the source.  So a [TypeError] comes out of this evaluator exactly
    when it was raised inside no call of [eval] and of no primitive of the
    table: the only handlers it can have met on its way out of the direct
    evaluator are those around calls of [apply]. *)

Section Unguarded.

Context {R : Type}.
Variable inj : value -> R.
Variable scheme_eval : value -> nat -> M value.
Variable scheme_eval_tail : value -> nat -> M R.
Variable scheme_apply_rec : value -> value -> nat -> M R.
Variable fuel : nat.

Definition apply_primitive_unguarded (fn : primitive)
    (args_scheme_list : value) (env : nat) : M R :=
  do args <- lift (py_list args_scheme_list);
  match fn with
  | PrimApply => call_primitive inj scheme_eval scheme_apply_rec fuel fn args env
  | _ =>
      except_type_error
        (call_primitive inj scheme_eval scheme_apply_rec fuel fn args env)
  end.

(** [scheme_apply], applying primitives as above. *)
Definition scheme_apply_unguarded (procedure args : value) (env : nat) : M R :=
  match procedure with
  | PrimitiveProcedure fn => apply_primitive_unguarded fn args env
  | LambdaProcedure _ body _ | MuProcedure _ body =>
      do new_env <- make_call_frame procedure args env;
      eval_all inj scheme_eval scheme_eval_tail body new_env
  | _ => raise SchemeError
  end.

(** [eval_combination], applying procedures as above. *)
Definition eval_combination_unguarded (expr : value) (env : nat) : M R :=
  if negb (scheme_listp expr) then raise SchemeError
  else
    do first <- lift (attr_first expr);
    do rest <- lift (attr_second expr);
    match (if scheme_symbolp first
           then match first with
                | Str s => SPECIAL_FORMS inj scheme_eval scheme_eval_tail s
                | _ => None
                end
           else None) with
    | Some handler => handler rest env
    | None =>
        do procedure <- scheme_eval first env;
        do args <- pair_map (fun operand => scheme_eval operand env) rest;
        scheme_apply_unguarded procedure args env
    end.

End Unguarded.

(** [scheme_eval] and [scheme_apply_direct] over these. *)
Fixpoint scheme_eval_unguarded (depth : nat) (expr : value) (env : nat)
    {struct depth} : M value :=
  match depth with
  | 0 => out_of_fuel
  | S d =>
      if scheme_symbolp expr then lookup_symbol env expr
      else if self_evaluating expr then ret expr
      else
        eval_combination_unguarded id (scheme_eval_unguarded d)
          (scheme_eval_unguarded d) (scheme_apply_direct_unguarded d) depth
          expr env
  end
with scheme_apply_direct_unguarded (depth : nat) (procedure args : value)
    (env : nat) {struct depth} : M value :=
  match depth with
  | 0 => out_of_fuel
  | S d =>
      scheme_apply_unguarded id (scheme_eval_unguarded d)
        (scheme_eval_unguarded d) (scheme_apply_direct_unguarded d) depth
        procedure args env
  end.

(** The only place where the two evaluators may differ: the direct one
    raises a [SchemeError], the optimized one a [TypeError], and the
    [TypeError] is one that only the handler around a call of [apply] could
    have caught: from some depth on, the yardstick raises it too. *)
Definition type_error_escapes_apply (expr : value) (env : nat)
    (st st' : store) (r r' : result value) : Prop :=
  r = Raise SchemeError /\ r' = Raise TypeError /\
  eventually (fun n =>
    scheme_eval_unguarded n expr env st = Done st' (Raise TypeError)).

(** ** The frames of the counting loop *)

(** The frames that [(loop k)] makes once the frame [f] of the call, which
    binds [n] to [k], is there and the next frame to be made is number
    [len]: for each round the frame of the [let], under the frame of the
    call, and the frame of the next call, under the global frame. *)
Fixpoint loop_trace (k f len : nat) : list Frame :=
  match k with
  | 0 => []
  | S k' =>
      mkFrame (<["m" := Int (Z.of_nat k')]> ∅) (Some f)
      :: mkFrame (<["n" := Int (Z.of_nat k')]> ∅) (Some 0)
      :: loop_trace k' (len + 1) (len + 2)
  end.

(** * Properties *)

(** ** Running monadic code *)

Lemma bind_ret {A B} (a : A) (k : A -> M B) (st : store) :
  bind (ret a) k st = k a st.
Proof. reflexivity. Qed.

Lemma bind_raise {A B} (e : exn) (k : A -> M B) (st : store) :
  bind (raise e) k st = Done st (Raise e).
Proof. reflexivity. Qed.

Lemma bind_lift_return {A B} (a : A) (k : A -> M B) (st : store) :
  bind (lift (Return a)) k st = k a st.
Proof. reflexivity. Qed.

Lemma bind_lift_raise {A B} (e : exn) (k : A -> M B) (st : store) :
  bind (lift (Raise e)) k st = Done st (Raise e).
Proof. reflexivity. Qed.

Lemma bind_done {A B} (m : M A) (k : A -> M B) (st st' : store) (a : A) :
  m st = Done st' (Return a) -> bind m k st = k a st'.
Proof. intros H. unfold bind. now rewrite H. Qed.

Lemma bind_done_raise {A B} (m : M A) (k : A -> M B) (st st' : store) (e : exn) :
  m st = Done st' (Raise e) -> bind m k st = Done st' (Raise e).
Proof. intros H. unfold bind. now rewrite H. Qed.

Lemma bind_assoc {A B C} (m : M A) (k : A -> M B) (h : B -> M C) (st : store) :
  bind (bind m k) h st = bind m (fun a => bind (k a) h) st.
Proof. unfold bind. destruct (m st) as [st' [a|e]| |]; reflexivity. Qed.

Lemma bind_cong {A B} (m : M A) (k1 k2 : A -> M B) (st : store) :
  (forall a st', k1 a st' = k2 a st') -> bind m k1 st = bind m k2 st.
Proof.
  intros H. unfold bind. destruct (m st) as [st' [a|e]| |]; auto.
Qed.

Lemma bind_cong_l {A B} (m1 m2 : M A) (k : A -> M B) (st : store) :
  m1 st = m2 st -> bind m1 k st = bind m2 k st.
Proof. intros H. unfold bind. now rewrite H. Qed.

(** ** Scheme lists and the sequence protocol *)

Lemma scheme_listp_slist (l : list value) : scheme_listp (slist l) = true.
Proof. induction l; simpl; auto. Qed.

Lemma pair_len_slist (l : list value) (n : nat) :
  pair_len (slist l) n = Return (n + length l).
Proof.
  revert n; induction l as [|a l IH]; intros n; simpl.
  - f_equal; lia.
  - rewrite IH; f_equal; lia.
Qed.

Lemma py_len_slist (l : list value) : py_len (slist l) = Return (length l).
Proof. destruct l; simpl; auto. now rewrite pair_len_slist. Qed.

Lemma pair_getitem_slist (a : value) (l : list value) (k : nat) :
  pair_getitem a (slist l) k =
  match (a :: l) !! k with Some v => Return v | None => Raise IndexError end.
Proof.
  revert a l; induction k as [|k IH]; intros a l; [now cbn|].
  destruct l as [|b l]; cbn; auto.
Qed.

Lemma py_getitem_slist (l : list value) (k : nat) :
  py_getitem (slist l) k =
  match l !! k with Some v => Return v | None => Raise IndexError end.
Proof. destruct l; simpl; auto. apply pair_getitem_slist. Qed.

Lemma pair_items_slist (l : list value) : pair_items (slist l) = Return l.
Proof.
  induction l as [|a l IH]; simpl; auto.
  destruct l as [|b l]; simpl in *; auto. now rewrite IH.
Qed.

Lemma py_list_slist (l : list value) : py_list (slist l) = Return l.
Proof. destruct l; simpl; auto. apply (pair_items_slist (v :: l)). Qed.

Lemma slist_items (x : value) : scheme_listp x = true -> x = slist (items x).
Proof.
  induction x; simpl; try discriminate; auto.
  intros H. f_equal. auto.
Qed.

Lemma items_slist (l : list value) : items (slist l) = l.
Proof. induction l; simpl; congruence. Qed.

Lemma check_form_slist (l : list value) (min : nat) (max : option nat) (st : store) :
  check_form (slist l) min max st =
  Done st (if Nat.ltb (length l) min then Raise SchemeError
           else match max with
                | Some mx => if Nat.ltb mx (length l) then Raise SchemeError else Return tt
                | None => Return tt
                end).
Proof.
  unfold check_form. rewrite scheme_listp_slist, py_len_slist.
  cbn [negb bind lift].
  destruct (Nat.ltb (length l) min); auto.
  destruct max as [mx|]; auto. destruct (Nat.ltb mx (length l)); auto.
Qed.

Lemma check_form_improper (x : value) (min : nat) (max : option nat) (st : store) :
  scheme_listp x = false -> check_form x min max st = Done st (Raise SchemeError).
Proof. intros H. unfold check_form. now rewrite H. Qed.

(** ** [check_formals] *)

Lemma check_formals_loop_drop (l : list value) (n k : nat) :
  n = length l - k ->
  check_formals_loop (slist l) (drop k l) (seq k n) = check_items (drop k l).
Proof.
  revert k; induction n as [|n IH]; intros k Hn.
  - rewrite drop_ge by lia. reflexivity.
  - destruct (l !! k) as [f|] eqn:Hk.
    2:{ apply lookup_ge_None in Hk. lia. }
    rewrite (drop_S _ _ _ Hk). cbn [seq check_formals_loop check_items].
    rewrite py_getitem_slist, Hk.
    destruct f; auto.
    destruct (negb (scheme_symbolp (Str s))); auto.
    cbn [list_remove eq_str]. rewrite String.eqb_refl.
    destruct (existsb _ _); auto.
    apply IH. lia.
Qed.

Lemma check_formals_slist (l : list value) :
  check_formals (slist l) = check_items l.
Proof.
  unfold check_formals.
  rewrite scheme_listp_slist, py_list_slist, py_len_slist.
  apply (check_formals_loop_drop l (length l) 0). lia.
Qed.

Lemma existsb_eq_str (s : string) (l : list value) :
  existsb (fun y => eq_str y s) l = true <-> Str s ∈ l.
Proof.
  rewrite existsb_exists. split.
  - intros (y & Hy & He). destruct y; try discriminate.
    apply String.eqb_eq in He. subst. now apply list_elem_of_In.
  - intros H. exists (Str s). split; [now apply list_elem_of_In|].
    apply String.eqb_refl.
Qed.

Lemma check_items_spec (l : list value) :
  (check_items l = Return tt <->
   Forall (fun f => scheme_symbolp f = true) l /\ NoDup l) /\
  (check_items l = Return tt \/ check_items l = Raise SchemeError).
Proof.
  induction l as [|f l [IH1 IH2]]; simpl.
  - split; auto. split; auto. intros _. split; constructor.
  - destruct f; try (split; [split; [discriminate|]|auto];
      intros [Hs _]; inversion Hs; discriminate).
    destruct (scheme_symbolp (Str s)) eqn:Hsym; cbn [negb].
    2:{ split; auto. split; [discriminate|]. intros [Hs _]. inversion Hs. congruence. }
    destruct (existsb _ l) eqn:Hex.
    + split; auto. split; [discriminate|]. intros [_ Hn].
      apply existsb_eq_str in Hex. inversion Hn; contradiction.
    + split; auto. rewrite IH1. split.
      * intros [Hs Hn]. split; constructor; auto.
        intros Hin. apply existsb_eq_str in Hin. congruence.
      * intros [Hs Hn]. inversion Hs; inversion Hn; auto.
Qed.

(** ** [lambda] *)

Lemma do_lambda_form_slist (fl bl : list value) (env : nat) (st : store) :
  do_lambda_form (Pair (slist fl) (slist bl)) env st =
  match bl with
  | [] => Done st (Raise SchemeError)
  | _ =>
      match check_items fl with
      | Return _ => Done st (Return (LambdaProcedure (slist fl) (slist bl) env))
      | Raise e => Done st (Raise e)
      end
  end.
Proof.
  unfold do_lambda_form, bind.
  change (Pair (slist fl) (slist bl)) with (slist (slist fl :: bl)).
  rewrite check_form_slist. destruct bl as [|b bl]; [reflexivity|].
  cbn [length Nat.ltb Nat.leb lift slist fold_right attr_first attr_second].
  rewrite check_formals_slist. destruct (check_items fl); reflexivity.
Qed.

(** A formals list of distinct symbols makes a [LambdaProcedure] that closes
    over the current frame; a proper list that is not one makes a
    [SchemeError]. *)
Lemma do_lambda_form_proper_formals (formals body : value) (env : nat) (st : store) :
  scheme_listp formals = true -> scheme_listp body = true -> body <> Nil ->
  (distinct_symbols formals ->
   do_lambda_form (Pair formals body) env st =
   Done st (Return (LambdaProcedure formals body env))) /\
  (~ distinct_symbols formals ->
   do_lambda_form (Pair formals body) env st = Done st (Raise SchemeError)).
Proof.
  intros Hf Hb Hne.
  pose proof (slist_items formals Hf) as Ef.
  pose proof (slist_items body Hb) as Eb.
  pose proof (do_lambda_form_slist (items formals) (items body) env st) as E.
  rewrite <- Ef, <- Eb in E. rewrite E.
  destruct (items body) eqn:Hib.
  { destruct body; try discriminate; congruence. }
  destruct (check_items_spec (items formals)) as [Hiff Hor].
  split.
  - intros (_ & Hs & Hn). apply proj2 in Hiff.
    rewrite (Hiff (conj Hs Hn)). reflexivity.
  - intros Hnot. destruct Hor as [Hok|Herr].
    + exfalso. apply Hnot. split; auto. now apply Hiff.
    + now rewrite Herr.
Qed.
Lemma num_lt_int (x y : Z) : Prim.num_lt (Int x) (Int y) = (x <? y)%Z.
Proof.
  unfold Prim.num_lt, Qle_bool; simpl. rewrite !Z.mul_1_r.
  destruct (Z.leb_spec y x), (Z.ltb_spec x y); simpl; auto; lia.
Qed.

Lemma is_zero_int (x : Z) : Prim.is_zero (Int x) = (x =? 0)%Z.
Proof.
  unfold Prim.is_zero, Qeq_bool; simpl. now rewrite Z.mul_1_r.
Qed.

Lemma remainder_loop_stops (a b r : Z) (fuel : nat) :
  negb ((r <? 0)%Z && (0 <? a)%Z || (0 <? r)%Z && (a <? 0)%Z) = true ->
  Prim.remainder_loop fuel (Int a) (Int b) (Int r) = Some (Int r).
Proof.
  intros H. destruct fuel; cbn [Prim.remainder_loop]; rewrite !num_lt_int;
    apply negb_true_iff in H; now rewrite H.
Qed.

Lemma remainder_loop_int (a b : Z) (fuel : nat) : b <> 0%Z ->
  Prim.remainder_loop (S fuel) (Int a) (Int b) (Int (a mod b)) = Some (Int (Z.rem a b)).
Proof.
  intros Hb.
  assert (Hm : (a = b * (a / b) + a mod b)%Z) by (apply Z.div_mod; auto).
  assert (Hbd : (0 <= a mod b < b \/ b < a mod b <= 0)%Z).
  { destruct (Z.lt_total 0 b) as [Hp|[Hp|Hp]]; [left; now apply Z.mod_pos_bound| lia |right; now apply Z.mod_neg_bound]. }
  cbn [Prim.remainder_loop]. rewrite !num_lt_int.
  destruct (Z.ltb_spec (a mod b) 0), (Z.ltb_spec 0 a), (Z.ltb_spec 0 (a mod b)), (Z.ltb_spec a 0);
    cbn [andb orb Prim.sub]; try lia.
  all: try (rewrite remainder_loop_stops;
      [ do 2 f_equal; apply (Zrem_unique_full a b (a / b + 1)); [unfold Zquot.Remainder|]; lia
      | apply negb_true_iff, orb_false_iff; split; apply andb_false_iff;
        repeat match goal with |- context [(?x <? ?y)%Z] => destruct (Z.ltb_spec x y) end; auto; lia ]).
  all: try (do 2 f_equal; apply (Zrem_unique_full a b (a / b)); [unfold Zquot.Remainder|]; lia).
Qed.

(** ** Arithmetic *)

(** C10: for integers [a] and [b] with [b] not zero, [remainder] returns
    [a - b*t] where [t] is [a/b] truncated toward zero; the result is zero or
    has the sign of [a], and is smaller than [b] in absolute value; the
    result of [modulo], when not zero, has the sign of [b]. *)
Theorem remainder_truncates_toward_zero (a b : Z) (fuel : nat) (st : store) :
  b <> 0%Z ->
  let r := (a - b * (a ÷ b))%Z in
  Prim.call (S fuel) "remainder" [Int a; Int b] st = Done st (Return (Int r)) /\
  (r = 0%Z \/ Z.sgn r = Z.sgn a) /\
  (Z.abs r < Z.abs b)%Z /\
  Prim.call fuel "modulo" [Int a; Int b] st = Done st (Return (Int (a mod b))) /\
  ((a mod b)%Z <> 0%Z -> Z.sgn (a mod b) = Z.sgn b).
Proof.
  intros Hb r.
  assert (Hr : r = Z.rem a b).
  { unfold r. pose proof (Z.quot_rem' a b). lia. }
  repeat split.
  - unfold Prim.call; cbn [String.eqb Ascii.eqb Bool.eqb].
    unfold Prim.scheme_remainder, Prim.mod_.
    cbn [Prim._check_nums forallb scheme_numberp andb].
    rewrite is_zero_int. destruct (Z.eqb_spec b 0); [contradiction|].
    cbn [Prim.except_zero_division]. rewrite remainder_loop_int by assumption.
    now rewrite Hr.
  - rewrite Hr. destruct (Z.eq_dec (Z.rem a b) 0%Z) as [|Hnz]; [now left|right].
    now apply Z.rem_sign_nz.
  - rewrite Hr. now apply Z.rem_bound_abs.
  - unfold Prim.call; cbn [String.eqb Ascii.eqb Bool.eqb].
    unfold Prim.scheme_modulo, Prim.mod_.
    cbn [Prim._check_nums forallb scheme_numberp andb].
    rewrite is_zero_int. destruct (Z.eqb_spec b 0); [contradiction|]. reflexivity.
  - intros Hm. destruct (Z.lt_total 0 b) as [Hp|[Hp|Hp]]; [|lia|].
    + pose proof (Z.mod_pos_bound a b Hp). rewrite !Z.sgn_pos; lia.
    + pose proof (Z.mod_neg_bound a b Hp). rewrite !Z.sgn_neg; lia.
Qed.

Lemma remainder_truncates_toward_zero_witness :
  Prim.call 1 "remainder" [Int (-7); Int 2] [] = Done [] (Return (Int (-1))).
Proof.
  refine (proj1 (remainder_truncates_toward_zero (-7) 2 0 [] _)). lia.
Defined.

(** [_arith] never returns a [float] whose value is a whole number. *)
Lemma arith_normalizes (fn : value -> value -> result value) (init : value)
    (vals : list value) (q : Q) :
  Prim._arith fn init vals = Return (Float q) -> Prim.is_integral q = false.
Proof.
  unfold Prim._arith. destruct (Prim._check_nums vals); [|discriminate].
  destruct (Prim.fold_vals fn init vals) as [s|]; [|discriminate].
  unfold Prim.normalize. destruct s; try discriminate.
  destruct (Prim.is_integral q0) eqn:E; [discriminate|]. congruence.
Qed.

(** C6: [(/ 1)] is the [float] 1.0: a single argument of [/] does not go
    through [_arith], which is where whole results become [int]. *)
Theorem div_single_argument_not_normalized :
  Prim.scheme_div [Int 1] = Return (Float 1) /\
  Prim.is_integral 1 = true /\
  scheme_optimized_eval 2 2 (slist [Str "/"; Int 1]) 0 create_global_frame =
  Done create_global_frame (Return (Float 1)).
Proof. repeat split; vm_compute; reflexivity. Qed.

(** C3: [(lambda x x)], whose formals are a symbol and no list, is not
    rejected: [check_formals] checks nothing when [formals] is not a list. *)
Theorem lambda_formals_not_a_list_accepted (env : nat) (st : store) :
  ~ distinct_symbols (Str "x") /\
  do_lambda_form (slist [Str "x"; Str "x"]) env st =
  Done st (Return (LambdaProcedure (Str "x") (slist [Str "x"]) env)) /\
  do_mu_form (slist [Str "x"; Str "x"]) env st =
  Done st (Return (MuProcedure (Str "x") (slist [Str "x"]))) /\
  scheme_optimized_eval 2 2 (slist [Str "lambda"; Str "x"; Str "x"]) 0
    create_global_frame =
  Done create_global_frame (Return (LambdaProcedure (Str "x") (slist [Str "x"]) 0)).
Proof.
  split; [intros [H _]; discriminate|].
  repeat split; vm_compute; reflexivity.
Qed.

(** ** Frames *)

Lemma bind_formals_slist (frame : nat) (ss : list string) (vs : list value)
    (n k : nat) (st : store) (fr : Frame) :
  st !! frame = Some fr ->
  k + n <= length ss -> k + n <= length vs ->
  bind_formals frame (slist (Str <$> ss)) (slist vs) (seq k n) st =
  Done (<[frame := mkFrame
            (fold_left (fun b sv => <[sv.1 := sv.2]> b)
               (zip (take n (drop k ss)) (take n (drop k vs))) (bindings fr))
            (parent fr)]> st) (Return tt).
Proof.
  revert k st fr; induction n as [|n IH]; intros k st fr Hfr Hs Hv.
  - cbn [seq bind_formals]. rewrite !take_0. cbn [zip_with fold_left].
    rewrite list_insert_id; auto. now destruct fr.
  - destruct (ss !! k) as [s|] eqn:Hsk.
    2:{ apply lookup_ge_None in Hsk. lia. }
    destruct (vs !! k) as [v|] eqn:Hvk.
    2:{ apply lookup_ge_None in Hvk. lia. }
    cbn [seq bind_formals].
    rewrite py_getitem_slist, list_lookup_fmap, Hsk.
    cbn [fmap option_fmap option_map]. rewrite bind_lift_return.
    rewrite py_getitem_slist, Hvk, bind_lift_return.
    cbn [define_key].
    erewrite bind_done by (unfold define; rewrite Hfr; reflexivity).
    rewrite IH with (fr := mkFrame (<[s:=v]> (bindings fr)) (parent fr)).
    + rewrite list_insert_insert_eq. cbn [bindings parent].
      rewrite (drop_S _ _ _ Hsk), (drop_S _ _ _ Hvk). reflexivity.
    + apply list_lookup_insert_eq. now apply lookup_lt_Some in Hfr.
    + lia.
    + lia.
Qed.

Lemma make_child_frame_slist (self : nat) (ss : list string) (vs : list value)
    (st : store) :
  make_child_frame self (slist (Str <$> ss)) (slist vs) st =
  if Nat.eqb (length ss) (length vs)
  then Done (st ++ [mkFrame (bound_positionally ss vs) (Some self)])
            (Return (length st))
  else Done (st ++ [mkFrame ∅ (Some self)]) (Raise SchemeError).
Proof.
  unfold make_child_frame.
  erewrite bind_done by reflexivity.
  rewrite !py_len_slist, length_fmap, !bind_lift_return.
  destruct (Nat.eqb_spec (length ss) (length vs)) as [E|E]; [|reflexivity].
  erewrite bind_done.
  2:{ apply bind_formals_slist with (fr := mkFrame ∅ (Some self)).
      - rewrite lookup_app_r by lia. now rewrite Nat.sub_diag.
      - lia.
      - lia. }
  unfold ret. f_equal.
  rewrite insert_app_r_alt by lia. rewrite Nat.sub_diag. cbn [bindings parent].
  rewrite !drop_0, !take_ge by lia. reflexivity.
Qed.

Lemma bind_into_notin (s : string) (svs : list (string * value))
    (b : gmap string value) :
  s ∉ svs.*1 -> bind_into b svs !! s = b !! s.
Proof.
  revert b; induction svs as [|[s' v'] svs IH]; intros b Hn; cbn; auto.
  rewrite fmap_cons, not_elem_of_cons in Hn. destruct Hn as [Hne Hn].
  unfold bind_into in IH. rewrite IH by assumption. cbn.
  now apply lookup_insert_ne.
Qed.

Lemma bind_into_last (ss : list string) (vs : list value) (b : gmap string value)
    (i : nat) (s : string) (v : value) :
  ss !! i = Some s -> vs !! i = Some v ->
  (forall j, i < j -> ss !! j <> Some s) ->
  bind_into b (zip ss vs) !! s = Some v.
Proof.
  revert vs b i; induction ss as [|s0 ss IH]; intros vs b i Hs Hv Hlast.
  - discriminate.
  - destruct vs as [|v0 vs]; [discriminate|]. destruct i as [|i]; cbn in Hs, Hv.
    + injection Hs as ->. injection Hv as ->. cbn.
      change (fold_left _ (zip ss vs) ?b) with (bind_into b (zip ss vs)).
      rewrite bind_into_notin.
      * apply lookup_insert_eq.
      * intros Hin. apply list_elem_of_lookup in Hin as [j Hj].
        rewrite list_lookup_fmap in Hj.
        destruct (zip ss vs !! j) as [[s1 v1]|] eqn:Hz; [|discriminate].
        injection Hj as ->.
        apply lookup_zip_with_Some in Hz as (x & y & E & Hx & Hy).
        injection E as <- <-. apply (Hlast (S j)); [lia|exact Hx].
    + cbn. apply (IH vs _ i); auto.
      intros j Hj. apply (Hlast (S j)). lia.
Qed.

(** C8: [make_child_frame(formals, vals)] on a list of symbols and a list of
    values adds a frame whose parent is [self]; when the lengths agree it
    binds each symbol to the value at its position (the last of several
    positions of one symbol), otherwise it raises a [SchemeError]; so a
    lambda of two formals applied to one argument raises a [SchemeError]. *)
Theorem make_child_frame_binds_positionally (self : nat) (ss : list string)
    (vs : list value) (st : store) :
  (length ss = length vs ->
   make_child_frame self (slist (Str <$> ss)) (slist vs) st =
   Done (st ++ [mkFrame (bound_positionally ss vs) (Some self)])
        (Return (length st)) /\
   forall i s v, ss !! i = Some s -> vs !! i = Some v ->
     (forall j, i < j -> ss !! j <> Some s) ->
     bound_positionally ss vs !! s = Some v) /\
  (length ss <> length vs ->
   make_child_frame self (slist (Str <$> ss)) (slist vs) st =
   Done (st ++ [mkFrame ∅ (Some self)]) (Raise SchemeError)) /\
  (forall (R : Type) (inj : value -> R) scheme_eval scheme_eval_tail
          scheme_apply_rec fuel (a b : string) (body v : value) (env : nat),
   scheme_apply inj scheme_eval scheme_eval_tail scheme_apply_rec fuel
     (LambdaProcedure (slist [Str a; Str b]) body self) (slist [v]) env st =
   Done (st ++ [mkFrame ∅ (Some self)]) (Raise SchemeError)).
Proof.
  split; [intros H; split|split].
  - rewrite make_child_frame_slist. now apply Nat.eqb_eq in H as ->.
  - intros i s v Hs Hv Hl. now apply (bind_into_last ss vs ∅ i).
  - intros H. rewrite make_child_frame_slist. now apply Nat.eqb_neq in H as ->.
  - intros. cbn [scheme_apply make_call_frame].
    apply bind_done_raise.
    apply (make_child_frame_slist self [a; b] [v] st).
Qed.

Lemma make_child_frame_binds_positionally_witness :
  make_child_frame 0 (slist [Str "a"; Str "b"]) (slist [Int 1; Int 2]) [] =
  Done [mkFrame (bound_positionally ["a"; "b"] [Int 1; Int 2]) (Some 0)]
       (Return 0) /\
  make_child_frame 0 (slist [Str "a"; Str "b"]) (slist [Int 1]) [] =
  Done [mkFrame ∅ (Some 0)] (Raise SchemeError).
Proof.
  split.
  - refine (proj1 (proj1 (make_child_frame_binds_positionally 0 ["a"; "b"]
                            [Int 1; Int 2] []) _)). reflexivity.
  - refine (proj1 (proj2 (make_child_frame_binds_positionally 0 ["a"; "b"]
                            [Int 1] [])) _). cbn; lia.
Defined.

(** ** [eval_all] and procedure bodies *)

Section EvalAll.

Context {R : Type}.
Variable inj : value -> R.
Variable scheme_eval : value -> nat -> M value.
Variable scheme_eval_tail : value -> nat -> M R.

Lemma eval_each_slist (l : list value) (env k m : nat) (st : store) :
  k + m <= length l ->
  eval_each scheme_eval (slist l) env (seq k m) st =
  eval_in_order scheme_eval (take m (drop k l)) env st.
Proof.
  revert k st; induction m as [|m IH]; intros k st Hk.
  - now rewrite take_0.
  - destruct (l !! k) as [e|] eqn:Hlk.
    2:{ apply lookup_ge_None in Hlk. lia. }
    rewrite (drop_S _ _ _ Hlk). cbn [seq eval_each take eval_in_order].
    rewrite py_getitem_slist, Hlk, bind_lift_return.
    unfold bind. destruct (scheme_eval e env st) as [st' [v|x]| |]; auto.
    apply IH. lia.
Qed.

(** [eval_all] evaluates all the expressions but the last in order, then
    makes the tail call on the last. *)
Lemma eval_all_snoc (es : list value) (e : value) (env : nat) (st : store) :
  eval_all inj scheme_eval scheme_eval_tail (slist (es ++ [e])) env st =
  (do _u <- eval_in_order scheme_eval es env; scheme_eval_tail e env) st.
Proof.
  unfold eval_all.
  assert (Hn : scheme_nullp (slist (es ++ [e])) = false) by now destruct es.
  rewrite Hn, py_len_slist, bind_lift_return, length_app.
  cbn [length]. replace (length es + 1 - 1) with (length es) by lia.
  unfold bind at 1. rewrite eval_each_slist by (rewrite length_app; cbn; lia).
  rewrite drop_0, take_app_length.
  unfold bind at 2.
  destruct (eval_in_order scheme_eval es env st) as [st' [[]|x]| |]; auto.
  rewrite py_getitem_slist, lookup_app_r, Nat.sub_diag by lia.
  reflexivity.
Qed.

Lemma eval_all_single (e : value) (env : nat) (st : store) :
  eval_all inj scheme_eval scheme_eval_tail (slist [e]) env st =
  scheme_eval_tail e env st.
Proof. apply (eval_all_snoc [] e). Qed.

End EvalAll.

(** C9: [eval_all] on the empty list returns [okay], whatever the evaluator;
    so applying a lambda or mu procedure whose body is empty, to as many
    arguments as it has formals, returns [okay] in a new frame. *)
Theorem eval_all_empty_is_okay (R : Type) (inj : value -> R)
    (scheme_eval : value -> nat -> M value)
    (scheme_eval_tail : value -> nat -> M R)
    (scheme_apply_rec : value -> value -> nat -> M R) (fuel : nat)
    (env : nat) (st : store) :
  eval_all inj scheme_eval scheme_eval_tail Nil env st =
  Done st (Return (inj Okay)) /\
  (forall (ss : list string) (vs : list value) (penv : nat),
   length ss = length vs ->
   scheme_apply inj scheme_eval scheme_eval_tail scheme_apply_rec fuel
     (LambdaProcedure (slist (Str <$> ss)) Nil penv) (slist vs) env st =
   Done (st ++ [mkFrame (bound_positionally ss vs) (Some penv)])
        (Return (inj Okay)) /\
   scheme_apply inj scheme_eval scheme_eval_tail scheme_apply_rec fuel
     (MuProcedure (slist (Str <$> ss)) Nil) (slist vs) env st =
   Done (st ++ [mkFrame (bound_positionally ss vs) (Some env)])
        (Return (inj Okay))).
Proof.
  split; [reflexivity|].
  intros ss vs penv E. cbn [scheme_apply make_call_frame].
  split; (erewrite bind_done;
    [reflexivity | rewrite make_child_frame_slist; apply Nat.eqb_eq in E as ->; reflexivity]).
Qed.

Lemma eval_all_empty_is_okay_witness :
  scheme_apply Value (scheme_optimized_eval 1 1) scheme_optimized_eval_tail
    (scheme_apply_optimized 1 1) 1
    (LambdaProcedure (slist [Str "x"]) Nil 0) (slist [Int 5]) 0
    create_global_frame =
  Done (create_global_frame ++ [mkFrame (bound_positionally ["x"] [Int 5]) (Some 0)])
       (Return (Value Okay)).
Proof.
  refine (proj1 (proj2 (eval_all_empty_is_okay deferred Value
    (scheme_optimized_eval 1 1) scheme_optimized_eval_tail
    (scheme_apply_optimized 1 1) 1 0 create_global_frame) ["x"] [Int 5] 0 _)).
  reflexivity.
Defined.

(** ** [define] *)

(** C7: a [define] form whose target is a symbol raises a [SchemeError]
    unless it has exactly two operands; with two, it evaluates the second
    in the current environment, then binds the symbol to the value in the
    current frame, leaving every other frame as the evaluation left it, and
    returns the symbol. *)
Theorem define_symbol_binds_in_current_frame
    (scheme_eval : value -> nat -> M value) (s : string) (env : nat)
    (st : store) :
  scheme_symbolp (Str s) = true ->
  (forall operands : list value, length operands <> 1 ->
   do_define_form scheme_eval (slist (Str s :: operands)) env st =
   Done st (Raise SchemeError)) /\
  (forall e : value,
   do_define_form scheme_eval (slist [Str s; e]) env st =
   match scheme_eval e env st with
   | Done st' (Return v) =>
       match st' !! env with
       | Some fr =>
           Done (<[env := mkFrame (<[s := v]> (bindings fr)) (parent fr)]> st')
                (Return (Str s))
       | None => Unsupported
       end
   | Done st' (Raise x) => Done st' (Raise x)
   | OutOfFuel => OutOfFuel
   | Unsupported => Unsupported
   end) /\
  (forall (e v : value) (st' : store) (fr : Frame),
   scheme_eval e env st = Done st' (Return v) -> st' !! env = Some fr ->
   exists st'',
     do_define_form scheme_eval (slist [Str s; e]) env st =
     Done st'' (Return (Str s)) /\
     lookup env s st'' = Done st'' (Return v) /\
     length st'' = length st' /\
     forall j, j <> env -> st'' !! j = st' !! j).
Proof.
  intros Hsym.
  assert (Hpair : forall e : value,
    do_define_form scheme_eval (slist [Str s; e]) env st =
    match scheme_eval e env st with
    | Done st' (Return v) =>
        match st' !! env with
        | Some fr =>
            Done (<[env := mkFrame (<[s := v]> (bindings fr)) (parent fr)]> st')
                 (Return (Str s))
        | None => Unsupported
        end
    | Done st' (Raise x) => Done st' (Raise x)
    | OutOfFuel => OutOfFuel
    | Unsupported => Unsupported
    end).
  { intros e. unfold do_define_form.
    rewrite bind_done with (st' := st) (a := tt)
      by (rewrite (check_form_slist [Str s; e]); reflexivity).
    rewrite py_getitem_slist. cbn [base.lookup list_lookup]. rewrite bind_lift_return.
    rewrite Hsym.
    rewrite bind_done with (st' := st) (a := tt)
      by (rewrite (check_form_slist [Str s; e]); reflexivity).
    rewrite py_getitem_slist. cbn [base.lookup list_lookup]. rewrite bind_lift_return.
    unfold bind at 1. destruct (scheme_eval e env st) as [st' [v|x]| |]; auto.
    unfold bind, define_key, define. destruct (st' !! env); reflexivity. }
  split; [|split].
  - intros operands Hlen. unfold do_define_form.
    destruct operands as [|e operands].
    + apply bind_done_raise. rewrite (check_form_slist [Str s]). reflexivity.
    + destruct operands as [|e' operands]; [cbn in Hlen; lia|].
      rewrite bind_done with (st' := st) (a := tt)
        by (rewrite (check_form_slist (Str s :: e :: e' :: operands)); reflexivity).
      rewrite py_getitem_slist. cbn [base.lookup list_lookup]. rewrite bind_lift_return.
      rewrite Hsym. apply bind_done_raise.
      rewrite (check_form_slist (Str s :: e :: e' :: operands)). reflexivity.
  - exact Hpair.
  - intros e v st' fr Hev Hfr. rewrite Hpair, Hev, Hfr.
    eexists. split; [reflexivity|]. split; [|split].
    + unfold lookup. rewrite length_insert.
      pose proof (lookup_lt_Some _ _ _ Hfr) as Hlt.
      destruct (length st') as [|n] eqn:El; [lia|].
      cbn [lookup_in]. rewrite list_lookup_insert_eq by lia.
      cbn [bindings]. now rewrite lookup_insert_eq.
    + apply length_insert.
    + intros j Hj. now apply list_lookup_insert_ne.
Qed.

Lemma define_symbol_binds_in_current_frame_witness :
  do_define_form (scheme_optimized_eval 1 1) (slist [Str "x"; Int 3; Int 4]) 0
    create_global_frame = Done create_global_frame (Raise SchemeError).
Proof.
  refine (proj1 (define_symbol_binds_in_current_frame
    (scheme_optimized_eval 1 1) "x" 0 create_global_frame _) [Int 3; Int 4] _).
  - reflexivity.
  - cbn; lia.
Defined.

(** ** [cond] *)

Section Cond.

Context {R : Type}.
Variable inj : value -> R.
Variable scheme_eval : value -> nat -> M value.
Variable scheme_eval_tail : value -> nat -> M R.
Variable env0 : nat.

Let run_cond := do_cond_form inj scheme_eval scheme_eval_tail.
Let run_loop := cond_loop inj scheme_eval scheme_eval_tail.

(** Only whether clauses remain matters to the test [i < num_clauses-1]. *)
Lemma cond_loop_shift (clauses : list value) (env i : nat) (st : store) :
  run_loop (i + length clauses) env i clauses st =
  run_loop (length clauses) env 0 clauses st.
Proof.
  revert i st; induction clauses as [|c cs IH]; intros i st; [reflexivity|].
  unfold run_loop in *. cbn [cond_loop length].
  replace (Nat.ltb i (i + S (length cs) - 1)) with (Nat.ltb 0 (S (length cs) - 1)).
  2:{ destruct (Nat.ltb_spec 0 (S (length cs) - 1)), (Nat.ltb_spec i (i + S (length cs) - 1)); auto; lia. }
  unfold bind.
  destruct (check_form c 1 None st) as [st1 [[]|?]| |]; auto.
  destruct (lift (attr_first c) st1) as [st2 [first|?]| |]; auto.
  destruct (lift (attr_second c) st2) as [st3 [second|?]| |]; auto.
  match goal with |- match ?t st3 with _ => _ end = _ => destruct (t st3) as [st4 [test|?]| |] end; auto.
  destruct (scheme_true test); auto.
  replace (i + S (length cs)) with (S i + length cs) by lia.
  rewrite IH. symmetry. apply (IH 1).
Qed.

Lemma do_cond_form_slist (clauses : list value) (env : nat) (st : store) :
  run_cond (slist clauses) env st = run_loop (length clauses) env 0 clauses st.
Proof.
  unfold run_cond, do_cond_form.
  now rewrite py_len_slist, bind_lift_return, py_list_slist, bind_lift_return.
Qed.

(** One clause, then the rest of the form. *)
Lemma do_cond_form_cons (c : value) (cs : list value) (env : nat) (st : store) :
  run_cond (slist (c :: cs)) env st =
  (do _u <- check_form c 1 None;
   do first <- lift (attr_first c);
   do second <- lift (attr_second c);
   do test <-
     (if eq_str first "else" then
        if negb (Nat.eqb (length cs) 0) then raise SchemeError
        else if scheme_nullp second then raise SchemeError
        else ret (Bool true)
      else scheme_eval first env);
   if scheme_true test then
     do n <- lift (py_len second);
     if Nat.ltb 1 n then eval_all inj scheme_eval scheme_eval_tail second env
     else if Nat.eqb n 0 then ret (inj test)
     else
       do e <- lift (py_getitem c 1);
       scheme_eval_tail e env
   else run_cond (slist cs) env) st.
Proof.
  rewrite do_cond_form_slist. unfold run_loop. cbn [cond_loop length].
  replace (Nat.ltb 0 (S (length cs) - 1)) with (negb (Nat.eqb (length cs) 0)).
  2:{ destruct (length cs); reflexivity. }
  unfold bind.
  destruct (check_form c 1 None st) as [st1 [[]|?]| |]; auto.
  destruct (lift (attr_first c) st1) as [st2 [first|?]| |]; auto.
  destruct (lift (attr_second c) st2) as [st3 [second|?]| |]; auto.
  match goal with |- match ?t st3 with _ => _ end = _ => destruct (t st3) as [st4 [test|?]| |] end; auto.
  destruct (scheme_true test); auto.
  rewrite do_cond_form_slist. apply (cond_loop_shift cs env 1).
Qed.

(** A clause whose test has been found true, with its test value. *)
Lemma cond_body (first test : value) (l : list value) (env : nat) (st : store) :
  (do n <- lift (py_len (slist l));
   if Nat.ltb 1 n then eval_all inj scheme_eval scheme_eval_tail (slist l) env
   else if Nat.eqb n 0 then ret (inj test)
   else
     do e <- lift (py_getitem (Pair first (slist l)) 1);
     scheme_eval_tail e env) st =
  match rev l with
  | [] => Done st (Return (inj test))
  | [e] => scheme_eval_tail e env st
  | e :: es =>
      (do _u <- eval_in_order scheme_eval (rev es) env;
       scheme_eval_tail e env) st
  end.
Proof.
  rewrite py_len_slist, bind_lift_return.
  destruct (rev l) as [|e es] eqn:Hrev;
    apply (f_equal (@rev value)) in Hrev; rewrite rev_involutive in Hrev;
    subst l; [reflexivity|].
  cbn [rev]. rewrite length_app. cbn [length].
  destruct es as [|e' es]; [reflexivity|].
  replace (Nat.ltb 1 (length (rev (e' :: es)) + 1)) with true.
  2:{ symmetry. apply Nat.ltb_lt. cbn [rev]. rewrite length_app. cbn. lia. }
  apply eval_all_snoc.
Qed.

Lemma rev_snoc_body (es : list value) (e : value) (o : outcome R)
    (st : store) :
  match rev (es ++ [e]) with
  | [] => o
  | [e'] => scheme_eval_tail e' env0 st
  | e' :: es' =>
      (do _u <- eval_in_order scheme_eval (rev es') env0;
       scheme_eval_tail e' env0) st
  end =
  (do _u <- eval_in_order scheme_eval es env0; scheme_eval_tail e env0) st.
Proof.
  rewrite rev_app_distr. cbn [rev app].
  destruct (rev es) as [|e1 es'] eqn:Hr.
  - apply (f_equal (@rev value)) in Hr. rewrite rev_involutive in Hr.
    subst es. reflexivity.
  - apply (f_equal (@rev value)) in Hr. rewrite rev_involutive in Hr.
    now subst es.
Qed.

(** The first clause, when its test is true and it has a body: all the
    expressions of the body but the last are evaluated, the last is a tail
    call. *)
Lemma do_cond_form_true_clause (test : value) (es : list value) (e : value)
    (cs : list value) (st st' : store) (v : value) :
  eq_str test "else" = false ->
  scheme_eval test env0 st = Done st' (Return v) -> scheme_true v = true ->
  run_cond (slist (slist (test :: es ++ [e]) :: cs)) env0 st =
  (do _u <- eval_in_order scheme_eval es env0; scheme_eval_tail e env0) st'.
Proof.
  intros Helse Hev Hv. rewrite do_cond_form_cons.
  rewrite bind_done with (st' := st) (a := tt)
    by (rewrite (check_form_slist (test :: es ++ [e])); reflexivity).
  cbn [slist fold_right attr_first attr_second]. rewrite !bind_lift_return, Helse.
  erewrite bind_done by eassumption. rewrite Hv.
  fold (slist (es ++ [e])). rewrite cond_body. apply rev_snoc_body.
Qed.

Lemma do_cond_form_else_clause (es : list value) (e : value) (st : store) :
  run_cond (slist [slist (Str "else" :: es ++ [e])]) env0 st =
  (do _u <- eval_in_order scheme_eval es env0; scheme_eval_tail e env0) st.
Proof.
  rewrite do_cond_form_cons.
  rewrite bind_done with (st' := st) (a := tt)
    by (rewrite (check_form_slist (Str "else" :: es ++ [e])); reflexivity).
  cbn [slist fold_right attr_first attr_second]. rewrite !bind_lift_return.
  fold (slist (es ++ [e])).
  cbn [eq_str]. rewrite String.eqb_refl. cbn [length Nat.eqb negb].
  assert (Hn : scheme_nullp (slist (es ++ [e])) = false) by now destruct es.
  rewrite Hn, bind_ret. cbn [scheme_true].
  rewrite cond_body. apply rev_snoc_body.
Qed.

End Cond.

(** C4, as the code has it: the clauses of a [cond] form are checked and
    tried in order, up to the first one whose test is true.  A clause that
    is reached must be a list of at least one element; an [else] clause that
    is reached must be the last clause and have a body; otherwise the form
    raises a [SchemeError].  For the first clause whose test is true, an
    empty body gives the value of the test, a body of one expression is a
    tail call on it, a longer body evaluates all its expressions but the last
    in order and makes the tail call on the last.  When no clause is left
    the result is [okay]. *)
Theorem cond_clauses_in_order (R : Type) (inj : value -> R)
    (scheme_eval : value -> nat -> M value)
    (scheme_eval_tail : value -> nat -> M R) (env : nat) (st : store) :
  let cond := do_cond_form inj scheme_eval scheme_eval_tail in
  cond Nil env st = Done st (Return (inj Okay)) /\
  (forall c cs, scheme_listp c = false \/ c = Nil ->
     cond (slist (c :: cs)) env st = Done st (Raise SchemeError)) /\
  (forall body cs, scheme_listp body = true -> cs <> [] \/ body = Nil ->
     cond (slist (Pair (Str "else") body :: cs)) env st =
     Done st (Raise SchemeError)) /\
  (forall e,
     cond (slist [slist [Str "else"; e]]) env st = scheme_eval_tail e env st) /\
  (forall es e, es <> [] ->
     cond (slist [Pair (Str "else") (slist (es ++ [e]))]) env st =
     (do _u <- eval_in_order scheme_eval es env; scheme_eval_tail e env) st) /\
  (forall test body cs st' v,
     eq_str test "else" = false -> scheme_listp body = true ->
     scheme_eval test env st = Done st' (Return v) ->
     (scheme_true v = false ->
      cond (slist (Pair test body :: cs)) env st = cond (slist cs) env st') /\
     (scheme_true v = true ->
      (body = Nil ->
       cond (slist (Pair test body :: cs)) env st = Done st' (Return (inj v))) /\
      (forall e, body = slist [e] ->
       cond (slist (Pair test body :: cs)) env st = scheme_eval_tail e env st') /\
      (forall es e, es <> [] -> body = slist (es ++ [e]) ->
       cond (slist (Pair test body :: cs)) env st =
       (do _u <- eval_in_order scheme_eval es env; scheme_eval_tail e env) st'))) /\
  (forall test body cs st' x,
     eq_str test "else" = false -> scheme_listp body = true ->
     scheme_eval test env st = Done st' (Raise x) ->
     cond (slist (Pair test body :: cs)) env st = Done st' (Raise x)).
Proof.
  intros cond. unfold cond.
  assert (Hcheck : forall first body st0, scheme_listp body = true ->
            check_form (Pair first body) 1 None st0 = Done st0 (Return tt)).
  { intros first body st0 Hb. rewrite (slist_items body Hb).
    apply (check_form_slist (first :: items body)). }
  assert (Hmulti : forall (es : list value) (e : value), es <> [] ->
            exists e1 es', rev (es ++ [e]) = e :: e1 :: es' /\
                           rev (e1 :: es') = es).
  { intros es e Hne. rewrite rev_app_distr. cbn [rev app].
    destruct (rev es) as [|e1 es'] eqn:Hr.
    - apply (f_equal (@rev value)) in Hr. rewrite rev_involutive in Hr. contradiction.
    - exists e1, es'. split; [reflexivity|].
      change (rev (e1 :: es') = es). rewrite <- Hr. apply rev_involutive. }
  split; [reflexivity|]. split; [|split; [|split; [|split; [|split]]]].
  - intros c cs [Hc| ->]; rewrite do_cond_form_cons; apply bind_done_raise.
    + now apply check_form_improper.
    + reflexivity.
  - intros body cs Hb Hor. rewrite do_cond_form_cons.
    erewrite bind_done by (now apply Hcheck).
    cbn [attr_first attr_second]. rewrite !bind_lift_return.
    cbn [eq_str]. rewrite String.eqb_refl.
    apply bind_done_raise.
    destruct Hor as [Hcs| ->].
    + destruct cs; [contradiction|reflexivity].
    + destruct (negb (Nat.eqb (length cs) 0)); reflexivity.
  - intros e. rewrite do_cond_form_cons.
    erewrite bind_done by (now apply (Hcheck (Str "else") (slist [e]))).
    reflexivity.
  - intros es e Hne. rewrite do_cond_form_cons.
    erewrite bind_done
      by (apply (Hcheck (Str "else") (slist (es ++ [e]))), scheme_listp_slist).
    cbn [attr_first attr_second]. rewrite !bind_lift_return.
    cbn [eq_str]. rewrite String.eqb_refl. cbn [length Nat.eqb negb].
    assert (Hn : scheme_nullp (slist (es ++ [e])) = false) by now destruct es.
    rewrite Hn, bind_ret. cbn [scheme_true].
    rewrite cond_body.
    destruct (Hmulti es e Hne) as (e1 & es' & Hr & Hes).
    rewrite Hr, Hes. reflexivity.
  - intros test body cs st' v Helse Hb Hev.
    split; [|intros Hv; split; [|split]].
    + intros Hv. rewrite do_cond_form_cons.
      erewrite bind_done by (now apply Hcheck).
      cbn [attr_first attr_second]. rewrite !bind_lift_return, Helse.
      erewrite bind_done by eassumption. now rewrite Hv.
    + intros ->. rewrite do_cond_form_cons.
      erewrite bind_done by (now apply Hcheck).
      cbn [attr_first attr_second]. rewrite !bind_lift_return, Helse.
      erewrite bind_done by eassumption. now rewrite Hv.
    + intros e ->. rewrite do_cond_form_cons.
      erewrite bind_done by (now apply Hcheck).
      cbn [attr_first attr_second]. rewrite !bind_lift_return, Helse.
      erewrite bind_done by eassumption. now rewrite Hv.
    + intros es e Hne ->. rewrite do_cond_form_cons.
      erewrite bind_done by (now apply Hcheck).
      cbn [attr_first attr_second]. rewrite !bind_lift_return, Helse.
      erewrite bind_done by eassumption. rewrite Hv.
      rewrite cond_body.
      destruct (Hmulti es e Hne) as (e1 & es' & Hr & Hes).
      rewrite Hr, Hes. reflexivity.
  - intros test body cs st' x Helse Hb Hev. rewrite do_cond_form_cons.
    erewrite bind_done by (now apply Hcheck).
    cbn [attr_first attr_second]. rewrite !bind_lift_return, Helse.
    now apply bind_done_raise.
Qed.

Lemma cond_clauses_in_order_witness :
  do_cond_form Value (scheme_optimized_eval 1 1) scheme_optimized_eval_tail
    (slist [Nil; slist [Str "else"; Int 1]]) 0 create_global_frame =
  Done create_global_frame (Raise SchemeError).
Proof.
  refine (proj1 (proj2 (cond_clauses_in_order deferred Value
    (scheme_optimized_eval 1 1) scheme_optimized_eval_tail 0
    create_global_frame)) Nil [slist [Str "else"; Int 1]] _).
  right; reflexivity.
Defined.

(** C4 as stated fails: in [(cond (#t 1) (else 5) ())] the [else] clause is
    not the last and the last clause has no element, and the form evaluates
    to 1: the clauses after the first true test are never looked at. *)
Lemma cond_unreached_clauses_unchecked :
  let form := slist [Str "cond"; slist [Bool true; Int 1];
                     slist [Str "else"; Int 5]; Nil] in
  scheme_optimized_eval 2 2 form 0 create_global_frame =
  Done create_global_frame (Return (Int 1)) /\
  scheme_eval 2 form 0 create_global_frame =
  Done create_global_frame (Return (Int 1)).
Proof. split; vm_compute; reflexivity. Qed.

(** ** [let] *)

Section Let.

Variable scheme_eval : value -> nat -> M value.

(** On bindings that are each a list of a symbol and an expression, the
    loop of [make_let_frame] evaluates each expression in the outer
    environment and binds the symbol in the new frame. *)
Lemma let_loop_well_formed (let_env env : nat) (bs : list (string * value))
    (st : store) :
  Forall (fun b => scheme_symbolp (Str b.1) = true) bs ->
  let_loop scheme_eval let_env env (map (fun b => slist [Str b.1; b.2]) bs) st =
  bind_each scheme_eval let_env env bs st.
Proof.
  intros H; revert st; induction H as [|[s e] bs Hs _ IH]; intros st;
    [reflexivity|].
  cbn [map let_loop bind_each fst snd] in *.
  rewrite (py_len_slist [Str s; e]), bind_lift_return. cbn [length Nat.eqb negb].
  rewrite !(py_getitem_slist [Str s; e]). cbn [base.lookup list_lookup].
  rewrite bind_lift_return.
  change (Pair (Str s) Nil) with (slist [Str s]).
  rewrite (check_formals_slist [Str s]). cbn [check_items existsb].
  rewrite Hs. cbn [negb]. rewrite !bind_lift_return.
  unfold bind. destruct (scheme_eval e env st) as [st1 [v|x]| |]; auto.
  cbn [define_key]. destruct (define let_env s v st1) as [st2 [[]|x]| |]; auto.
Qed.

(** A binding that is a list of another length, or whose first element is
    no symbol, raises a [SchemeError]. *)
Lemma let_loop_ill_formed (let_env env : nat) (items_ rest : list value)
    (st : store) :
  length items_ <> 2 \/
  (exists f e, items_ = [f; e] /\ scheme_symbolp f = false) ->
  let_loop scheme_eval let_env env (slist items_ :: rest) st =
  Done st (Raise SchemeError).
Proof.
  intros [Hlen|(f & e & -> & Hf)]; cbn [let_loop].
  - rewrite py_len_slist, bind_lift_return.
    destruct (Nat.eqb_spec (length items_) 2); [contradiction|reflexivity].
  - rewrite (py_len_slist [f; e]), bind_lift_return. cbn [length Nat.eqb negb].
    rewrite (py_getitem_slist [f; e]). cbn [base.lookup list_lookup].
    rewrite bind_lift_return. change (Pair f Nil) with (slist [f]).
    rewrite (check_formals_slist [f]). cbn [check_items].
    destruct f; try reflexivity. now rewrite Hf.
Qed.

End Let.

(** [(let ((a 1) (b 2)) (+ a b))] in the global frame is 3; [a] and [b] are
    bound in a new frame whose parent is the global frame, which is left as
    it was. *)
Lemma let_example_is_three :
  scheme_optimized_eval 3 2
    (slist [Str "let"; slist [slist [Str "a"; Int 1]; slist [Str "b"; Int 2]];
            slist [Str "+"; Str "a"; Str "b"]]) 0 create_global_frame =
  Done (create_global_frame ++
        [mkFrame (<["b" := Int 2]> (<["a" := Int 1]> ∅)) (Some 0)])
       (Return (Int 3)).
Proof. vm_compute; reflexivity. Qed.

(** C5: a binding of a [let] form that is no list is not rejected with a
    [SchemeError].  In [(let (5) 1)] the call [len(5)] raises a [TypeError];
    in [(let (ab) a)] the string [ab] has length 2, so [a] is bound to the
    value of [b]. *)
Theorem let_binding_not_a_list :
  scheme_optimized_eval 2 2 (slist [Str "let"; slist [Int 5]; Int 1]) 0
    create_global_frame =
  Done (create_global_frame ++ [mkFrame ∅ (Some 0)]) (Raise TypeError) /\
  exists st,
    scheme_optimized_eval 3 3
      (slist [Str "begin"; slist [Str "define"; Str "b"; Int 7];
              slist [Str "let"; slist [Str "ab"]; Str "a"]]) 0
      create_global_frame = Done st (Return (Int 7)).
Proof. split; [|eexists]; vm_compute; reflexivity. Qed.

(** ** The two evaluators agree *)

Lemma exn_rel_refl (e : exn) : exn_rel e e.
Proof. now left. Qed.

Lemma exn_rel_inv_refl (e : exn) : exn_rel_inv e e.
Proof. now left. Qed.

Lemma bind_ret_r {A} (m : M A) (st : store) : bind m ret st = m st.
Proof. unfold bind. destruct (m st) as [st' [a|e]| |]; reflexivity. Qed.

Section Rules.

Variable rel : exn -> exn -> Prop.
Hypothesis rel_refl : forall e, rel e e.

Lemma result_rel_refl {A} (r : result A) : result_rel rel r r.
Proof. destruct r; cbn; auto. Qed.

Lemma result_rel_return {A} (a : A) (r : result A) :
  result_rel rel (Return a) r -> r = Return a.
Proof. destruct r; cbn; [congruence|contradiction]. Qed.

Lemma result_rel_raise {A} (e : exn) (r : result A) :
  result_rel rel (Raise e) r -> exists e', r = Raise e' /\ rel e e'.
Proof. destruct r; cbn; [contradiction|eauto]. Qed.

Lemma refines_refl {A} (m : M A) : refines rel m m.
Proof. intros st st' r H. eauto using result_rel_refl. Qed.

Lemma refines_ext {A} (m1 m2 m2' : M A) :
  (forall st, m2 st = m2' st) -> refines rel m1 m2 -> refines rel m1 m2'.
Proof. intros E H st st' r H1. rewrite <- E. eauto. Qed.

Lemma refines_ext_l {A} (m1 m1' m2 : M A) :
  (forall st, m1 st = m1' st) -> refines rel m1 m2 -> refines rel m1' m2.
Proof. intros E H st st' r H1. rewrite <- E in H1. eauto. Qed.

Lemma refines_out_of_fuel {A} (m : M A) : refines rel out_of_fuel m.
Proof. intros st st' r H. discriminate. Qed.

Lemma refines_bind {A B} (m1 m2 : M A) (k1 k2 : A -> M B) :
  refines rel m1 m2 -> (forall a, refines rel (k1 a) (k2 a)) ->
  refines rel (bind m1 k1) (bind m2 k2).
Proof.
  intros Hm Hk st st' r H. unfold bind in *.
  destruct (m1 st) as [st1 [a|e]| |] eqn:E1; try discriminate.
  - destruct (Hm _ _ _ E1) as (r' & -> & Hr).
    apply result_rel_return in Hr as ->. exact (Hk a _ _ _ H).
  - injection H as <- <-.
    destruct (Hm _ _ _ E1) as (r' & -> & Hr).
    apply result_rel_raise in Hr as (e' & -> & He).
    exists (Raise e'). split; auto.
Qed.

(** The same, when both sides still have a continuation to run: for the
    optimized evaluator, the rest of its loop. *)
Lemma refines_bind_k {A B1 B2 C} (m1 m2 : M A) (k1 : A -> M B1)
    (k2 : A -> M B2) (K1 : B1 -> M C) (K2 : B2 -> M C) :
  refines rel m1 m2 ->
  (forall a, refines rel (bind (k1 a) K1) (bind (k2 a) K2)) ->
  refines rel (bind (bind m1 k1) K1) (bind (bind m2 k2) K2).
Proof.
  intros Hm Hk. eapply refines_ext; [intros st; symmetry; apply bind_assoc|].
  eapply refines_ext_l; [intros st; symmetry; apply bind_assoc|].
  now apply refines_bind.
Qed.

Lemma refines_raise_k {B1 B2 C} (e : exn) (K1 : B1 -> M C) (K2 : B2 -> M C) :
  refines rel (bind (raise e) K1) (bind (raise e) K2).
Proof. intros st st' r [= <- <-]. exists (Raise e). split; cbn; auto. Qed.

End Rules.

(** An exception of the loop [K] escapes the [try] that the direct evaluator
    is still inside of. *)
Lemma refines_except_direct {B} (m1 : M value) (m2 : M B) (K : B -> M value) :
  refines exn_rel (bind m1 ret) (bind m2 K) ->
  refines exn_rel (bind (except_type_error m1) ret)
                  (bind (except_type_error m2) K).
Proof.
  intros H st st' r. rewrite bind_ret_r. specialize (H st).
  rewrite bind_ret_r in H. unfold except_type_error, bind in *.
  destruct (m1 st) as [st1 [a|e]| |] eqn:E1; try discriminate.
  - intros [= <- <-]. destruct (H _ _ eq_refl) as (r' & E2 & Hr).
    apply result_rel_return in Hr as ->.
    destruct (m2 st) as [st2 [b|e2]| |]; try discriminate.
    exists (Return a). split; cbn; auto.
  - intros Hd. destruct (H _ _ eq_refl) as (r' & E2 & Hr).
    apply result_rel_raise in Hr as (e' & -> & He).
    destruct (m2 st) as [st2 [b|e2]| |]; try discriminate.
    + rewrite E2.
      destruct e; injection Hd as <- <-;
        destruct He as [<-|[? ->]]; try discriminate;
        eexists; split; try reflexivity; cbn; auto using exn_rel_refl;
        now right.
    + injection E2 as <- <-.
      destruct e; injection Hd as <- <-;
        destruct He as [<-|[? ->]]; try discriminate;
        eexists; split; try reflexivity; cbn; auto using exn_rel_refl.
Qed.

Lemma refines_except_optimized {B} (m1 : M B) (m2 : M value) (K : B -> M value) :
  refines exn_rel_inv (bind m1 K) (bind m2 ret) ->
  refines exn_rel_inv (bind (except_type_error m1) K)
                      (bind (except_type_error m2) ret).
Proof.
  intros H st st' r. rewrite bind_ret_r. specialize (H st).
  rewrite bind_ret_r in H. unfold except_type_error, bind in *.
  destruct (m1 st) as [st1 [b|e]| |] eqn:E1; try discriminate.
  - intros Hk. destruct (H _ _ Hk) as (r' & E2 & Hr). rewrite E2.
    destruct r as [v|e].
    + apply result_rel_return in Hr as ->. exists (Return v). split; cbn; auto.
    + apply result_rel_raise in Hr as (e' & -> & He).
      unfold exn_rel_inv in He.
      destruct e'; destruct He as [<-|[? ->]]; try discriminate;
        eexists; split; try reflexivity; cbn; unfold exn_rel_inv;
        auto using exn_rel_refl; now right.
  - intros Hd. destruct (H _ _ eq_refl) as (r' & E2 & Hr). rewrite E2.
    apply result_rel_raise in Hr as (e' & -> & He).
    unfold exn_rel_inv in He.
    destruct e; injection Hd as <- <-;
      destruct He as [->|[-> ?]]; try discriminate;
      eexists; split; try reflexivity; cbn; unfold exn_rel_inv;
      auto using exn_rel_refl.
Qed.

Lemma remainder_loop_mono (f1 f2 : nat) (val0 val1 result v : value) :
  f1 <= f2 ->
  Prim.remainder_loop f1 val0 val1 result = Some v ->
  Prim.remainder_loop f2 val0 val1 result = Some v.
Proof.
  revert f2 result; induction f1 as [|f1 IH]; intros f2 result Hle.
  - cbn. destruct f2; cbn; destruct (_ || _)%bool; auto; discriminate.
  - destruct f2 as [|f2]; [lia|]. cbn.
    destruct (_ || _)%bool; auto.
    destruct (Prim.sub result val1); auto. apply IH. lia.
Qed.

Lemma prim_call_mono (rel : exn -> exn -> Prop) (f1 f2 : nat) (name : string)
    (args : list value) :
  (forall e, rel e e) -> f1 <= f2 ->
  refines rel (Prim.call f1 name args) (Prim.call f2 name args).
Proof.
  intros Hrefl Hle. unfold Prim.call.
  repeat match goal with
         | |- refines _ (if ?b then _ else _) _ =>
             destruct b; [try apply refines_refl; auto|]
         end; try (apply refines_refl; auto).
  unfold Prim.scheme_remainder.
  destruct args as [|val0 [|val1 [|]]]; try (apply refines_refl; auto).
  destruct (Prim._check_nums _); try (apply refines_refl; auto).
  destruct (Prim.except_zero_division _) as [result|];
    try (apply refines_refl; auto).
  destruct (Prim.remainder_loop f1 val0 val1 result) as [v|] eqn:E.
  - rewrite (remainder_loop_mono f1 f2 _ _ _ _ Hle E). apply refines_refl; auto.
  - intros st st' r H. discriminate.
Qed.

(** The handlers run under two bindings of the name [scheme_eval], side 1
    and side 2, each with what is still to run after a handler returns
    ([K1], [K2]).  When the two sides agree on the calls a handler makes,
    they agree on the handler. *)
Section Sim.

Variable rel : exn -> exn -> Prop.
Hypothesis rel_refl : forall e, rel e e.

Context {R1 R2 : Type}.
Variable inj1 : value -> R1.
Variable inj2 : value -> R2.
Variables ev1 ev2 : value -> nat -> M value.
Variable evt1 : value -> nat -> M R1.
Variable evt2 : value -> nat -> M R2.
Variable ap1 : value -> value -> nat -> M R1.
Variable ap2 : value -> value -> nat -> M R2.
Variables fuel1 fuel2 : nat.
Variable K1 : R1 -> M value.
Variable K2 : R2 -> M value.

Hypothesis HK1 : forall v st, K1 (inj1 v) st = Done st (Return v).
Hypothesis HK2 : forall v st, K2 (inj2 v) st = Done st (Return v).
Hypothesis Hev : forall e env, refines rel (ev1 e env) (ev2 e env).
Hypothesis Hevt :
  forall e env, refines rel (bind (evt1 e env) K1) (bind (evt2 e env) K2).
Hypothesis Hap :
  forall p a env, refines rel (bind (ap1 p a env) K1) (bind (ap2 p a env) K2).
Hypothesis Hprim :
  forall name args,
    refines rel (Prim.call fuel1 name args) (Prim.call fuel2 name args).
Hypothesis Hexcept :
  forall (m1 : M R1) (m2 : M R2),
    refines rel (bind m1 K1) (bind m2 K2) ->
    refines rel (bind (except_type_error m1) K1)
                (bind (except_type_error m2) K2).

Lemma refines_ret_k (v : value) :
  refines rel (bind (ret (inj1 v)) K1) (bind (ret (inj2 v)) K2).
Proof.
  intros st st' r. rewrite !bind_ret, HK1, HK2. intros [= <- <-].
  exists (Return v). split; reflexivity.
Qed.

Lemma refines_mmap_k (m1 m2 : M value) :
  refines rel m1 m2 ->
  refines rel (bind (mmap inj1 m1) K1) (bind (mmap inj2 m2) K2).
Proof.
  intros H. unfold mmap. apply refines_bind_k; auto.
  intros a. apply refines_ret_k.
Qed.

Ltac sim_step :=
  match goal with
  | |- refines rel (bind (bind _ _) K1) (bind (bind _ _) K2) =>
      apply refines_bind_k;
      [first [apply refines_refl; exact rel_refl | apply Hev] | intros ?]
  | |- refines rel (bind (raise _) K1) (bind (raise _) K2) =>
      apply refines_raise_k; exact rel_refl
  | |- refines rel (bind (ret (inj1 _)) K1) (bind (ret (inj2 _)) K2) =>
      apply refines_ret_k
  | |- refines rel (bind (evt1 _ _) K1) (bind (evt2 _ _) K2) => apply Hevt
  | |- refines rel (bind (if ?b then _ else _) K1) _ => destruct b
  | |- refines rel (bind (match ?x with _ => _ end) K1) _ => destruct x
  | |- refines rel (bind _ _) (bind _ _) =>
      apply refines_bind;
      [first [apply refines_refl; exact rel_refl | apply Hev] | intros ?]
  | |- refines rel (if ?b then _ else _) _ => destruct b
  | |- refines rel (match ?x with _ => _ end) _ => destruct x
  | |- refines rel ?m ?m => apply refines_refl; exact rel_refl
  end.

Lemma eval_each_sim (expressions : value) (env : nat) (xs : list nat) :
  refines rel (eval_each ev1 expressions env xs)
              (eval_each ev2 expressions env xs).
Proof.
  induction xs as [|x xs IH]; cbn [eval_each]; repeat sim_step. exact IH.
Qed.

Lemma eval_all_sim (expressions : value) (env : nat) :
  refines rel (bind (eval_all inj1 ev1 evt1 expressions env) K1)
              (bind (eval_all inj2 ev2 evt2 expressions env) K2).
Proof.
  unfold eval_all. sim_step; [apply refines_ret_k|].
  sim_step. apply refines_bind_k; [apply eval_each_sim|intros ?].
  repeat sim_step.
Qed.

Lemma do_begin_form_sim (expressions : value) (env : nat) :
  refines rel (bind (do_begin_form inj1 ev1 evt1 expressions env) K1)
              (bind (do_begin_form inj2 ev2 evt2 expressions env) K2).
Proof. unfold do_begin_form. sim_step. apply eval_all_sim. Qed.

Lemma do_if_form_sim (expressions : value) (env : nat) :
  refines rel (bind (do_if_form inj1 ev1 evt1 expressions env) K1)
              (bind (do_if_form inj2 ev2 evt2 expressions env) K2).
Proof. unfold do_if_form. repeat sim_step. Qed.

Lemma and_loop_sim (expressions : value) (env : nat) (xs : list nat)
    (after1 : M R1) (after2 : M R2) :
  refines rel (bind after1 K1) (bind after2 K2) ->
  refines rel (bind (and_loop inj1 ev1 expressions env xs after1) K1)
              (bind (and_loop inj2 ev2 expressions env xs after2) K2).
Proof.
  intros Ha. induction xs as [|x xs IH]; cbn [and_loop]; auto.
  repeat sim_step. exact IH.
Qed.

Lemma do_and_form_sim (expressions : value) (env : nat) :
  refines rel (bind (do_and_form inj1 ev1 evt1 expressions env) K1)
              (bind (do_and_form inj2 ev2 evt2 expressions env) K2).
Proof.
  unfold do_and_form. do 2 sim_step; [apply refines_ret_k|].
  apply and_loop_sim. repeat sim_step.
Qed.

Lemma or_loop_sim (expressions : value) (env : nat) (xs : list nat)
    (after1 : M R1) (after2 : M R2) :
  refines rel (bind after1 K1) (bind after2 K2) ->
  refines rel (bind (or_loop inj1 ev1 expressions env xs after1) K1)
              (bind (or_loop inj2 ev2 expressions env xs after2) K2).
Proof.
  intros Ha. induction xs as [|x xs IH]; cbn [or_loop]; auto.
  repeat sim_step. exact IH.
Qed.

Lemma do_or_form_sim (expressions : value) (env : nat) :
  refines rel (bind (do_or_form inj1 ev1 evt1 expressions env) K1)
              (bind (do_or_form inj2 ev2 evt2 expressions env) K2).
Proof.
  unfold do_or_form. do 2 sim_step; [apply refines_ret_k|].
  apply or_loop_sim. repeat sim_step.
Qed.

Lemma cond_loop_sim (num_clauses env i : nat) (clauses : list value) :
  refines rel (bind (cond_loop inj1 ev1 evt1 num_clauses env i clauses) K1)
              (bind (cond_loop inj2 ev2 evt2 num_clauses env i clauses) K2).
Proof.
  revert i; induction clauses as [|c cs IH]; intros i; cbn [cond_loop].
  - apply refines_ret_k.
  - do 3 sim_step.
    apply refines_bind_k.
    { repeat sim_step. apply Hev. }
    intros test. sim_step; [|apply IH].
    sim_step. sim_step; [apply eval_all_sim|].
    repeat sim_step.
Qed.

Lemma do_cond_form_sim (expressions : value) (env : nat) :
  refines rel (bind (do_cond_form inj1 ev1 evt1 expressions env) K1)
              (bind (do_cond_form inj2 ev2 evt2 expressions env) K2).
Proof. unfold do_cond_form. do 2 sim_step. apply cond_loop_sim. Qed.

Lemma let_loop_sim (let_env env : nat) (bindings : list value) :
  refines rel (let_loop ev1 let_env env bindings)
              (let_loop ev2 let_env env bindings).
Proof.
  induction bindings as [|b bs IH]; cbn [let_loop]; repeat sim_step. exact IH.
Qed.

Lemma make_let_frame_sim (bindings : value) (env : nat) :
  refines rel (make_let_frame ev1 bindings env) (make_let_frame ev2 bindings env).
Proof.
  unfold make_let_frame. do 3 sim_step.
  apply refines_bind; [apply let_loop_sim|intros ?]. sim_step.
Qed.

Lemma do_let_form_sim (expressions : value) (env : nat) :
  refines rel (bind (do_let_form inj1 ev1 evt1 expressions env) K1)
              (bind (do_let_form inj2 ev2 evt2 expressions env) K2).
Proof.
  unfold do_let_form. do 2 sim_step.
  apply refines_bind_k; [apply make_let_frame_sim|intros ?].
  sim_step. apply eval_all_sim.
Qed.

Lemma do_define_form_sim (expressions : value) (env : nat) :
  refines rel (do_define_form ev1 expressions env)
              (do_define_form ev2 expressions env).
Proof. unfold do_define_form. repeat sim_step. Qed.

Lemma SPECIAL_FORMS_sim (name : string) :
  match SPECIAL_FORMS inj1 ev1 evt1 name, SPECIAL_FORMS inj2 ev2 evt2 name with
  | Some h1, Some h2 =>
      forall expressions env,
        refines rel (bind (h1 expressions env) K1) (bind (h2 expressions env) K2)
  | None, None => True
  | _, _ => False
  end.
Proof.
  unfold SPECIAL_FORMS.
  repeat match goal with
         | |- context [if ?b then _ else _] => destruct b
         end; auto; intros expressions env;
    auto using do_and_form_sim, do_begin_form_sim, do_cond_form_sim,
      do_if_form_sim, do_let_form_sim, do_or_form_sim;
    apply refines_mmap_k;
    auto using do_define_form_sim, refines_refl.
Qed.

Lemma call_primitive_sim (fn : primitive) (args : list value) (env : nat) :
  refines rel (bind (call_primitive inj1 ev1 ap1 fuel1 fn args env) K1)
              (bind (call_primitive inj2 ev2 ap2 fuel2 fn args env) K2).
Proof.
  unfold call_primitive. destruct fn.
  - destruct args as [|expr [|? [|]]];
      try (apply refines_raise_k; exact rel_refl).
    + apply refines_mmap_k, Hev.
    + intros st st' r H. discriminate.
  - destruct args as [|procedure [|args' [|]]];
      try (apply refines_raise_k; exact rel_refl).
    apply Hap.
  - intros st st' r H. discriminate.
  - apply refines_mmap_k, Hprim.
Qed.

Lemma apply_primitive_sim (fn : primitive) (args : value) (env : nat) :
  refines rel (bind (apply_primitive inj1 ev1 ap1 fuel1 fn args env) K1)
              (bind (apply_primitive inj2 ev2 ap2 fuel2 fn args env) K2).
Proof.
  unfold apply_primitive. sim_step.
  apply Hexcept, call_primitive_sim.
Qed.

Lemma scheme_apply_sim (procedure args : value) (env : nat) :
  refines rel (bind (scheme_apply inj1 ev1 evt1 ap1 fuel1 procedure args env) K1)
              (bind (scheme_apply inj2 ev2 evt2 ap2 fuel2 procedure args env) K2).
Proof.
  unfold scheme_apply. destruct procedure;
    try (apply refines_raise_k; exact rel_refl).
  - apply apply_primitive_sim.
  - sim_step. apply eval_all_sim.
  - sim_step. apply eval_all_sim.
Qed.

Lemma pair_map_sim (env : nat) (x : value) :
  refines rel (pair_map (fun operand => ev1 operand env) x)
              (pair_map (fun operand => ev2 operand env) x).
Proof.
  induction x; cbn [pair_map]; try (apply refines_refl; exact rel_refl).
  apply refines_bind; [apply Hev|intros mapped].
  destruct x2; try (apply refines_refl; exact rel_refl);
    (apply refines_bind;
     [exact IHx2|intros ?; apply refines_refl; exact rel_refl]).
Qed.

Lemma eval_combination_sim (expr : value) (env : nat) :
  refines rel (bind (eval_combination inj1 ev1 evt1 ap1 fuel1 expr env) K1)
              (bind (eval_combination inj2 ev2 evt2 ap2 fuel2 expr env) K2).
Proof.
  unfold eval_combination. do 3 sim_step.
  assert (Hcall : forall a0 : value,
    refines rel
      (bind (do procedure <- ev1 a env;
             do args <- pair_map (fun operand => ev1 operand env) a0;
             scheme_apply inj1 ev1 evt1 ap1 fuel1 procedure args env) K1)
      (bind (do procedure <- ev2 a env;
             do args <- pair_map (fun operand => ev2 operand env) a0;
             scheme_apply inj2 ev2 evt2 ap2 fuel2 procedure args env) K2)).
  { intros a1. sim_step.
    apply refines_bind_k;
      [apply pair_map_sim|intros ?; apply scheme_apply_sim]. }
  destruct (scheme_symbolp a); [|apply Hcall].
  destruct a; try apply Hcall.
  pose proof (SPECIAL_FORMS_sim s) as Hs.
  destruct (SPECIAL_FORMS inj1 ev1 evt1 s), (SPECIAL_FORMS inj2 ev2 evt2 s);
    try contradiction; auto.
Qed.

End Sim.

Lemma loop_of_value (budget depth steps : nat) (v : value) (st : store) :
  loop_of budget depth steps (Value v) st = Done st (Return v).
Proof. destruct steps; reflexivity. Qed.

Lemma loop_of_unfold (budget depth steps : nat) (e : value) (env : nat) :
  loop_of budget depth (S steps) (Evaluate e env) =
  bind (eval_combination Value (scheme_optimized_eval budget depth)
          scheme_optimized_eval_tail (scheme_apply_optimized budget depth)
          budget e env)
       (loop_of budget depth steps).
Proof. reflexivity. Qed.

Lemma scheme_optimized_eval_unfold (b d : nat) (e : value) (env : nat) :
  scheme_optimized_eval b (S d) e env =
  if scheme_symbolp e then lookup_symbol env e
  else if self_evaluating e then ret e
  else loop_of b d b (Evaluate e env).
Proof. reflexivity. Qed.

Lemma scheme_optimized_eval_tail_k (rel : exn -> exn -> Prop) (e : value)
    (env : nat) (K : deferred -> M value) (m : M value) :
  (forall e', rel e' e') ->
  (forall v st, K (Value v) st = Done st (Return v)) ->
  (scheme_symbolp e = false -> self_evaluating e = false ->
   refines rel m (K (Evaluate e env))) ->
  refines rel
    (if scheme_symbolp e then lookup_symbol env e
     else if self_evaluating e then ret e else m)
    (bind (scheme_optimized_eval_tail e env) K).
Proof.
  intros Hrefl HK Hm. unfold scheme_optimized_eval_tail.
  destruct (scheme_symbolp e).
  - unfold mmap. eapply refines_ext; [intros st; symmetry; apply bind_assoc|].
    intros st st' r H. exists r. split; [|now apply result_rel_refl].
    unfold bind. rewrite H. destruct r; auto. apply HK.
  - destruct (self_evaluating e).
    + intros st st' r [= <- <-]. exists (Return e).
      split; [rewrite bind_ret; apply HK|reflexivity].
    + eapply refines_ext; [intros st; symmetry; apply bind_ret|]. now apply Hm.
Qed.

Lemma eval_combination_agree (n : nat) (e : value) (env b d s : nat) :
  agree_at n -> S n <= b -> n <= d -> n <= s ->
  refines exn_rel
    (eval_combination id (scheme_eval n) (scheme_eval n)
       (scheme_apply_direct n) (S n) e env)
    (bind (eval_combination Value (scheme_optimized_eval b d)
             scheme_optimized_eval_tail (scheme_apply_optimized b d) b e env)
          (loop_of b d s)).
Proof.
  intros (H1 & H2 & H3) Hb Hd Hs.
  eapply refines_ext_l; [intros st; apply bind_ret_r|].
  apply eval_combination_sim.
  - exact exn_rel_refl.
  - reflexivity.
  - intros v st. apply loop_of_value.
  - intros e' env'. apply H1; lia.
  - intros e' env'. eapply refines_ext_l; [intros st; symmetry; apply bind_ret_r|].
    apply H2; lia.
  - intros p a env'. eapply refines_ext_l; [intros st; symmetry; apply bind_ret_r|].
    apply H3; lia.
  - intros name args. apply prim_call_mono; [exact exn_rel_refl|lia].
  - intros m1 m2. apply refines_except_direct.
Qed.

Lemma agree_at_all (n : nat) : agree_at n.
Proof.
  induction n as [|n IH].
  - repeat split; intros; apply refines_out_of_fuel.
  - pose proof IH as (H1 & H2 & H3). repeat split.
    + intros e env b d Hb Hd.
      destruct d as [|d]; [lia|]. destruct b as [|b]; [lia|].
      rewrite scheme_optimized_eval_unfold. cbn [scheme_eval].
      destruct (scheme_symbolp e); [apply refines_refl, exn_rel_refl|].
      destruct (self_evaluating e); [apply refines_refl, exn_rel_refl|].
      rewrite loop_of_unfold. apply eval_combination_agree; auto; lia.
    + intros e env b d s Hb Hd Hs.
      destruct s as [|s]; [lia|]. cbn [scheme_eval].
      apply scheme_optimized_eval_tail_k.
      * exact exn_rel_refl.
      * intros v st. apply loop_of_value.
      * intros _ _. rewrite loop_of_unfold.
        apply eval_combination_agree; auto; lia.
    + intros p a env b d d' s Hb Hd Hd' Hs.
      destruct d as [|d]; [lia|].
      cbn [scheme_apply_direct scheme_apply_optimized].
      eapply refines_ext_l; [intros st; apply bind_ret_r|].
      apply scheme_apply_sim.
      * exact exn_rel_refl.
      * reflexivity.
      * intros v st. apply loop_of_value.
      * intros e' env'. apply H1; lia.
      * intros e' env'.
        eapply refines_ext_l; [intros st; symmetry; apply bind_ret_r|].
        apply H2; lia.
      * intros p' a' env'.
        eapply refines_ext_l; [intros st; symmetry; apply bind_ret_r|].
        apply H3; lia.
      * intros name args. apply prim_call_mono; [exact exn_rel_refl|lia].
      * intros m1 m2. apply refines_except_direct.
Qed.

(** *** From the optimized evaluator back to the direct one *)

Lemma scheme_optimized_eval_tail_k_inv (rel : exn -> exn -> Prop) (e : value)
    (env : nat) (K : deferred -> M value) (m : M value) :
  (forall e', rel e' e') ->
  (forall v st, K (Value v) st = Done st (Return v)) ->
  (scheme_symbolp e = false -> self_evaluating e = false ->
   refines rel (K (Evaluate e env)) m) ->
  refines rel
    (bind (scheme_optimized_eval_tail e env) K)
    (if scheme_symbolp e then lookup_symbol env e
     else if self_evaluating e then ret e else m).
Proof.
  intros Hrefl HK Hm. unfold scheme_optimized_eval_tail.
  destruct (scheme_symbolp e).
  - unfold mmap. eapply refines_ext_l; [intros st; symmetry; apply bind_assoc|].
    intros st st' r H. exists r. split; [|now apply result_rel_refl].
    unfold bind in H. destruct (lookup_symbol env e st) as [st1 [v|x]| |];
      try discriminate; auto.
    cbn in H. rewrite HK in H. exact H.
  - destruct (self_evaluating e).
    + intros st st' r. rewrite bind_ret, HK. intros [= <- <-].
      exists (Return e). split; reflexivity.
    + eapply refines_ext_l; [intros st; symmetry; apply bind_ret|]. now apply Hm.
Qed.

Lemma eventually_and (P Q : nat -> Prop) :
  eventually P -> eventually Q -> eventually (fun n => P n /\ Q n).
Proof.
  intros [N1 H1] [N2 H2]. exists (Nat.max N1 N2).
  intros n Hn. split; [apply H1|apply H2]; lia.
Qed.

Lemma eventually_mono (P Q : nat -> Prop) :
  (forall n, P n -> Q n) -> eventually P -> eventually Q.
Proof. intros H [N HP]. exists N. auto. Qed.

Lemma eventually_succ (P Q : nat -> Prop) :
  (forall n, P n -> Q (S n)) -> eventually P -> eventually Q.
Proof.
  intros H [N HP]. exists (S N). intros n Hn.
  destruct n as [|n]; [lia|]. apply H, HP. lia.
Qed.

Lemma eventually_ge (N : nat) : eventually (fun n => N <= n).
Proof. exists N. auto. Qed.

Section Reverse.

Variable b : nat.

Let back_eval (d n : nat) : Prop :=
  forall e env,
    refines exn_rel_inv (scheme_optimized_eval b d e env) (scheme_eval n e env).

Let back_tail (d s n : nat) : Prop :=
  forall e env,
    refines exn_rel_inv
      (bind (scheme_optimized_eval_tail e env) (loop_of b d s))
      (bind (scheme_eval n e env) ret).

Let back_apply (d' d s n : nat) : Prop :=
  forall p a env,
    refines exn_rel_inv
      (bind (scheme_apply_optimized b d' p a env) (loop_of b d s))
      (bind (scheme_apply_direct n p a env) ret).

Let back_loop (d s n : nat) : Prop :=
  forall e env,
    refines exn_rel_inv
      (bind (eval_combination Value (scheme_optimized_eval b d)
               scheme_optimized_eval_tail (scheme_apply_optimized b d) b e env)
            (loop_of b d s))
      (eval_combination id (scheme_eval n) (scheme_eval n)
         (scheme_apply_direct n) (S n) e env).

Lemma back_loop_step (d s n : nat) :
  back_eval d n -> back_tail d s n -> back_apply d d s n -> b <= S n ->
  back_loop d s n.
Proof.
  intros He Ht Ha Hb e env.
  eapply refines_ext; [intros st; apply bind_ret_r|].
  apply eval_combination_sim; auto.
  - exact exn_rel_inv_refl.
  - intros v st. apply loop_of_value.
  - intros name args. apply prim_call_mono; [exact exn_rel_inv_refl|lia].
  - intros m1 m2. apply refines_except_optimized.
Qed.

Lemma back_tail_zero (d n : nat) : back_tail d 0 (S n).
Proof.
  intros e env. eapply refines_ext; [intros st; symmetry; apply bind_ret_r|].
  cbn [scheme_eval]. apply scheme_optimized_eval_tail_k_inv.
  - exact exn_rel_inv_refl.
  - intros v st. apply loop_of_value.
  - intros _ _. apply refines_out_of_fuel.
Qed.

Lemma back_tail_step (d s n : nat) : back_loop d s n -> back_tail d (S s) (S n).
Proof.
  intros Hl e env. eapply refines_ext; [intros st; symmetry; apply bind_ret_r|].
  cbn [scheme_eval]. apply scheme_optimized_eval_tail_k_inv.
  - exact exn_rel_inv_refl.
  - intros v st. apply loop_of_value.
  - intros _ _. rewrite loop_of_unfold. apply Hl.
Qed.

Lemma back_apply_zero (d s n : nat) : back_apply 0 d s n.
Proof. intros p a env st st' r H. discriminate. Qed.

Lemma back_apply_step (d' d s n : nat) :
  back_eval d' n -> back_tail d s n -> back_apply d' d s n -> b <= S n ->
  back_apply (S d') d s (S n).
Proof.
  intros He Ht Ha Hb p a env.
  cbn [scheme_apply_direct scheme_apply_optimized].
  apply scheme_apply_sim; auto.
  - exact exn_rel_inv_refl.
  - intros v st. apply loop_of_value.
  - intros name args. apply prim_call_mono; [exact exn_rel_inv_refl|lia].
  - intros m1 m2. apply refines_except_optimized.
Qed.

Lemma back_eval_zero (n : nat) : back_eval 0 n.
Proof. intros e env st st' r H. discriminate. Qed.

Lemma back_eval_step (d n : nat) :
  (forall s, b = S s -> back_loop d s n) -> back_eval (S d) (S n).
Proof.
  intros Hl e env. rewrite scheme_optimized_eval_unfold. cbn [scheme_eval].
  destruct (scheme_symbolp e); [apply refines_refl, exn_rel_inv_refl|].
  destruct (self_evaluating e); [apply refines_refl, exn_rel_inv_refl|].
  destruct b as [|s] eqn:Eb.
  - intros st st' r H. discriminate.
  - rewrite loop_of_unfold. now apply Hl.
Qed.

Lemma back_apply_eventually (d s dmax : nat) :
  (forall d', d' <= dmax -> eventually (back_eval d')) ->
  eventually (back_tail d s) ->
  forall d', d' <= S dmax -> eventually (back_apply d' d s).
Proof.
  intros He Ht d'. induction d' as [|d' IH]; intros Hd.
  - exists 0. intros n _. apply back_apply_zero.
  - pose proof (eventually_and _ _ (He d' ltac:(lia))
                  (eventually_and _ _ Ht
                     (eventually_and _ _ (IH ltac:(lia)) (eventually_ge b))))
      as Hall.
    revert Hall. apply eventually_succ.
    intros n (H1 & H2 & H3 & H4). apply back_apply_step; auto; lia.
Qed.

Lemma back_loop_eventually (d : nat) :
  (forall d', d' <= d -> eventually (back_eval d')) ->
  forall s, eventually (back_tail d s) /\ eventually (back_loop d s).
Proof.
  intros He.
  assert (Hl : forall s, eventually (back_tail d s) -> eventually (back_loop d s)).
  { intros s Ht.
    pose proof (eventually_and _ _ (He d ltac:(lia))
                  (eventually_and _ _ Ht
                     (eventually_and _ _
                        (back_apply_eventually d s d He Ht d ltac:(lia))
                        (eventually_ge b)))) as Hall.
    revert Hall. apply eventually_mono.
    intros n (H1 & H2 & H3 & H4). apply back_loop_step; auto; lia. }
  induction s as [|s [_ IHl]].
  - assert (Ht : eventually (back_tail d 0)).
    { exists 1. intros [|n] Hn; [lia|]. apply back_tail_zero. }
    split; auto.
  - assert (Ht : eventually (back_tail d (S s))).
    { revert IHl. apply eventually_succ. intros n. apply back_tail_step. }
    split; auto.
Qed.

Lemma back_eval_eventually (d : nat) :
  forall d', d' <= d -> eventually (back_eval d').
Proof.
  induction d as [|d IH]; intros d' Hd.
  - replace d' with 0 by lia. exists 0. intros n _. apply back_eval_zero.
  - destruct (Nat.eq_dec d' (S d)) as [->|Hne]; [|apply IH; lia].
    assert (Hb : b = 0 \/ exists s, b = S s) by (destruct b; eauto).
    destruct Hb as [Eb|[s Eb]].
    + exists 1. intros [|n] Hn; [lia|]. apply back_eval_step.
      intros s Hs. congruence.
    + destruct (back_loop_eventually d IH s) as [_ Hl].
      revert Hl. apply eventually_succ. intros n Hl.
      apply back_eval_step. intros s' Hs.
      replace s' with s by congruence. exact Hl.
Qed.

End Reverse.

Lemma result_rel_inv {A} (r r' : result A) :
  result_rel exn_rel_inv r' r -> result_rel exn_rel r r'.
Proof. destruct r, r'; cbn; auto. Qed.

(** *** From the optimized evaluator to the yardstick *)

(** A handler on the left only: what it makes of a [TypeError] is what the
    right has without it. *)
Lemma refines_except_left {B C} (m1 : M B) (K1 : B -> M C) (m2 : M C) :
  refines exn_rel (bind m1 K1) m2 ->
  refines exn_rel (bind (except_type_error m1) K1) m2.
Proof.
  intros H st st' r. specialize (H st). unfold except_type_error, bind in *.
  destruct (m1 st) as [st1 [x|e]| |] eqn:E1; try discriminate.
  - intros Hk. exact (H _ _ Hk).
  - intros Hd. destruct (H _ _ eq_refl) as (r' & E2 & Hr).
    apply (result_rel_raise exn_rel) in Hr as (e' & -> & He).
    destruct e; injection Hd as <- <-; exists (Raise e');
      (split; [exact E2|]); cbn; try exact He.
    destruct He as [<-|[? _]]; [now right|discriminate].
Qed.

(** The same handler on both sides, around a call that gives a value. *)
Lemma refines_except_both {R1 R2} (inj1 : value -> R1) (inj2 : value -> R2)
    (K1 : R1 -> M value) (K2 : R2 -> M value) (m1 m2 : M value) :
  (forall v st, K1 (inj1 v) st = Done st (Return v)) ->
  (forall v st, K2 (inj2 v) st = Done st (Return v)) ->
  refines exn_rel m1 m2 ->
  refines exn_rel (bind (except_type_error (mmap inj1 m1)) K1)
                  (bind (except_type_error (mmap inj2 m2)) K2).
Proof.
  intros HK1 HK2 H st st' r. specialize (H st).
  unfold except_type_error, mmap, bind, ret in *.
  destruct (m1 st) as [st1 [v|e]| |] eqn:E1; try discriminate.
  - destruct (H _ _ eq_refl) as (r' & -> & Hr).
    apply (result_rel_return exn_rel) in Hr as ->.
    rewrite HK1, HK2. intros [= <- <-]. exists (Return v). now split.
  - destruct (H _ _ eq_refl) as (r' & -> & Hr).
    apply (result_rel_raise exn_rel) in Hr as (e' & -> & He).
    destruct He as [<-|[-> ->]].
    + destruct e; intros [= <- <-]; eexists; split; try reflexivity;
        cbn; now left.
    + intros [= <- <-]. eexists. split; [reflexivity|]. cbn. now left.
Qed.

Section SimUnguarded.

Context {R1 R2 : Type}.
Variable inj1 : value -> R1.
Variable inj2 : value -> R2.
Variables ev1 ev2 : value -> nat -> M value.
Variable evt1 : value -> nat -> M R1.
Variable evt2 : value -> nat -> M R2.
Variable ap1 : value -> value -> nat -> M R1.
Variable ap2 : value -> value -> nat -> M R2.
Variables fuel1 fuel2 : nat.
Variable K1 : R1 -> M value.
Variable K2 : R2 -> M value.

Hypothesis HK1 : forall v st, K1 (inj1 v) st = Done st (Return v).
Hypothesis HK2 : forall v st, K2 (inj2 v) st = Done st (Return v).
Hypothesis Hev : forall e env, refines exn_rel (ev1 e env) (ev2 e env).
Hypothesis Hevt :
  forall e env, refines exn_rel (bind (evt1 e env) K1) (bind (evt2 e env) K2).
Hypothesis Hap :
  forall p a env,
    refines exn_rel (bind (ap1 p a env) K1) (bind (ap2 p a env) K2).
Hypothesis Hprim :
  forall name args,
    refines exn_rel (Prim.call fuel1 name args) (Prim.call fuel2 name args).

Lemma raise_type_error_both :
  refines exn_rel
    (bind (except_type_error (raise (A := R1) TypeError)) K1)
    (bind (except_type_error (raise (A := R2) TypeError)) K2).
Proof.
  intros st st' r [= <- <-]. exists (Raise SchemeError). split; [reflexivity|].
  cbn. now left.
Qed.

Lemma raise_type_error_left :
  refines exn_rel
    (bind (except_type_error (raise (A := R1) TypeError)) K1)
    (bind (raise (A := R2) TypeError) K2).
Proof.
  intros st st' r [= <- <-]. exists (Raise TypeError). split; [reflexivity|].
  cbn. now right.
Qed.

Lemma apply_primitive_unguarded_sim (fn : primitive) (args : value)
    (env : nat) :
  refines exn_rel
    (bind (apply_primitive inj1 ev1 ap1 fuel1 fn args env) K1)
    (bind (apply_primitive_unguarded inj2 ev2 ap2 fuel2 fn args env) K2).
Proof.
  unfold apply_primitive, apply_primitive_unguarded.
  apply refines_bind_k; [apply refines_refl, exn_rel_refl|intros l].
  destruct fn; unfold call_primitive.
  - (* eval *)
    destruct l as [|expr [|? [|]]]; try apply raise_type_error_both.
    + apply refines_except_both; auto.
    + intros st st' r H. discriminate.
  - (* apply *)
    destruct l as [|procedure [|args' [|]]]; try apply raise_type_error_left.
    apply refines_except_left, Hap.
  - (* load *)
    intros st st' r H. discriminate.
  - apply refines_except_both; auto.
Qed.

Lemma scheme_apply_unguarded_sim (procedure args : value) (env : nat) :
  refines exn_rel
    (bind (scheme_apply inj1 ev1 evt1 ap1 fuel1 procedure args env) K1)
    (bind (scheme_apply_unguarded inj2 ev2 evt2 ap2 fuel2 procedure args env)
          K2).
Proof.
  unfold scheme_apply, scheme_apply_unguarded. destruct procedure;
    try (apply refines_raise_k; exact exn_rel_refl).
  - apply apply_primitive_unguarded_sim.
  - apply refines_bind_k; [apply refines_refl, exn_rel_refl|intros new_env].
    apply eval_all_sim; auto using exn_rel_refl.
  - apply refines_bind_k; [apply refines_refl, exn_rel_refl|intros new_env].
    apply eval_all_sim; auto using exn_rel_refl.
Qed.

Lemma eval_combination_unguarded_sim (expr : value) (env : nat) :
  refines exn_rel
    (bind (eval_combination inj1 ev1 evt1 ap1 fuel1 expr env) K1)
    (bind (eval_combination_unguarded inj2 ev2 evt2 ap2 fuel2 expr env) K2).
Proof.
  unfold eval_combination, eval_combination_unguarded.
  destruct (negb (scheme_listp expr));
    [apply refines_raise_k; exact exn_rel_refl|].
  apply refines_bind_k; [apply refines_refl, exn_rel_refl|intros first].
  apply refines_bind_k; [apply refines_refl, exn_rel_refl|intros rest].
  assert (Hcall :
    refines exn_rel
      (bind (do procedure <- ev1 first env;
             do args <- pair_map (fun operand => ev1 operand env) rest;
             scheme_apply inj1 ev1 evt1 ap1 fuel1 procedure args env) K1)
      (bind (do procedure <- ev2 first env;
             do args <- pair_map (fun operand => ev2 operand env) rest;
             scheme_apply_unguarded inj2 ev2 evt2 ap2 fuel2 procedure args env)
            K2)).
  { apply refines_bind_k; [apply Hev|intros procedure].
    apply refines_bind_k;
      [apply pair_map_sim; auto using exn_rel_refl
      |intros ?; apply scheme_apply_unguarded_sim]. }
  destruct (scheme_symbolp first); [|exact Hcall].
  destruct first; try exact Hcall.
  pose proof (SPECIAL_FORMS_sim exn_rel exn_rel_refl inj1 inj2 ev1 ev2
                evt1 evt2 K1 K2 HK1 HK2 Hev Hevt s) as Hs.
  destruct (SPECIAL_FORMS inj1 ev1 evt1 s), (SPECIAL_FORMS inj2 ev2 evt2 s);
    try contradiction; auto.
Qed.

End SimUnguarded.

Section ToUnguarded.

Variable b : nat.

Let to_eval (d n : nat) : Prop :=
  forall e env,
    refines exn_rel (scheme_optimized_eval b d e env)
      (scheme_eval_unguarded n e env).

Let to_tail (d s n : nat) : Prop :=
  forall e env,
    refines exn_rel
      (bind (scheme_optimized_eval_tail e env) (loop_of b d s))
      (bind (scheme_eval_unguarded n e env) ret).

Let to_apply (d' d s n : nat) : Prop :=
  forall p a env,
    refines exn_rel
      (bind (scheme_apply_optimized b d' p a env) (loop_of b d s))
      (bind (scheme_apply_direct_unguarded n p a env) ret).

Let to_loop (d s n : nat) : Prop :=
  forall e env,
    refines exn_rel
      (bind (eval_combination Value (scheme_optimized_eval b d)
               scheme_optimized_eval_tail (scheme_apply_optimized b d) b e env)
            (loop_of b d s))
      (eval_combination_unguarded id (scheme_eval_unguarded n)
         (scheme_eval_unguarded n) (scheme_apply_direct_unguarded n) (S n)
         e env).

Lemma to_loop_step (d s n : nat) :
  to_eval d n -> to_tail d s n -> to_apply d d s n -> b <= S n ->
  to_loop d s n.
Proof.
  intros He Ht Ha Hb e env.
  eapply refines_ext; [intros st; apply bind_ret_r|].
  apply eval_combination_unguarded_sim; auto.
  - intros v st. apply loop_of_value.
  - intros name args. apply prim_call_mono; [exact exn_rel_refl|lia].
Qed.

Lemma to_tail_zero (d n : nat) : to_tail d 0 (S n).
Proof.
  intros e env. eapply refines_ext; [intros st; symmetry; apply bind_ret_r|].
  cbn [scheme_eval_unguarded]. apply scheme_optimized_eval_tail_k_inv.
  - exact exn_rel_refl.
  - intros v st. apply loop_of_value.
  - intros _ _. apply refines_out_of_fuel.
Qed.

Lemma to_tail_step (d s n : nat) : to_loop d s n -> to_tail d (S s) (S n).
Proof.
  intros Hl e env. eapply refines_ext; [intros st; symmetry; apply bind_ret_r|].
  cbn [scheme_eval_unguarded]. apply scheme_optimized_eval_tail_k_inv.
  - exact exn_rel_refl.
  - intros v st. apply loop_of_value.
  - intros _ _. rewrite loop_of_unfold. apply Hl.
Qed.

Lemma to_apply_zero (d s n : nat) : to_apply 0 d s n.
Proof. intros p a env st st' r H. discriminate. Qed.

Lemma to_apply_step (d' d s n : nat) :
  to_eval d' n -> to_tail d s n -> to_apply d' d s n -> b <= S n ->
  to_apply (S d') d s (S n).
Proof.
  intros He Ht Ha Hb p a env.
  cbn [scheme_apply_direct_unguarded scheme_apply_optimized].
  apply scheme_apply_unguarded_sim; auto.
  - intros v st. apply loop_of_value.
  - intros name args. apply prim_call_mono; [exact exn_rel_refl|lia].
Qed.

Lemma to_eval_zero (n : nat) : to_eval 0 n.
Proof. intros e env st st' r H. discriminate. Qed.

Lemma to_eval_step (d n : nat) :
  (forall s, b = S s -> to_loop d s n) -> to_eval (S d) (S n).
Proof.
  intros Hl e env. rewrite scheme_optimized_eval_unfold.
  cbn [scheme_eval_unguarded].
  destruct (scheme_symbolp e); [apply refines_refl, exn_rel_refl|].
  destruct (self_evaluating e); [apply refines_refl, exn_rel_refl|].
  destruct b as [|s] eqn:Eb.
  - intros st st' r H. discriminate.
  - rewrite loop_of_unfold. now apply Hl.
Qed.

Lemma to_apply_eventually (d s dmax : nat) :
  (forall d', d' <= dmax -> eventually (to_eval d')) ->
  eventually (to_tail d s) ->
  forall d', d' <= S dmax -> eventually (to_apply d' d s).
Proof.
  intros He Ht d'. induction d' as [|d' IH]; intros Hd.
  - exists 0. intros n _. apply to_apply_zero.
  - pose proof (eventually_and _ _ (He d' ltac:(lia))
                  (eventually_and _ _ Ht
                     (eventually_and _ _ (IH ltac:(lia)) (eventually_ge b))))
      as Hall.
    revert Hall. apply eventually_succ.
    intros n (H1 & H2 & H3 & H4). apply to_apply_step; auto; lia.
Qed.

Lemma to_loop_eventually (d : nat) :
  (forall d', d' <= d -> eventually (to_eval d')) ->
  forall s, eventually (to_tail d s) /\ eventually (to_loop d s).
Proof.
  intros He.
  assert (Hl : forall s, eventually (to_tail d s) -> eventually (to_loop d s)).
  { intros s Ht.
    pose proof (eventually_and _ _ (He d ltac:(lia))
                  (eventually_and _ _ Ht
                     (eventually_and _ _
                        (to_apply_eventually d s d He Ht d ltac:(lia))
                        (eventually_ge b)))) as Hall.
    revert Hall. apply eventually_mono.
    intros n (H1 & H2 & H3 & H4). apply to_loop_step; auto; lia. }
  induction s as [|s [_ IHl]].
  - assert (Ht : eventually (to_tail d 0)).
    { exists 1. intros [|n] Hn; [lia|]. apply to_tail_zero. }
    split; auto.
  - assert (Ht : eventually (to_tail d (S s))).
    { revert IHl. apply eventually_succ. intros n. apply to_tail_step. }
    split; auto.
Qed.

Lemma to_eval_eventually (d : nat) :
  forall d', d' <= d -> eventually (to_eval d').
Proof.
  induction d as [|d IH]; intros d' Hd.
  - replace d' with 0 by lia. exists 0. intros n _. apply to_eval_zero.
  - destruct (Nat.eq_dec d' (S d)) as [->|Hne]; [|apply IH; lia].
    assert (Hb : b = 0 \/ exists s, b = S s) by (destruct b; eauto).
    destruct Hb as [Eb|[s Eb]].
    + exists 1. intros [|n] Hn; [lia|]. apply to_eval_step.
      intros s Hs. congruence.
    + destruct (to_loop_eventually d IH s) as [_ Hl].
      revert Hl. apply eventually_succ. intros n Hl.
      apply to_eval_step. intros s' Hs.
      replace s' with s by congruence. exact Hl.
Qed.

End ToUnguarded.

(** A [TypeError] of the optimized evaluator is one of the yardstick, from
    some depth on. *)
Lemma type_error_reaches_yardstick (b d : nat) (expr : value) (env : nat)
    (st st' : store) :
  scheme_optimized_eval b d expr env st = Done st' (Raise TypeError) ->
  eventually (fun n =>
    scheme_eval_unguarded n expr env st = Done st' (Raise TypeError)).
Proof.
  intros H. destruct (to_eval_eventually b d d (le_n d)) as [N HN].
  exists N. intros n Hn.
  destruct (HN n Hn expr env st st' _ H) as (r & E & Hr).
  apply (result_rel_raise exn_rel) in Hr as (e' & -> & [<-|[? _]]);
    [exact E|discriminate].
Qed.

Lemma agree_or_escape (expr : value) (env : nat) (st st' : store) (b d : nat)
    (r r' : result value) :
  scheme_optimized_eval b d expr env st = Done st' r' ->
  result_rel exn_rel r r' ->
  r' = r \/ type_error_escapes_apply expr env st st' r r'.
Proof.
  intros H Hr. destruct r as [v|e], r' as [v'|e']; cbn in Hr; try contradiction.
  - left. congruence.
  - destruct Hr as [<-|[-> ->]]; [now left|]. right.
    repeat split. now apply (type_error_reaches_yardstick b d).
Qed.



(** The yardstick tells the two kinds of error apart: it raises the
    [TypeError] of the body of a procedure given to [apply], and it raises
    the [SchemeError] of an unknown identifier as the two evaluators do. *)
Lemma yardstick_tells_errors_apart :
  scheme_eval_unguarded 4
    (slist [Str "apply";
            slist [Str "lambda"; Nil; slist [Str "let"; slist [Int 5]; Int 1]];
            slist [Str "quote"; Nil]]) 0 create_global_frame =
    Done (create_global_frame ++ [mkFrame ∅ (Some 0); mkFrame ∅ (Some 1)])
         (Raise TypeError) /\
  scheme_eval_unguarded 1 (Str "nosuch") 0 create_global_frame =
    Done create_global_frame (Raise SchemeError) /\
  scheme_eval 1 (Str "nosuch") 0 create_global_frame =
    Done create_global_frame (Raise SchemeError) /\
  scheme_optimized_eval 1 1 (Str "nosuch") 0 create_global_frame =
    Done create_global_frame (Raise SchemeError).
Proof. repeat split; vm_compute; reflexivity. Qed.


(** ** The forms of a tail-recursive loop *)

Section Forms.

Context {R : Type}.
Variable inj : value -> R.
Variable scheme_eval : value -> nat -> M value.
Variable scheme_eval_tail : value -> nat -> M R.
Variable scheme_apply_rec : value -> value -> nat -> M R.
Variable fuel : nat.

Lemma do_if_form_three (c e1 e2 : value) (env : nat) (st : store) :
  do_if_form inj scheme_eval scheme_eval_tail (slist [c; e1; e2]) env st =
  (do test <- scheme_eval c env;
   if scheme_true test then scheme_eval_tail e1 env
   else scheme_eval_tail e2 env) st.
Proof.
  unfold do_if_form.
  rewrite bind_done with (st' := st) (a := tt)
    by (rewrite (check_form_slist [c; e1; e2]); reflexivity).
  rewrite (py_getitem_slist [c; e1; e2]). cbn [base.lookup list_lookup].
  rewrite bind_lift_return.
  apply bind_cong. intros test st1.
  destruct (scheme_true test); [reflexivity|].
  now rewrite (py_len_slist [c; e1; e2]), bind_lift_return.
Qed.

Lemma and_loop_slist (l : list value) (env k m : nat) (after : M R)
    (st : store) :
  k + m <= length l ->
  and_loop inj scheme_eval (slist l) env (seq k m) after st =
  and_in_order inj scheme_eval (take m (drop k l)) env after st.
Proof.
  revert k st; induction m as [|m IH]; intros k st Hk.
  - now rewrite take_0.
  - destruct (l !! k) as [e|] eqn:Hlk.
    2:{ apply lookup_ge_None in Hlk. lia. }
    rewrite (drop_S _ _ _ Hlk). cbn [seq and_loop take and_in_order].
    rewrite py_getitem_slist, Hlk, bind_lift_return.
    apply bind_cong. intros term st1.
    destruct (negb (scheme_true term)); [reflexivity|]. apply IH. lia.
Qed.

Lemma or_loop_slist (l : list value) (env k m : nat) (after : M R)
    (st : store) :
  k + m <= length l ->
  or_loop inj scheme_eval (slist l) env (seq k m) after st =
  or_in_order inj scheme_eval (take m (drop k l)) env after st.
Proof.
  revert k st; induction m as [|m IH]; intros k st Hk.
  - now rewrite take_0.
  - destruct (l !! k) as [e|] eqn:Hlk.
    2:{ apply lookup_ge_None in Hlk. lia. }
    rewrite (drop_S _ _ _ Hlk). cbn [seq or_loop take or_in_order].
    rewrite py_getitem_slist, Hlk, bind_lift_return.
    apply bind_cong. intros term st1.
    destruct (scheme_true term); [reflexivity|]. apply IH. lia.
Qed.

(** [and] and [or] make the tail call on their last operand when no
    operand before it decides. *)
Lemma do_and_form_snoc (es : list value) (e : value) (env : nat) (st : store) :
  do_and_form inj scheme_eval scheme_eval_tail (slist (es ++ [e])) env st =
  and_in_order inj scheme_eval es env (scheme_eval_tail e env) st.
Proof.
  unfold do_and_form. rewrite py_len_slist, bind_lift_return, length_app.
  cbn [length]. replace (length es + 1) with (S (length es)) by lia.
  cbn [Nat.eqb]. replace (S (length es) - 1) with (length es) by lia.
  rewrite and_loop_slist by (rewrite length_app; cbn; lia).
  rewrite drop_0, take_app_length.
  rewrite py_getitem_slist, lookup_app_r, Nat.sub_diag by lia. reflexivity.
Qed.

Lemma do_or_form_snoc (es : list value) (e : value) (env : nat) (st : store) :
  do_or_form inj scheme_eval scheme_eval_tail (slist (es ++ [e])) env st =
  or_in_order inj scheme_eval es env (scheme_eval_tail e env) st.
Proof.
  unfold do_or_form. rewrite py_len_slist, bind_lift_return, length_app.
  cbn [length]. replace (length es + 1) with (S (length es)) by lia.
  cbn [Nat.eqb]. replace (S (length es) - 1) with (length es) by lia.
  rewrite or_loop_slist by (rewrite length_app; cbn; lia).
  rewrite drop_0, take_app_length.
  rewrite py_getitem_slist, lookup_app_r, Nat.sub_diag by lia. reflexivity.
Qed.

Lemma make_child_frame_empty (env : nat) (st : store) :
  make_child_frame env Nil Nil st =
  Done (st ++ [mkFrame ∅ (Some env)]) (Return (length st)).
Proof. apply (make_child_frame_slist env [] [] st). Qed.

Lemma do_let_form_well_formed (bs : list (string * value)) (body : list value)
    (env : nat) (st : store) :
  Forall (fun b => scheme_symbolp (Str b.1) = true) bs -> body <> [] ->
  do_let_form inj scheme_eval scheme_eval_tail
    (slist (slist (map (fun b => slist [Str b.1; b.2]) bs) :: body)) env st =
  (do _u <- bind_each scheme_eval (length st) env bs;
   eval_all inj scheme_eval scheme_eval_tail (slist body) (length st))
    (st ++ [mkFrame ∅ (Some env)]).
Proof.
  intros Hs Hb. unfold do_let_form.
  rewrite bind_done with (st' := st) (a := tt).
  2:{ rewrite check_form_slist. destruct body; [contradiction|reflexivity]. }
  cbn [slist fold_right attr_first attr_second]. rewrite bind_lift_return.
  fold (slist (map (fun b => slist [Str b.1; b.2]) bs)). fold (slist body).
  unfold make_let_frame. rewrite scheme_listp_slist. cbn [negb].
  rewrite bind_assoc.
  rewrite bind_done with (st' := st ++ [mkFrame ∅ (Some env)]) (a := length st)
    by apply make_child_frame_empty.
  rewrite bind_assoc, py_list_slist, bind_lift_return, bind_assoc.
  rewrite bind_cong_l with (m2 := bind_each scheme_eval (length st) env bs)
    by (now apply let_loop_well_formed).
  apply bind_cong. intros [] st1. reflexivity.
Qed.

Lemma pair_map_slist (es : list value) (env : nat) (st : store) :
  pair_map (fun operand => scheme_eval operand env) (slist es) st =
  mmap slist (eval_operands scheme_eval es env) st.
Proof.
  revert st; induction es as [|e es IH]; intros st; [reflexivity|].
  cbn [slist fold_right pair_map eval_operands]. fold (slist es).
  unfold mmap, bind in *.
  destruct (scheme_eval e env st) as [st1 [v|x]| |]; auto.
  assert (E : forall k : M value,
    match slist es with Nil | Pair _ _ => k | _ => raise TypeError end = k)
    by (intros k; destruct es; reflexivity).
  rewrite E. rewrite IH.
  destruct (eval_operands scheme_eval es env st1) as [st2 [vs|x]| |]; auto.
Qed.

Lemma is_special_form_false (s : string) :
  is_special_form (Str s) = false ->
  (if scheme_symbolp (Str s)
   then SPECIAL_FORMS inj scheme_eval scheme_eval_tail s else None) = None.
Proof.
  unfold is_special_form, SPECIAL_FORMS. cbn [existsb].
  destruct (scheme_symbolp (Str s)); [|reflexivity]. cbn [andb].
  repeat match goal with
         | |- context [String.eqb s ?x] => destruct (String.eqb s x)
         end; cbn; congruence.
Qed.

(** A combination whose operator is a symbol that names no special form. *)
Lemma eval_combination_call (s : string) (es : list value) (env : nat)
    (st : store) :
  is_special_form (Str s) = false ->
  eval_combination inj scheme_eval scheme_eval_tail scheme_apply_rec fuel
    (slist (Str s :: es)) env st =
  (do procedure <- scheme_eval (Str s) env;
   do args <- eval_operands scheme_eval es env;
   scheme_apply inj scheme_eval scheme_eval_tail scheme_apply_rec fuel
     procedure (slist args) env) st.
Proof.
  intros Hs. unfold eval_combination.
  rewrite scheme_listp_slist. cbn [negb slist fold_right attr_first attr_second].
  rewrite !bind_lift_return. fold (slist es).
  rewrite (is_special_form_false s Hs).
  apply bind_cong. intros p st1.
  rewrite bind_cong_l with (m2 := mmap slist (eval_operands scheme_eval es env))
    by apply pair_map_slist.
  unfold mmap. rewrite bind_assoc. apply bind_cong. intros vs st2. reflexivity.
Qed.

(** A primitive of the table applied to argument values. *)
Lemma scheme_apply_named (name : string) (vs : list value) (env : nat)
    (st : store) (r : value) :
  Prim.call fuel name vs st = Done st (Return r) ->
  scheme_apply inj scheme_eval scheme_eval_tail scheme_apply_rec fuel
    (PrimitiveProcedure (PrimNamed name)) (slist vs) env st =
  Done st (Return (inj r)).
Proof.
  intros H. cbn [scheme_apply]. unfold apply_primitive.
  rewrite py_list_slist, bind_lift_return.
  unfold except_type_error, call_primitive, mmap, bind. now rewrite H.
Qed.

(** A lambda procedure whose body is one expression, applied to as many
    values as it has formals. *)
Lemma scheme_apply_lambda (ss : list string) (e : value) (penv : nat)
    (vs : list value) (env : nat) (st : store) :
  length ss = length vs ->
  scheme_apply inj scheme_eval scheme_eval_tail scheme_apply_rec fuel
    (LambdaProcedure (slist (Str <$> ss)) (slist [e]) penv) (slist vs) env st =
  scheme_eval_tail e (length st)
    (st ++ [mkFrame (bound_positionally ss vs) (Some penv)]).
Proof.
  intros E. cbn [scheme_apply make_call_frame].
  rewrite bind_done with (a := length st)
    (st' := st ++ [mkFrame (bound_positionally ss vs) (Some penv)]).
  - apply eval_all_single.
  - rewrite make_child_frame_slist. apply Nat.eqb_eq in E as ->. reflexivity.
Qed.

(** The same with a body of several expressions: all but the last are
    evaluated in the new frame, the last is a tail call. *)
Lemma scheme_apply_lambda_body (ss : list string) (es : list value)
    (e : value) (penv : nat) (vs : list value) (env : nat) (st : store) :
  length ss = length vs ->
  scheme_apply inj scheme_eval scheme_eval_tail scheme_apply_rec fuel
    (LambdaProcedure (slist (Str <$> ss)) (slist (es ++ [e])) penv)
    (slist vs) env st =
  (do _u <- eval_in_order scheme_eval es (length st);
   scheme_eval_tail e (length st))
    (st ++ [mkFrame (bound_positionally ss vs) (Some penv)]).
Proof.
  intros E. cbn [scheme_apply make_call_frame].
  rewrite bind_done with (a := length st)
    (st' := st ++ [mkFrame (bound_positionally ss vs) (Some penv)]).
  - apply eval_all_snoc.
  - rewrite make_child_frame_slist. apply Nat.eqb_eq in E as ->. reflexivity.
Qed.

(** A mu procedure: the new frame is under the frame of the call. *)
Lemma scheme_apply_mu_body (ss : list string) (es : list value)
    (e : value) (vs : list value) (env : nat) (st : store) :
  length ss = length vs ->
  scheme_apply inj scheme_eval scheme_eval_tail scheme_apply_rec fuel
    (MuProcedure (slist (Str <$> ss)) (slist (es ++ [e])))
    (slist vs) env st =
  (do _u <- eval_in_order scheme_eval es (length st);
   scheme_eval_tail e (length st))
    (st ++ [mkFrame (bound_positionally ss vs) (Some env)]).
Proof.
  intros E. cbn [scheme_apply make_call_frame].
  rewrite bind_done with (a := length st)
    (st' := st ++ [mkFrame (bound_positionally ss vs) (Some env)]).
  - apply eval_all_snoc.
  - rewrite make_child_frame_slist. apply Nat.eqb_eq in E as ->. reflexivity.
Qed.

Lemma do_let_form_body (bs : list (string * value)) (es : list value)
    (e : value) (env : nat) (st : store) :
  Forall (fun b => scheme_symbolp (Str b.1) = true) bs ->
  do_let_form inj scheme_eval scheme_eval_tail
    (slist (slist (map (fun b => slist [Str b.1; b.2]) bs) :: es ++ [e]))
    env st =
  (do _u <- bind_each scheme_eval (length st) env bs;
   do _v <- eval_in_order scheme_eval es (length st);
   scheme_eval_tail e (length st))
    (st ++ [mkFrame ∅ (Some env)]).
Proof.
  intros Hs. rewrite do_let_form_well_formed by (auto; now destruct es).
  apply bind_cong. intros [] st1. apply eval_all_snoc.
Qed.

Lemma do_begin_form_snoc (es : list value) (e : value) (env : nat)
    (st : store) :
  do_begin_form inj scheme_eval scheme_eval_tail (slist (es ++ [e])) env st =
  (do _u <- eval_in_order scheme_eval es env; scheme_eval_tail e env) st.
Proof.
  unfold do_begin_form.
  rewrite bind_done with (st' := st) (a := tt).
  - apply eval_all_snoc.
  - rewrite check_form_slist, length_app. cbn [length].
    replace (length es + 1) with (S (length es)) by lia. reflexivity.
Qed.

End Forms.

(** ** Looking symbols up *)

Lemma lookup_in_mono (fuel fuel' : nat) (st st' : store) (env : nat)
    (s : string) (r : result value) :
  fuel <= fuel' ->
  lookup_in fuel st env s = Done st' r -> lookup_in fuel' st env s = Done st' r.
Proof.
  revert fuel' env; induction fuel as [|fuel IH]; intros fuel' env Hle;
    [discriminate|].
  destruct fuel' as [|fuel']; [lia|]. cbn [lookup_in].
  destruct (st !! env) as [fr|]; auto.
  destruct (bindings fr !! s); auto.
  destruct (parent fr); auto. apply IH. lia.
Qed.

Lemma lookup_from (fuel : nat) (st st' : store) (env : nat) (s : string)
    (r : result value) :
  fuel <= length st ->
  lookup_in fuel st env s = Done st' r -> lookup env s st = Done st' r.
Proof. intros Hle H. unfold lookup. now apply (lookup_in_mono fuel). Qed.

Lemma loop_define_defines :
  scheme_optimized_eval 2 2 loop_define 0 create_global_frame =
  Done [loop_global] (Return (Str "loop")).
Proof. vm_compute. reflexivity. Qed.

Lemma loop_global_eq :
  bindings loop_global !! "=" = Some (PrimitiveProcedure (PrimNamed "=")).
Proof. vm_compute. reflexivity. Qed.

Lemma loop_global_sub :
  bindings loop_global !! "-" = Some (PrimitiveProcedure (PrimNamed "-")).
Proof. vm_compute. reflexivity. Qed.

Lemma loop_global_loop : bindings loop_global !! "loop" = Some loop_procedure.
Proof. vm_compute. reflexivity. Qed.

(** A symbol that the frame [env] does not bind, when the parent of [env]
    is the global frame. *)
Lemma lookup_via_global (st : store) (env : nat) (b : gmap string value)
    (s : string) (v : value) :
  st !! 0 = Some loop_global -> st !! env = Some (mkFrame b (Some 0)) ->
  b !! s = None -> bindings loop_global !! s = Some v ->
  lookup env s st = Done st (Return v).
Proof.
  intros H0 He Hb Hv. apply (lookup_from 2).
  - destruct env as [|env]; [rewrite H0 in He; discriminate|].
    apply lookup_lt_Some in He. lia.
  - cbn [lookup_in]. rewrite He. cbn [bindings parent]. rewrite Hb, H0, Hv.
    reflexivity.
Qed.

Lemma lookup_here (st : store) (env : nat) (fr : Frame) (s : string) (v : value) :
  st !! env = Some fr -> bindings fr !! s = Some v ->
  lookup env s st = Done st (Return v).
Proof.
  intros He Hv. apply (lookup_from 1).
  - apply lookup_lt_Some in He. lia.
  - cbn [lookup_in]. now rewrite He, Hv.
Qed.

Lemma scheme_apply_optimized_unfold (b d : nat) :
  scheme_apply_optimized b (S d) =
  scheme_apply Value (scheme_optimized_eval b d) scheme_optimized_eval_tail
    (scheme_apply_optimized b d) b.
Proof. reflexivity. Qed.

(** A primitive of two arguments called at nesting depth 2. *)
Lemma eval_named_call (b : nat) (name pname : string) (x y : value)
    (env : nat) (st : store) (vx vy r : value) :
  1 <= b -> is_special_form (Str name) = false ->
  scheme_optimized_eval b 1 (Str name) env st =
    Done st (Return (PrimitiveProcedure (PrimNamed pname))) ->
  scheme_optimized_eval b 1 x env st = Done st (Return vx) ->
  scheme_optimized_eval b 1 y env st = Done st (Return vy) ->
  Prim.call b pname [vx; vy] st = Done st (Return r) ->
  scheme_optimized_eval b 2 (slist [Str name; x; y]) env st =
  Done st (Return r).
Proof.
  intros Hb Hs Hp Hx Hy Hr. destruct b as [|b]; [lia|].
  rewrite scheme_optimized_eval_unfold.
  change (scheme_symbolp (slist [Str name; x; y])) with false.
  change (self_evaluating (slist [Str name; x; y])) with false.
  cbv iota. rewrite loop_of_unfold.
  rewrite bind_cong_l with (m2 := ret (Value r)); [apply loop_of_value|].
  rewrite eval_combination_call by assumption.
  rewrite bind_done with (st' := st) (a := PrimitiveProcedure (PrimNamed pname))
    by assumption.
  rewrite bind_done with (st' := st) (a := [vx; vy]).
  - now apply scheme_apply_named.
  - cbn [eval_operands].
    rewrite bind_done with (st' := st) (a := vx) by assumption.
    rewrite bind_assoc.
    rewrite bind_done with (st' := st) (a := vy) by assumption.
    reflexivity.
Qed.

Lemma num_eq_int (x y : Z) : Prim.num_eq (Int x) (Int y) = (x =? y)%Z.
Proof. unfold Prim.num_eq, Qeq_bool; simpl. now rewrite !Z.mul_1_r. Qed.

Section Special.

Context {R : Type}.
Variable inj : value -> R.
Variable scheme_eval : value -> nat -> M value.
Variable scheme_eval_tail : value -> nat -> M R.
Variable scheme_apply_rec : value -> value -> nat -> M R.
Variable fuel : nat.

Lemma eval_combination_if (rest : list value) (env : nat) (st : store) :
  eval_combination inj scheme_eval scheme_eval_tail scheme_apply_rec fuel
    (slist (Str "if" :: rest)) env st =
  do_if_form inj scheme_eval scheme_eval_tail (slist rest) env st.
Proof. unfold eval_combination. now rewrite scheme_listp_slist. Qed.

Lemma eval_combination_let (rest : list value) (env : nat) (st : store) :
  eval_combination inj scheme_eval scheme_eval_tail scheme_apply_rec fuel
    (slist (Str "let" :: rest)) env st =
  do_let_form inj scheme_eval scheme_eval_tail (slist rest) env st.
Proof. unfold eval_combination. now rewrite scheme_listp_slist. Qed.

End Special.

Lemma eval_symbol (b d : nat) (s : string) (env : nat) (st : store) :
  scheme_symbolp (Str s) = true ->
  scheme_optimized_eval b (S d) (Str s) env st = lookup env s st.
Proof. intros H. rewrite scheme_optimized_eval_unfold, H. reflexivity. Qed.

Lemma tail_of_combination (first second : value) (env : nat) (st : store) :
  scheme_optimized_eval_tail (Pair first second) env st =
  Done st (Return (Evaluate (Pair first second) env)).
Proof. reflexivity. Qed.

Lemma loop_frame_not_global (st : store) (f : nat) (z : Z) :
  st !! 0 = Some loop_global ->
  st !! f = Some (mkFrame (<["n" := Int z]> ∅) (Some 0)) ->
  f <> 0 /\ 2 <= length st.
Proof.
  intros H0 Hf.
  assert (f <> 0) by (intros ->; rewrite H0 in Hf; discriminate).
  apply lookup_lt_Some in Hf. lia.
Qed.

Section Loop.

Variables (st : store) (f b : nat) (z : Z).
Hypothesis H0 : st !! 0 = Some loop_global.
Hypothesis Hf : st !! f = Some (mkFrame (<["n" := Int z]> ∅) (Some 0)).
Hypothesis Hb : 1 <= b.

Lemma loop_test_value :
  scheme_optimized_eval b 2 loop_test f st = Done st (Return (Bool (z =? 0)%Z)).
Proof.
  apply eval_named_call with (pname := "=") (vx := Int z) (vy := Int 0);
    [exact Hb|reflexivity| | |reflexivity|].
  - rewrite eval_symbol by reflexivity.
    apply lookup_via_global with (b := <["n" := Int z]> ∅);
      [exact H0|exact Hf|reflexivity|exact loop_global_eq].
  - rewrite eval_symbol by reflexivity.
    eapply lookup_here; [exact Hf|]. apply lookup_insert_eq.
  - unfold Prim.call. cbn [String.eqb Ascii.eqb Bool.eqb].
    unfold Prim.scheme_eq, Prim._numcomp, lift. cbn. now rewrite num_eq_int.
Qed.

Lemma loop_sub_value :
  scheme_optimized_eval b 2 (slist [Str "-"; Str "n"; Int 1]) f st =
  Done st (Return (Int (z - 1))).
Proof.
  apply eval_named_call with (pname := "-") (vx := Int z) (vy := Int 1);
    [exact Hb|reflexivity| | |reflexivity|reflexivity].
  - rewrite eval_symbol by reflexivity.
    apply lookup_via_global with (b := <["n" := Int z]> ∅);
      [exact H0|exact Hf|reflexivity|exact loop_global_sub].
  - rewrite eval_symbol by reflexivity.
    eapply lookup_here; [exact Hf|]. apply lookup_insert_eq.
Qed.

Lemma loop_body_step :
  eval_combination Value (scheme_optimized_eval b 2) scheme_optimized_eval_tail
    (scheme_apply_optimized b 2) b loop_body f st =
  Done st (Return (if (z =? 0)%Z then Value (Int 0) else Evaluate loop_let f)).
Proof.
  unfold loop_body. rewrite eval_combination_if, do_if_form_three.
  rewrite bind_done with (st' := st) (a := Bool (z =? 0)%Z)
    by apply loop_test_value.
  destruct (z =? 0)%Z; reflexivity.
Qed.

End Loop.

Lemma loop_let_step (st : store) (f b : nat) (z : Z) :
  st !! 0 = Some loop_global ->
  st !! f = Some (mkFrame (<["n" := Int z]> ∅) (Some 0)) ->
  1 <= b ->
  eval_combination Value (scheme_optimized_eval b 2) scheme_optimized_eval_tail
    (scheme_apply_optimized b 2) b loop_let f st =
  Done (st ++ [mkFrame (<["m" := Int (z - 1)]> ∅) (Some f)])
       (Return (Evaluate (slist [Str "loop"; Str "m"]) (length st))).
Proof.
  intros H0 Hf Hb.
  destruct (loop_frame_not_global st f z H0 Hf) as [Hf0 Hlen].
  unfold loop_let. rewrite eval_combination_let.
  rewrite (do_let_form_well_formed Value _ _
             [("m", slist [Str "-"; Str "n"; Int 1])]
             [slist [Str "loop"; Str "m"]]);
    [|repeat constructor|discriminate].
  cbn [bind_each]. rewrite bind_assoc.
  rewrite bind_done with (st' := st ++ [mkFrame ∅ (Some f)]) (a := Int (z - 1)).
  2:{ apply loop_sub_value; auto.
      - rewrite lookup_app_l by lia. exact H0.
      - rewrite lookup_app_l by (apply lookup_lt_Some in Hf; lia). exact Hf. }
  rewrite bind_assoc.
  rewrite bind_done with (a := tt)
    (st' := st ++ [mkFrame (<["m" := Int (z - 1)]> ∅) (Some f)]).
  2:{ unfold define. rewrite lookup_app_r by lia. rewrite Nat.sub_diag.
      cbn [base.lookup list_lookup bindings parent].
      rewrite insert_app_r_alt by lia. now rewrite Nat.sub_diag. }
  rewrite bind_ret, (eval_all_single Value). reflexivity.
Qed.

Lemma loop_call_step (st : store) (f f2 b : nat) (z : Z) :
  st !! 0 = Some loop_global ->
  st !! f = Some (mkFrame (<["n" := Int (z + 1)]> ∅) (Some 0)) ->
  st !! f2 = Some (mkFrame (<["m" := Int z]> ∅) (Some f)) ->
  eval_combination Value (scheme_optimized_eval b 2) scheme_optimized_eval_tail
    (scheme_apply_optimized b 2) b (slist [Str "loop"; Str "m"]) f2 st =
  Done (st ++ [mkFrame (<["n" := Int z]> ∅) (Some 0)])
       (Return (Evaluate loop_body (length st))).
Proof.
  intros H0 Hf Hf2.
  destruct (loop_frame_not_global st f (z + 1) H0 Hf) as [Hf0 Hlen].
  assert (Hf2f : f2 <> f).
  { intros ->. rewrite Hf in Hf2.
    apply (f_equal (fun o : option Frame =>
             match o with Some fr => bindings fr !! "n" | None => None end))
      in Hf2.
    cbn [bindings] in Hf2.
    rewrite lookup_insert_eq, lookup_insert_ne, lookup_empty in Hf2
      by discriminate.
    discriminate. }
  assert (Hf20 : f2 <> 0) by (intros ->; rewrite H0 in Hf2; discriminate).
  assert (Hlen3 : 3 <= length st).
  { apply lookup_lt_Some in Hf, Hf2. lia. }
  rewrite (eval_combination_call Value _ _ _ _ "loop" [Str "m"]) by reflexivity.
  rewrite bind_done with (st' := st) (a := loop_procedure).
  2:{ rewrite eval_symbol by reflexivity. apply (lookup_from 3); [exact Hlen3|].
      cbn [lookup_in]. rewrite Hf2. cbn [bindings parent].
      rewrite lookup_insert_ne, lookup_empty by discriminate.
      rewrite Hf. cbn [bindings parent].
      rewrite lookup_insert_ne, lookup_empty by discriminate.
      rewrite H0, loop_global_loop. reflexivity. }
  rewrite bind_done with (st' := st) (a := [Int z]).
  2:{ cbn [eval_operands].
      rewrite bind_done with (st' := st) (a := Int z); [reflexivity|].
      rewrite eval_symbol by reflexivity.
      eapply lookup_here; [exact Hf2|]. apply lookup_insert_eq. }
  unfold loop_procedure.
  rewrite (scheme_apply_lambda Value _ _ _ _ ["n"] loop_body 0 [Int z])
    by reflexivity.
  reflexivity.
Qed.

(** The counting loop from [k] down to 0, in the loop of one activation
    whose nested calls are at depth 2: three rounds for each iteration, each
    iteration leaving the frame of its [let] and the frame of the next
    call. *)
Lemma loop_iterates (k : nat) :
  forall (st : store) (f b steps : nat),
  st !! 0 = Some loop_global ->
  st !! f = Some (mkFrame (<["n" := Int (Z.of_nat k)]> ∅) (Some 0)) ->
  1 <= b -> 3 * k + 1 <= steps ->
  loop_of b 2 steps (Evaluate loop_body f) st =
  Done (st ++ loop_trace k f (length st)) (Return (Int 0)).
Proof.
  induction k as [|k IH]; intros st f b steps H0 Hf Hb Hsteps.
  - destruct steps as [|s]; [lia|]. cbn [loop_trace]. rewrite app_nil_r.
    rewrite loop_of_unfold.
    rewrite bind_done with (st' := st) (a := Value (Int 0)).
    + apply loop_of_value.
    + now rewrite (loop_body_step st f b (Z.of_nat 0) H0 Hf Hb).
  - destruct steps as [|[|[|s]]]; try lia.
    destruct (loop_frame_not_global st f _ H0 Hf) as [Hf0 Hlen].
    pose proof (lookup_lt_Some _ _ _ Hf) as Hflt.
    assert (Ez : (Z.of_nat (S k) - 1)%Z = Z.of_nat k) by lia.
    assert (Ez' : Z.of_nat (S k) = (Z.of_nat k + 1)%Z) by lia.
    set (st1 := st ++ [mkFrame (<["m" := Int (Z.of_nat k)]> ∅) (Some f)]).
    set (st2 := st1 ++ [mkFrame (<["n" := Int (Z.of_nat k)]> ∅) (Some 0)]).
    assert (Hst2 :
      loop_of b 2 s (Evaluate loop_body (length st1)) st2 =
      Done (st2 ++ loop_trace k (length st1) (length st2)) (Return (Int 0))).
    { apply IH.
      - unfold st2, st1.
        rewrite !lookup_app_l by (rewrite ?length_app; cbn; lia). exact H0.
      - unfold st2. rewrite lookup_app_r by lia. now rewrite Nat.sub_diag.
      - exact Hb.
      - lia. }
    rewrite loop_of_unfold.
    rewrite bind_done with (st' := st) (a := Evaluate loop_let f).
    2:{ rewrite (loop_body_step st f b _ H0 Hf Hb).
        destruct (Z.eqb_spec (Z.of_nat (S k)) 0); [lia|reflexivity]. }
    rewrite loop_of_unfold.
    rewrite bind_done with (st' := st1)
      (a := Evaluate (slist [Str "loop"; Str "m"]) (length st))
      by (unfold st1; rewrite <- Ez; now apply loop_let_step).
    rewrite loop_of_unfold.
    rewrite bind_done with (st' := st2) (a := Evaluate loop_body (length st1)).
    + rewrite Hst2. f_equal. unfold st2, st1. cbn [loop_trace].
      rewrite !length_app. cbn [length]. rewrite <- !app_assoc.
      replace (length st + 1 + 1) with (length st + 2) by lia. reflexivity.
    + apply loop_call_step with (f := f).
      * unfold st1. rewrite lookup_app_l by lia. exact H0.
      * unfold st1. rewrite lookup_app_l by lia. rewrite Hf, Ez'. reflexivity.
      * unfold st1. rewrite lookup_app_r by lia. now rewrite Nat.sub_diag.
Qed.

(** The direct evaluator needs more depth for more iterations: depth 4 is
    enough for no iteration and not for one. *)
Lemma direct_eval_depth_grows :
  scheme_eval 4 (slist [Str "loop"; Int 0]) 0 [loop_global] =
    Done ([loop_global] ++ [mkFrame (<["n" := Int 0]> ∅) (Some 0)])
         (Return (Int 0)) /\
  scheme_eval 4 (slist [Str "loop"; Int 1]) 0 [loop_global] = OutOfFuel.
Proof. split; vm_compute; reflexivity. Qed.

(** C2: with the optimized evaluator, the last expression of [begin],
    [and], [or], [cond], [let] and of the body of a lambda or mu procedure,
    and the chosen branch of [if], when it is a combination, comes back as
    an [Evaluate] marker: the handler makes no call of the evaluator on it,
    whatever the evaluator of the other expressions does.  And the counting
    loop, for any number [k] of iterations, runs at nesting depth 3, in a
    loop of [3k+2] rounds: it returns 0 and leaves, after the global frame,
    the frame of the first call and, for each iteration, the frame of its
    [let] and the frame of the next call.  The direct evaluator, for which
    the call in the [let] is a nested call, has not enough of depth 4 for
    one iteration or more. *)
Theorem tail_calls_run_in_constant_depth :
  (forall (scheme_eval : value -> nat -> M value)
          (scheme_apply_rec : value -> value -> nat -> M deferred)
          (fuel : nat) (first second : value) (env : nat) (st : store),
     let e := Pair first second in
     let tail := scheme_optimized_eval_tail in
     let defer (env' : nat) : M deferred := ret (Evaluate e env') in
     (forall es,
        do_begin_form Value scheme_eval tail (slist (es ++ [e])) env st =
        (do _u <- eval_in_order scheme_eval es env; defer env) st) /\
     (forall es,
        do_and_form Value scheme_eval tail (slist (es ++ [e])) env st =
        and_in_order Value scheme_eval es env (defer env) st) /\
     (forall es,
        do_or_form Value scheme_eval tail (slist (es ++ [e])) env st =
        or_in_order Value scheme_eval es env (defer env) st) /\
     (forall c other v st',
        scheme_eval c env st = Done st' (Return v) ->
        do_if_form Value scheme_eval tail
          (slist (if scheme_true v then [c; e; other] else [c; other; e]))
          env st = Done st' (Return (Evaluate e env))) /\
     (forall test es cs v st',
        eq_str test "else" = false ->
        scheme_eval test env st = Done st' (Return v) -> scheme_true v = true ->
        do_cond_form Value scheme_eval tail
          (slist (slist (test :: es ++ [e]) :: cs)) env st =
        (do _u <- eval_in_order scheme_eval es env; defer env) st') /\
     (forall es,
        do_cond_form Value scheme_eval tail
          (slist [slist (Str "else" :: es ++ [e])]) env st =
        (do _u <- eval_in_order scheme_eval es env; defer env) st) /\
     (forall bs es,
        Forall (fun b : string * value => scheme_symbolp (Str b.1) = true) bs ->
        do_let_form Value scheme_eval tail
          (slist (slist (map (fun b => slist [Str b.1; b.2]) bs) :: es ++ [e]))
          env st =
        (do _u <- bind_each scheme_eval (length st) env bs;
         do _v <- eval_in_order scheme_eval es (length st);
         defer (length st)) (st ++ [mkFrame ∅ (Some env)])) /\
     (forall ss vs es penv,
        length ss = length vs ->
        scheme_apply Value scheme_eval tail scheme_apply_rec fuel
          (LambdaProcedure (slist (Str <$> ss)) (slist (es ++ [e])) penv)
          (slist vs) env st =
        (do _u <- eval_in_order scheme_eval es (length st); defer (length st))
          (st ++ [mkFrame (bound_positionally ss vs) (Some penv)])) /\
     (forall ss vs es,
        length ss = length vs ->
        scheme_apply Value scheme_eval tail scheme_apply_rec fuel
          (MuProcedure (slist (Str <$> ss)) (slist (es ++ [e])))
          (slist vs) env st =
        (do _u <- eval_in_order scheme_eval es (length st); defer (length st))
          (st ++ [mkFrame (bound_positionally ss vs) (Some env)]))) /\
  (forall k b : nat, 3 * k + 2 <= b ->
     scheme_optimized_eval b 3 (slist [Str "loop"; Int (Z.of_nat k)]) 0
       [loop_global] =
     Done ([loop_global; mkFrame (<["n" := Int (Z.of_nat k)]> ∅) (Some 0)]
             ++ loop_trace k 1 2)
          (Return (Int 0))) /\
  (forall k : nat, 1 <= k ->
     scheme_eval 4 (slist [Str "loop"; Int (Z.of_nat k)]) 0 [loop_global] =
     OutOfFuel).
Proof.
  split; [|split].
  - intros ev ap fuel first second env st e tail defer.
    split; [|split; [|split; [|split; [|split; [|split; [|split; [|split]]]]]]].
    + intros es. apply do_begin_form_snoc.
    + intros es. apply do_and_form_snoc.
    + intros es. apply do_or_form_snoc.
    + intros c other v st' Hc.
      destruct (scheme_true v) eqn:Hv; rewrite do_if_form_three;
        rewrite bind_done with (st' := st') (a := v) by assumption;
        rewrite Hv; reflexivity.
    + intros test es cs v st' Helse Hev Hv.
      now apply do_cond_form_true_clause with (v := v).
    + intros es. apply do_cond_form_else_clause.
    + intros bs es Hs. now apply do_let_form_body.
    + intros ss vs es penv E. now apply scheme_apply_lambda_body.
    + intros ss vs es E. now apply scheme_apply_mu_body.
  - intros k b Hb. destruct b as [|b]; [lia|].
    rewrite scheme_optimized_eval_unfold.
    change (scheme_symbolp (slist [Str "loop"; Int (Z.of_nat k)])) with false.
    change (self_evaluating (slist [Str "loop"; Int (Z.of_nat k)])) with false.
    cbv iota. rewrite loop_of_unfold.
    rewrite bind_done with (a := Evaluate loop_body 1)
      (st' := [loop_global] ++ [mkFrame (<["n" := Int (Z.of_nat k)]> ∅) (Some 0)]).
    + apply (loop_iterates k
               ([loop_global] ++
                [mkFrame (<["n" := Int (Z.of_nat k)]> ∅) (Some 0)])
               1 (S b) b); try reflexivity; lia.
    + rewrite (eval_combination_call Value _ _ _ _ "loop" [Int (Z.of_nat k)])
        by reflexivity.
      rewrite bind_done with (st' := [loop_global]) (a := loop_procedure).
      2:{ rewrite eval_symbol by reflexivity.
          eapply lookup_here; [reflexivity|]. exact loop_global_loop. }
      rewrite bind_done with (st' := [loop_global]) (a := [Int (Z.of_nat k)])
        by reflexivity.
      unfold loop_procedure.
      rewrite (scheme_apply_lambda Value _ _ _ _ ["n"] loop_body 0
                 [Int (Z.of_nat k)]) by reflexivity.
      reflexivity.
  - intros [|k] Hk; [lia|]. vm_compute. reflexivity.
Qed.

Lemma tail_calls_run_in_constant_depth_witness :
  scheme_optimized_eval 8 3 (slist [Str "loop"; Int 2]) 0 [loop_global] =
  Done [loop_global;
        mkFrame (<["n" := Int 2]> ∅) (Some 0);
        mkFrame (<["m" := Int 1]> ∅) (Some 1);
        mkFrame (<["n" := Int 1]> ∅) (Some 0);
        mkFrame (<["m" := Int 0]> ∅) (Some 3);
        mkFrame (<["n" := Int 0]> ∅) (Some 0)]
       (Return (Int 0)).
Proof.
  refine (proj1 (proj2 tail_calls_run_in_constant_depth) 2 8 _). cbn; lia.
Defined.

(** ** The list primitives *)

Lemma append_copy_items (s first result : value) :
  append_copy first s result = fold_right Pair result (first :: items s).
Proof.
  revert first; induction s; intros f; try reflexivity.
  cbn [append_copy items fold_right]. f_equal.
  rewrite IHs2. reflexivity.
Qed.

Lemma append_loop_take (vals : list value) (k : nat) (result : value) :
  k <= length vals ->
  append_loop vals (rev (seq 0 k)) result =
  if forallb nil_or_pair (take k vals)
  then Return (fold_right Pair result (concat (items <$> take k vals)))
  else Raise SchemeError.
Proof.
  revert result; induction k as [|k IH]; intros result Hk.
  - now rewrite take_0.
  - destruct (vals !! k) as [v|] eqn:Hv.
    2:{ apply lookup_ge_None in Hv. lia. }
    rewrite seq_S, rev_app_distr. cbn [rev app Nat.add append_loop].
    rewrite Hv, (take_S_r _ _ _ Hv), forallb_app, fmap_app, concat_app,
      fold_right_app.
    cbn [forallb fmap list_fmap concat fold_right]. rewrite app_nil_r, andb_true_r.
    unfold nil_or_pair at 2.
    destruct v; cbn [scheme_nullp scheme_pairp negb orb Prim.check_type items
                     fold_right app];
      rewrite ?andb_false_r, ?andb_true_r; try reflexivity.
    + apply IH. lia.
    + rewrite IH by lia. now rewrite append_copy_items.
Qed.

Lemma scheme_append_snoc (init : list value) (last : value) :
  scheme_append (init ++ [last]) =
  if forallb nil_or_pair init
  then Return (fold_right Pair last (concat (items <$> init)))
  else Raise SchemeError.
Proof.
  unfold scheme_append. rewrite length_app, last_snoc. cbn [length].
  replace (length init + 1) with (S (length init)) by lia.
  cbn [Nat.eqb]. replace (S (length init) - 1) with (length init) by lia.
  rewrite append_loop_take by (rewrite length_app; lia).
  now rewrite take_app_length.
Qed.

Lemma concat_items_slist (ls : list (list value)) :
  concat (items <$> (slist <$> ls)) = concat ls.
Proof.
  induction ls as [|l ls IH]; [reflexivity|].
  cbn [fmap list_fmap concat]. rewrite items_slist. f_equal. exact IH.
Qed.

Lemma forallb_nil_or_pair_slist (ls : list (list value)) :
  forallb nil_or_pair (slist <$> ls) = true.
Proof.
  induction ls as [|l ls IH]; [reflexivity|].
  cbn [fmap list_fmap forallb]. rewrite IH. now destruct l.
Qed.

Lemma slist_app (a b : list value) :
  fold_right Pair (slist b) a = slist (a ++ b).
Proof. unfold slist. now rewrite fold_right_app. Qed.

Lemma scheme_append_slists (ls : list (list value)) :
  scheme_append (slist <$> ls) = Return (slist (concat ls)).
Proof.
  destruct ls as [|l ls _] using rev_ind; [reflexivity|].
  rewrite fmap_app. cbn [fmap list_fmap]. rewrite scheme_append_snoc.
  rewrite forallb_nil_or_pair_slist, concat_items_slist, concat_app.
  cbn [concat]. rewrite app_nil_r. now rewrite slist_app.
Qed.

(** X1: [scheme_append] with no argument is [nil]; otherwise it returns its
    last argument, whatever that is, behind a copy of the items of the
    arguments before it.  Each of those must be [nil] or a pair, or the
    call raises a [SchemeError]; of a pair that is no proper list the items
    are copied and the improper end is dropped. *)
Theorem append_copies_items_before_last (init : list value) (last : value) :
  scheme_append [] = Return Nil /\
  scheme_append (init ++ [last]) =
  if forallb (fun v => scheme_nullp v || scheme_pairp v) init
  then Return (fold_right Pair last (concat (items <$> init)))
  else Raise SchemeError.
Proof. split; [reflexivity|]. apply scheme_append_snoc. Qed.

(** X2: on proper lists [scheme_append] is concatenation, for any number of
    lists; so appending is associative, and appending the results of two
    calls is one call on all the lists. *)
Theorem append_of_lists_is_concatenation (ls ls' : list (list value)) :
  scheme_append (slist <$> ls) = Return (slist (concat ls)) /\
  scheme_append [slist (concat ls); slist (concat ls')] =
  scheme_append (slist <$> (ls ++ ls')).
Proof.
  split; [apply scheme_append_slists|].
  rewrite (scheme_append_slists (ls ++ ls')), concat_app.
  pose proof (scheme_append_slists [concat ls; concat ls']) as H.
  cbn [fmap list_fmap concat] in H. now rewrite app_nil_r in H.
Qed.

Lemma scheme_listp_items (x : value) :
  scheme_listp x = true -> py_len x = Return (length (items x)).
Proof.
  intros H. rewrite (slist_items x H) at 1. apply py_len_slist.
Qed.

Lemma scheme_length_listp (x : value) :
  scheme_length [x] =
  if scheme_listp x then Return (Int (Z.of_nat (length (items x))))
  else Raise SchemeError.
Proof.
  unfold scheme_length, Prim.check_type.
  destruct (scheme_listp x) eqn:Hl; [|reflexivity].
  rewrite (scheme_listp_items x Hl). now destruct x.
Qed.

Lemma scheme_list_slist (vals : list value) :
  Prim.scheme_list vals = Return (slist vals).
Proof.
  unfold Prim.scheme_list, slist. now rewrite <- fold_left_rev_right, rev_involutive.
Qed.

(** X3: [scheme_length] of one argument returns the number of items of a
    proper list, 0 for [nil], and raises a [SchemeError] for anything else,
    a pair with an improper end included; [len] is never reached on a value
    it would fail on.  Another number of arguments is Python's
    [TypeError]. *)
Theorem length_counts_items_of_proper_lists (x : value) (args : list value) :
  scheme_length [x] =
    (if scheme_listp x then Return (Int (Z.of_nat (length (items x))))
     else Raise SchemeError) /\
  (length args <> 1 -> scheme_length args = Raise TypeError).
Proof.
  split; [apply scheme_length_listp|].
  intros H. destruct args as [|a [|b args]]; cbn in *; congruence.
Qed.

Lemma length_counts_items_of_proper_lists_witness :
  scheme_length [Pair (Int 1) (Pair (Int 2) Nil)] = Return (Int 2) /\
  scheme_length [Pair (Int 1) (Int 2)] = Raise SchemeError /\
  scheme_length [] = Raise TypeError.
Proof.
  split; [|split].
  - apply (proj1 (length_counts_items_of_proper_lists
                    (Pair (Int 1) (Pair (Int 2) Nil)) [])).
  - apply (proj1 (length_counts_items_of_proper_lists (Pair (Int 1) (Int 2)) [])).
  - apply (proj2 (length_counts_items_of_proper_lists Nil [])). cbn. lia.
Defined.

(** X4: the length of what [scheme_append] returns on proper lists is the
    sum of their lengths, and the length of what [scheme_list] returns is
    the number of its arguments. *)
Theorem length_of_append_and_list (ls : list (list value)) (vals : list value) :
  (exists r, scheme_append (slist <$> ls) = Return r /\
     scheme_length [r] = Return (Int (Z.of_nat (sum_list (length <$> ls))))) /\
  (exists r, Prim.scheme_list vals = Return r /\
     scheme_length [r] = Return (Int (Z.of_nat (length vals)))).
Proof.
  split.
  - exists (slist (concat ls)). split; [apply scheme_append_slists|].
    rewrite scheme_length_listp, scheme_listp_slist, items_slist.
    do 3 f_equal. induction ls as [|l ls IH]; [reflexivity|].
    cbn [concat fmap list_fmap sum_list sum_list_with].
    rewrite length_app. f_equal. exact IH.
  - exists (slist vals). split; [apply scheme_list_slist|].
    now rewrite scheme_length_listp, scheme_listp_slist, items_slist.
Qed.

(** X5: [scheme_list] builds the proper list of its arguments in their
    order: [car] of it is the first argument, [cdr] of it is the list of the
    others, and [cons] of a value and the list of some values is the list of
    all of them; of the list of no arguments, which is [nil], [car] and
    [cdr] raise a [SchemeError]. *)
Theorem list_car_cdr_cons (v : value) (vals : list value) :
  Prim.scheme_list (v :: vals) = Return (slist (v :: vals)) /\
  Prim.scheme_car [slist (v :: vals)] = Return v /\
  Prim.scheme_cdr [slist (v :: vals)] = Prim.scheme_list vals /\
  Prim.scheme_cons [v; slist vals] = Prim.scheme_list (v :: vals) /\
  Prim.scheme_list [] = Return Nil /\
  Prim.scheme_car [Nil] = Raise SchemeError /\
  Prim.scheme_cdr [Nil] = Raise SchemeError.
Proof.
  rewrite !scheme_list_slist. repeat split; reflexivity.
Qed.

(** ** The number primitives *)

Lemma mod_two (z : Z) : Prim.mod_ (Int z) (Int 2) = Return (Int (z mod 2)).
Proof. reflexivity. Qed.

(** X6: on ints, [scheme_evenp] and [scheme_oddp] are the parity of the
    number, negative numbers included, since [%] takes the sign of the
    divisor 2; so every int is one of even and odd and not both.
    [scheme_zerop] holds of 0 only.  A boolean is no number for them. *)
Theorem parity_of_ints (z : Z) (b : bool) :
  scheme_evenp [Int z] = Return (Bool (Z.even z)) /\
  scheme_oddp [Int z] = Return (Bool (negb (Z.even z))) /\
  scheme_zerop [Int z] = Return (Bool (z =? 0)%Z) /\
  scheme_evenp [Bool b] = Raise SchemeError /\
  scheme_oddp [Bool b] = Raise SchemeError /\
  scheme_zerop [Bool b] = Raise SchemeError.
Proof.
  unfold scheme_evenp, scheme_oddp, scheme_zerop.
  cbn [Prim._check_nums forallb scheme_numberp andb].
  rewrite mod_two, !num_eq_int.
  pose proof (Z.div_mod z 2 ltac:(lia)) as Hd.
  pose proof (Z.mod_pos_bound z 2 ltac:(lia)) as Hb.
  repeat split; do 2 f_equal.
  - destruct (Z.even z) eqn:E.
    + apply Z.even_spec in E as [k Hk]. apply Z.eqb_eq. lia.
    + apply Z.eqb_neq. intros H0.
      assert (Z.even z = true) by (apply Z.even_spec; exists (z / 2)%Z; lia).
      congruence.
  - destruct (Z.even z) eqn:E; cbn [negb].
    + apply Z.even_spec in E as [k Hk]. apply Z.eqb_neq. lia.
    + apply Z.eqb_eq.
      destruct (Z.eq_dec (z mod 2)%Z 1%Z) as [|Hn]; [assumption|].
      assert (Z.even z = true) by (apply Z.even_spec; exists (z / 2)%Z; lia).
      congruence.
Qed.

Lemma abs_float_nonneg (q : Q) :
  Qle_bool 0 (Qred (if Qle_bool 0 q then q else Qopp q)) = true.
Proof.
  apply Qle_bool_iff. rewrite Qred_correct.
  destruct (Qle_bool 0 q) eqn:E.
  - now apply Qle_bool_iff.
  - assert (H : ~ (0 <= q)%Q) by (rewrite <- Qle_bool_iff; congruence).
    apply Qnot_le_lt in H. apply Qlt_le_weak in H.
    apply Qopp_le_compat in H. exact H.
Qed.

Lemma scheme_abs_returns (x r : value) :
  scheme_abs [x] = Return r ->
  scheme_numberp r = true /\
  Prim.num_lt r (Int 0) = false /\
  scheme_abs [r] = Return r /\
  (forall z, x = Int z -> r = Int (Z.abs z)) /\
  (forall b, x = Bool b -> r = Int (if b then 1 else 0)) /\
  (scheme_numberp x = true \/ scheme_booleanp x = true).
Proof.
  destruct x; cbn [scheme_abs]; intros [= <-]; repeat apply conj.
  - reflexivity.
  - now destruct b.
  - now destruct b.
  - intros z H. discriminate.
  - intros b' [= <-]. reflexivity.
  - now right.
  - reflexivity.
  - rewrite num_lt_int. apply Z.ltb_ge. apply Z.abs_nonneg.
  - cbn [scheme_abs]. now rewrite Z.abs_idemp.
  - intros z' [= <-]. reflexivity.
  - intros b H. discriminate.
  - now left.
  - reflexivity.
  - unfold Prim.num_lt. cbn [Prim.Q_of].
    change (inject_Z 0) with 0%Q. now rewrite abs_float_nonneg.
  - cbn [scheme_abs]. rewrite abs_float_nonneg. f_equal. f_equal.
    apply Qred_complete, Qred_correct.
  - intros z H. discriminate.
  - intros b H. discriminate.
  - now left.
Qed.

(** X7: [scheme_abs] does not check that its operand is a number.  Of an
    int it returns the absolute value, an int; of a float a float; a boolean
    it takes for 0 or 1, where [scheme_add], [scheme_sub] and [scheme_mul]
    raise a [SchemeError]; for every other operand it raises Python's
    [TypeError], no [SchemeError].  Whenever it returns, the result is a
    number that is not negative and is its own absolute value. *)
Theorem abs_returns_nonnegative_number (x r : value) (z : Z) (b : bool) :
  scheme_abs [Int z] = Return (Int (Z.abs z)) /\
  scheme_abs [Bool b] = Return (Int (if b then 1 else 0)) /\
  Prim.scheme_add [Bool b] = Raise SchemeError /\
  Prim.scheme_sub [Bool b] = Raise SchemeError /\
  Prim.scheme_mul [Bool b] = Raise SchemeError /\
  (scheme_numberp x = true -> exists r', scheme_abs [x] = Return r') /\
  (scheme_numberp x = false -> scheme_booleanp x = false ->
   scheme_abs [x] = Raise TypeError) /\
  (scheme_abs [x] = Return r ->
   scheme_numberp r = true /\
   Prim.num_lt r (Int 0) = false /\
   scheme_abs [r] = Return r /\
   (forall z, x = Int z -> r = Int (Z.abs z)) /\
   (forall b, x = Bool b -> r = Int (if b then 1 else 0)) /\
   (scheme_numberp x = true \/ scheme_booleanp x = true)).
Proof.
  repeat apply conj; try reflexivity.
  - intros Hn. destruct x; try discriminate; cbn [scheme_abs]; eauto.
  - intros Hn Hb. destruct x; try discriminate; reflexivity.
  - apply scheme_abs_returns.
Qed.

Lemma abs_returns_nonnegative_number_witness :
  scheme_abs [Str "a"] = Raise TypeError /\
  scheme_abs [Int 3] = Return (Int 3).
Proof.
  split.
  - apply (proj1 (proj2 (proj2 (proj2 (proj2 (proj2 (proj2
             (abs_returns_nonnegative_number (Str "a") Nil 0 true))))))));
      reflexivity.
  - destruct (abs_returns_nonnegative_number (Int (-3)) (Int 3) 0 true)
      as (_ & _ & _ & _ & _ & _ & _ & H).
    exact (proj1 (proj2 (proj2 (H eq_refl)))).
Defined.

Lemma check_nums_ints (zs : list Z) : Prim._check_nums (Int <$> zs) = Return tt.
Proof.
  unfold Prim._check_nums.
  replace (forallb scheme_numberp (Int <$> zs)) with true; [reflexivity|].
  induction zs as [|z zs IH]; [reflexivity|]. exact IH.
Qed.

Lemma fold_vals_add_ints (zs : list Z) (a : Z) :
  Prim.fold_vals Prim.add (Int a) (Int <$> zs) =
  Return (Int (a + fold_right Z.add 0 zs)%Z).
Proof.
  revert a; induction zs as [|z zs IH]; intros a; cbn [fmap list_fmap fold_right].
  - cbn. do 2 f_equal. lia.
  - cbn [Prim.fold_vals Prim.add]. rewrite IH. do 2 f_equal. lia.
Qed.

Lemma fold_vals_mul_ints (zs : list Z) (a : Z) :
  Prim.fold_vals Prim.mul (Int a) (Int <$> zs) =
  Return (Int (a * fold_right Z.mul 1 zs)%Z).
Proof.
  revert a; induction zs as [|z zs IH]; intros a; cbn [fmap list_fmap fold_right].
  - cbn. do 2 f_equal. lia.
  - cbn [Prim.fold_vals Prim.mul]. rewrite IH. do 2 f_equal. lia.
Qed.

Lemma fold_vals_sub_ints (zs : list Z) (a : Z) :
  Prim.fold_vals Prim.sub (Int a) (Int <$> zs) =
  Return (Int (a - fold_right Z.add 0 zs)%Z).
Proof.
  revert a; induction zs as [|z zs IH]; intros a; cbn [fmap list_fmap fold_right].
  - cbn. do 2 f_equal. lia.
  - cbn [Prim.fold_vals Prim.sub]. rewrite IH. do 2 f_equal. lia.
Qed.

(** X8: on ints, [scheme_add] is the sum and [scheme_mul] the product of
    all the operands, 0 and 1 when there is none; [scheme_sub] of one int
    is its negation and of more the first minus the sum of the others; the
    results are ints.  [scheme_sub] of no operand is Python's
    [TypeError]. *)
Theorem int_arithmetic_is_exact (z : Z) (zs : list Z) :
  Prim.scheme_add (Int <$> zs) = Return (Int (fold_right Z.add 0%Z zs)) /\
  Prim.scheme_mul (Int <$> zs) = Return (Int (fold_right Z.mul 1%Z zs)) /\
  Prim.scheme_sub [Int z] = Return (Int (- z)) /\
  (zs <> [] ->
   Prim.scheme_sub (Int z :: (Int <$> zs)) =
   Return (Int (z - fold_right Z.add 0 zs)%Z)) /\
  Prim.scheme_sub [] = Raise TypeError.
Proof.
  repeat apply conj; try reflexivity.
  - unfold Prim.scheme_add, Prim._arith.
    now rewrite check_nums_ints, fold_vals_add_ints.
  - unfold Prim.scheme_mul, Prim._arith.
    rewrite check_nums_ints, fold_vals_mul_ints. cbn [Prim.normalize].
    do 2 f_equal. lia.
  - intros Hne. unfold Prim.scheme_sub.
    change (Int z :: (Int <$> zs)) with (Int <$> (z :: zs)) at 1.
    rewrite (check_nums_ints (z :: zs)). cbn [fmap list_fmap].
    destruct zs as [|z' zs]; [contradiction|]. cbn [fmap list_fmap].
    unfold Prim._arith.
    rewrite (check_nums_ints (z' :: zs) : Prim._check_nums (Int z' :: (Int <$> zs)) = _).
    now rewrite (fold_vals_sub_ints (z' :: zs) z
                   : Prim.fold_vals Prim.sub (Int z) (Int z' :: (Int <$> zs)) = _).
Qed.

Lemma int_arithmetic_is_exact_witness :
  Prim.scheme_sub [Int 10; Int 1; Int 2] = Return (Int 7).
Proof.
  apply (proj1 (proj2 (proj2 (proj2 (int_arithmetic_is_exact 10 [1; 2]%Z))))).
  discriminate.
Defined.

Lemma except_zero_division_never (r : result value) :
  Prim.except_zero_division r <> Raise ZeroDivisionError.
Proof. destruct r as [v|[]]; discriminate. Qed.

Lemma check_nums_raises (vals : list value) (e : exn) :
  Prim._check_nums vals = Raise e -> e = SchemeError.
Proof.
  unfold Prim._check_nums. destruct (forallb _ _); [discriminate|]. congruence.
Qed.

(** X9: a zero divisor is a [SchemeError] for [/], [quotient], [modulo] and
    [remainder], which never let Python's [ZeroDivisionError] out.
    [scheme_expt] has no such handler: 0 to a negative power raises
    [ZeroDivisionError], and evaluating [(expt 0 -1)] in the global frame
    raises it out of both evaluators, past [apply_primitive], which only
    handles [TypeError]. *)
Theorem zero_division_is_caught_except_in_expt (args : list value) (fuel : nat)
    (a : Z) (d b : nat) :
  Prim.scheme_div args <> Raise ZeroDivisionError /\
  Prim.scheme_quo args <> Raise ZeroDivisionError /\
  Prim.scheme_modulo args <> Raise ZeroDivisionError /\
  Prim.scheme_remainder fuel args <> Some (Raise ZeroDivisionError) /\
  Prim.scheme_div [Int a; Int 0] = Raise SchemeError /\
  Prim.scheme_div [Int 0] = Raise SchemeError /\
  Prim.scheme_quo [Int a; Int 0] = Raise SchemeError /\
  Prim.scheme_modulo [Int a; Int 0] = Raise SchemeError /\
  Prim.scheme_remainder fuel [Int a; Int 0] = Some (Raise SchemeError) /\
  Prim.scheme_expt [Int 0; Int (-1)] = Some (Raise ZeroDivisionError) /\
  scheme_eval (S (S d)) expt_zero 0 create_global_frame =
    Done create_global_frame (Raise ZeroDivisionError) /\
  scheme_optimized_eval (S b) (S (S d)) expt_zero 0 create_global_frame =
    Done create_global_frame (Raise ZeroDivisionError).
Proof.
  repeat apply conj; try reflexivity.
  - unfold Prim.scheme_div. destruct args as [|val0 vals]; [discriminate|].
    destruct (Prim._check_nums (val0 :: vals)) eqn:E.
    + apply except_zero_division_never.
    + apply check_nums_raises in E as ->. discriminate.
  - unfold Prim.scheme_quo.
    destruct args as [|val0 [|val1 [|]]]; try discriminate.
    destruct (Prim._check_nums [val0; val1]) eqn:E.
    + apply except_zero_division_never.
    + apply check_nums_raises in E as ->. discriminate.
  - unfold Prim.scheme_modulo.
    destruct args as [|val0 [|val1 [|]]]; try discriminate.
    destruct (Prim._check_nums [val0; val1]) eqn:E.
    + apply except_zero_division_never.
    + apply check_nums_raises in E as ->. discriminate.
  - unfold Prim.scheme_remainder.
    destruct args as [|val0 [|val1 [|]]]; try discriminate.
    destruct (Prim._check_nums [val0; val1]) eqn:E.
    + destruct (Prim.except_zero_division (Prim.mod_ val0 val1)) as [r|e] eqn:E'.
      * destruct (Prim.remainder_loop fuel val0 val1 r); discriminate.
      * intros [= ->]. now apply except_zero_division_never in E'.
    + apply check_nums_raises in E as ->. discriminate.
Qed.

(** ** Frames: defining and looking up *)

Lemma lookup_in_store (fuel : nat) (st st0 : store) (env : nat) (s : string)
    (r : result value) :
  lookup_in fuel st env s = Done st0 r -> st0 = st.
Proof.
  revert env; induction fuel as [|fuel IH]; intros env; cbn [lookup_in];
    [discriminate|].
  destruct (st !! env) as [fr|]; [|discriminate].
  destruct (bindings fr !! s); [congruence|].
  destruct (parent fr); [apply IH|congruence].
Qed.

Lemma lookup_in_app (fuel : nat) (st l : store) (env : nat) (s : string)
    (r : result value) :
  lookup_in fuel st env s = Done st r ->
  lookup_in fuel (st ++ l) env s = Done (st ++ l) r.
Proof.
  revert env; induction fuel as [|fuel IH]; intros env; cbn [lookup_in];
    [discriminate|].
  destruct (st !! env) as [fr|] eqn:E; [|discriminate].
  rewrite (lookup_app_l_Some _ _ _ _ E).
  destruct (bindings fr !! s); [congruence|].
  destruct (parent fr); [apply IH|congruence].
Qed.

Lemma lookup_app (st l : store) (env : nat) (s : string) (r : result value) :
  lookup env s st = Done st r -> lookup env s (st ++ l) = Done (st ++ l) r.
Proof.
  intros H. apply (lookup_from (length st)).
  - rewrite length_app. lia.
  - now apply lookup_in_app.
Qed.

Lemma lookup_in_define_ne (fuel : nat) (st : store) (env : nat) (s : string)
    (v : value) (fr : Frame) (env' : nat) (s' : string) (r : result value) :
  st !! env = Some fr -> s' <> s ->
  lookup_in fuel st env' s' = Done st r ->
  lookup_in fuel (<[env := mkFrame (<[s := v]> (bindings fr)) (parent fr)]> st)
    env' s' =
  Done (<[env := mkFrame (<[s := v]> (bindings fr)) (parent fr)]> st) r.
Proof.
  intros Hfr Hne. revert env'; induction fuel as [|fuel IH]; intros env';
    cbn [lookup_in]; [discriminate|].
  destruct (decide (env' = env)) as [->|Hn].
  - rewrite Hfr, list_lookup_insert_eq by (now apply lookup_lt_Some in Hfr).
    cbn [bindings parent]. rewrite lookup_insert_ne by congruence.
    destruct (bindings fr !! s'); [congruence|].
    destruct (parent fr); [apply IH|congruence].
  - rewrite list_lookup_insert_ne by congruence.
    destruct (st !! env') as [fr'|]; [|discriminate].
    destruct (bindings fr' !! s'); [congruence|].
    destruct (parent fr'); [apply IH|congruence].
Qed.

(** X10: [Frame.define] followed by [Frame.lookup] of the same symbol in
    the same frame returns the value just defined, whatever the symbol was
    bound to before in that frame or its parents; and the definition
    changes no lookup of another symbol, from any frame. *)
Theorem define_then_lookup (env : nat) (s : string) (v : value) (st : store)
    (fr : Frame) :
  st !! env = Some fr ->
  exists st',
    define env s v st = Done st' (Return tt) /\
    length st' = length st /\
    lookup env s st' = Done st' (Return v) /\
    (forall env' s' r, s' <> s ->
       lookup env' s' st = Done st r -> lookup env' s' st' = Done st' r).
Proof.
  intros Hfr.
  exists (<[env := mkFrame (<[s := v]> (bindings fr)) (parent fr)]> st).
  repeat apply conj.
  - unfold define. now rewrite Hfr.
  - apply length_insert.
  - eapply lookup_here.
    + apply list_lookup_insert_eq. now apply lookup_lt_Some in Hfr.
    + apply lookup_insert_eq.
  - intros env' s' r Hne H. unfold lookup in *. rewrite length_insert.
    now apply lookup_in_define_ne.
Qed.

Lemma define_then_lookup_witness :
  exists st',
    define 0 "x" (Int 2) [mkFrame (<["x" := Int 1]> ∅) None] =
      Done st' (Return tt) /\
    length st' = 1 /\
    lookup 0 "x" st' = Done st' (Return (Int 2)) /\
    (forall env' s' r, s' <> "x" ->
       lookup env' s' [mkFrame (<["x" := Int 1]> ∅) None] =
         Done [mkFrame (<["x" := Int 1]> ∅) None] r ->
       lookup env' s' st' = Done st' r).
Proof.
  apply (define_then_lookup 0 "x" (Int 2) [mkFrame (<["x" := Int 1]> ∅) None]
           (mkFrame (<["x" := Int 1]> ∅) None)).
  reflexivity.
Defined.

Lemma bound_positionally_notin (ss : list string) (vs : list value) (s : string) :
  s ∉ ss -> bound_positionally ss vs !! s = None.
Proof.
  intros Hn. unfold bound_positionally. rewrite bind_into_notin; [reflexivity|].
  intros Hin. apply Hn.
  apply list_elem_of_fmap in Hin as ([s1 v1] & -> & Hz).
  apply list_elem_of_lookup in Hz as [i Hz].
  apply lookup_zip_with_Some in Hz as (x & y & E & Hx & Hy).
  injection E as <- <-. cbn. eapply list_elem_of_lookup_2. exact Hx.
Qed.

(** X11: lookup is lexical.  In the frame that [make_child_frame] makes for
    as many values as symbols, a formal is bound to its value, whatever the
    parent binds it to; any other symbol resolves as it does in the parent,
    to a value or to the [SchemeError] of an unknown identifier; and the
    frames that were there before resolve every symbol as before. *)
Theorem child_frame_lookup_is_lexical (self : nat) (ss : list string)
    (vs : list value) (st : store) :
  length ss = length vs ->
  exists st',
    make_child_frame self (slist (Str <$> ss)) (slist vs) st =
      Done st' (Return (length st)) /\
    (forall s v, bound_positionally ss vs !! s = Some v ->
       lookup (length st) s st' = Done st' (Return v)) /\
    (forall s r, s ∉ ss -> lookup self s st = Done st r ->
       lookup (length st) s st' = Done st' r) /\
    (forall env s r, lookup env s st = Done st r ->
       lookup env s st' = Done st' r).
Proof.
  intros Hlen.
  exists (st ++ [mkFrame (bound_positionally ss vs) (Some self)]).
  assert (Hnew : (st ++ [mkFrame (bound_positionally ss vs) (Some self)])
                   !! length st
                 = Some (mkFrame (bound_positionally ss vs) (Some self))).
  { rewrite lookup_app_r by lia. now rewrite Nat.sub_diag. }
  repeat apply conj.
  - rewrite make_child_frame_slist. apply Nat.eqb_eq in Hlen as ->. reflexivity.
  - intros s v Hv. eapply lookup_here; [exact Hnew|exact Hv].
  - intros s r Hs H. unfold lookup. rewrite length_app. cbn [length].
    replace (length st + 1) with (S (length st)) by lia.
    cbn [lookup_in]. rewrite Hnew. cbn [bindings parent].
    rewrite bound_positionally_notin by assumption.
    now apply lookup_in_app.
  - intros env s r H. now apply lookup_app.
Qed.

Lemma child_frame_lookup_is_lexical_witness :
  exists st',
    make_child_frame 0 (slist (Str <$> ["x"])) (slist [Int 5])
      [mkFrame (<["x" := Int 1]> ∅) None] = Done st' (Return 1) /\
    (forall s v, bound_positionally ["x"] [Int 5] !! s = Some v ->
       lookup 1 s st' = Done st' (Return v)) /\
    (forall s r, s ∉ ["x"] ->
       lookup 0 s [mkFrame (<["x" := Int 1]> ∅) None] =
         Done [mkFrame (<["x" := Int 1]> ∅) None] r ->
       lookup 1 s st' = Done st' r) /\
    (forall env s r,
       lookup env s [mkFrame (<["x" := Int 1]> ∅) None] =
         Done [mkFrame (<["x" := Int 1]> ∅) None] r ->
       lookup env s st' = Done st' r).
Proof.
  apply (child_frame_lookup_is_lexical 0 ["x"] [Int 5]
           [mkFrame (<["x" := Int 1]> ∅) None]).
  reflexivity.
Defined.

(** ** More about the special forms *)

(** X12: [(quote e)] evaluates to [e] itself, whatever [e] is, without
    evaluating it and without touching the frames, in both evaluators; a
    [quote] form with another number of operands raises a [SchemeError]. *)
Theorem quote_returns_operand_unevaluated (e : value) (es : list value)
    (env : nat) (st : store) (d b : nat) :
  scheme_eval (S d) (slist [Str "quote"; e]) env st = Done st (Return e) /\
  scheme_optimized_eval (S b) (S d) (slist [Str "quote"; e]) env st =
    Done st (Return e) /\
  (length es <> 1 ->
   do_quote_form (slist es) env st = Done st (Raise SchemeError)).
Proof.
  repeat apply conj; try reflexivity.
  - rewrite scheme_optimized_eval_unfold.
    change (loop_of (S b) d (S b) (Evaluate (slist [Str "quote"; e]) env) st =
            Done st (Return e)).
    rewrite loop_of_unfold.
    rewrite bind_done with (st' := st) (a := Value e) by reflexivity.
    apply loop_of_value.
  - intros Hn. unfold do_quote_form, bind. rewrite check_form_slist.
    destruct es as [|e0 [|e1 es]]; try reflexivity. contradiction.
Qed.

Lemma quote_returns_operand_unevaluated_witness :
  do_quote_form (slist [Int 1; Int 2]) 0 [] = Done [] (Raise SchemeError).
Proof.
  apply (proj2 (proj2 (quote_returns_operand_unevaluated Nil [Int 1; Int 2]
                         0 [] 0 0))).
  cbn. lia.
Defined.

(** X13: an [if] form evaluates its test, then only one branch, as a tail
    call: the consequent when the test is anything but [False], the
    alternative otherwise, and [okay] when there is no alternative.  With
    fewer than two or more than three operands it raises a [SchemeError]
    and evaluates nothing. *)
Theorem if_evaluates_one_branch (R : Type) (inj : value -> R)
    (scheme_eval : value -> nat -> M value)
    (scheme_eval_tail : value -> nat -> M R)
    (c e1 e2 : value) (es : list value) (env : nat) (st : store) :
  do_if_form inj scheme_eval scheme_eval_tail (slist [c; e1; e2]) env st =
    (do test <- scheme_eval c env;
     if scheme_true test then scheme_eval_tail e1 env
     else scheme_eval_tail e2 env) st /\
  do_if_form inj scheme_eval scheme_eval_tail (slist [c; e1]) env st =
    (do test <- scheme_eval c env;
     if scheme_true test then scheme_eval_tail e1 env
     else ret (inj Okay)) st /\
  (length es < 2 \/ 3 < length es ->
   do_if_form inj scheme_eval scheme_eval_tail (slist es) env st =
   Done st (Raise SchemeError)) /\
  (forall test, scheme_true test = false <-> test = Bool false).
Proof.
  repeat apply conj.
  - apply do_if_form_three.
  - unfold do_if_form.
    rewrite bind_done with (st' := st) (a := tt)
      by (rewrite (check_form_slist [c; e1]); reflexivity).
    rewrite (py_getitem_slist [c; e1]). cbn [base.lookup list_lookup].
    rewrite bind_lift_return.
    apply bind_cong. intros test st1.
    destruct (scheme_true test); reflexivity.
  - intros Hn. unfold do_if_form.
    apply bind_done_raise. rewrite check_form_slist.
    destruct es as [|a [|a' [|a'' [|a''' es]]]]; cbn in Hn |- *;
      try reflexivity; lia.
  - intros test. split.
    + destruct test as [| |[]| | | | | | |]; cbn; congruence.
    + now intros ->.
Qed.

Lemma if_evaluates_one_branch_witness :
  do_if_form id (fun e _ => ret e) (fun e _ => ret e) (slist [Bool false]) 0 [] =
  Done [] (Raise SchemeError).
Proof.
  apply (proj1 (proj2 (proj2 (if_evaluates_one_branch value id
           (fun e _ => ret e) (fun e _ => ret e) Nil Nil Nil [Bool false] 0 [])))).
  left. cbn. lia.
Defined.

(** X14: an [and] form with no operand is [True]; otherwise the operands
    are evaluated from left to right, the last one as a tail call; the
    first one that evaluates to [False] ends the form with [False], and no
    operand after it is evaluated. *)
Theorem and_stops_at_first_false (R : Type) (inj : value -> R)
    (scheme_eval : value -> nat -> M value)
    (scheme_eval_tail : value -> nat -> M R)
    (e0 e : value) (es : list value) (env : nat) (st st' : store) :
  do_and_form inj scheme_eval scheme_eval_tail Nil env st =
    Done st (Return (inj (Bool true))) /\
  do_and_form inj scheme_eval scheme_eval_tail (slist (es ++ [e])) env st =
    and_in_order inj scheme_eval es env (scheme_eval_tail e env) st /\
  (scheme_eval e0 env st = Done st' (Return (Bool false)) ->
   do_and_form inj scheme_eval scheme_eval_tail (slist (e0 :: es ++ [e])) env st =
   Done st' (Return (inj (Bool false)))).
Proof.
  repeat apply conj.
  - reflexivity.
  - apply do_and_form_snoc.
  - intros H. change (e0 :: es ++ [e]) with ((e0 :: es) ++ [e]).
    rewrite do_and_form_snoc.
    cbn [and_in_order]. unfold bind. now rewrite H.
Qed.

Lemma and_stops_at_first_false_witness :
  do_and_form id (fun e _ => ret e) (fun e _ => ret e)
    (slist [Bool false; Int 1; Int 2]) 0 [] = Done [] (Return (Bool false)).
Proof.
  apply (proj2 (proj2 (and_stops_at_first_false value id
           (fun e _ => ret e) (fun e _ => ret e) (Bool false) (Int 2) [Int 1]
           0 [] []))).
  reflexivity.
Defined.

(** X15: an [or] form with no operand is [False]; otherwise the operands
    are evaluated from left to right, the last one as a tail call; the
    first one whose value is not [False] ends the form with that value, and
    no operand after it is evaluated. *)
Theorem or_stops_at_first_true (R : Type) (inj : value -> R)
    (scheme_eval : value -> nat -> M value)
    (scheme_eval_tail : value -> nat -> M R)
    (e0 e v : value) (es : list value) (env : nat) (st st' : store) :
  do_or_form inj scheme_eval scheme_eval_tail Nil env st =
    Done st (Return (inj (Bool false))) /\
  do_or_form inj scheme_eval scheme_eval_tail (slist (es ++ [e])) env st =
    or_in_order inj scheme_eval es env (scheme_eval_tail e env) st /\
  (scheme_eval e0 env st = Done st' (Return v) -> scheme_true v = true ->
   do_or_form inj scheme_eval scheme_eval_tail (slist (e0 :: es ++ [e])) env st =
   Done st' (Return (inj v))).
Proof.
  repeat apply conj.
  - reflexivity.
  - apply do_or_form_snoc.
  - intros H Hv. change (e0 :: es ++ [e]) with ((e0 :: es) ++ [e]).
    rewrite do_or_form_snoc.
    cbn [or_in_order]. unfold bind. now rewrite H, Hv.
Qed.

Lemma or_stops_at_first_true_witness :
  do_or_form id (fun e _ => ret e) (fun e _ => ret e)
    (slist [Int 0; Int 1; Int 2]) 0 [] = Done [] (Return (Int 0)).
Proof.
  apply (proj2 (proj2 (or_stops_at_first_true value id
           (fun e _ => ret e) (fun e _ => ret e) (Int 0) (Int 2) (Int 0) [Int 1]
           0 [] []))); reflexivity.
Defined.

(** X16: a [begin] form needs at least one operand, or it raises a
    [SchemeError]; it evaluates its operands in order, the last one as a
    tail call, whose value is the value of the form. *)
Theorem begin_evaluates_in_order (R : Type) (inj : value -> R)
    (scheme_eval : value -> nat -> M value)
    (scheme_eval_tail : value -> nat -> M R)
    (e : value) (es : list value) (env : nat) (st : store) :
  do_begin_form inj scheme_eval scheme_eval_tail Nil env st =
    Done st (Raise SchemeError) /\
  do_begin_form inj scheme_eval scheme_eval_tail (slist (es ++ [e])) env st =
    (do _u <- eval_in_order scheme_eval es env; scheme_eval_tail e env) st.
Proof.
  split; [reflexivity|]. apply do_begin_form_snoc.
Qed.

(** ** [define] with a procedure target *)

Lemma do_define_form_shorthand (scheme_eval : value -> nat -> M value)
    (f : string) (formals : value) (body : list value) (env : nat)
    (st : store) :
  do_define_form scheme_eval (slist (Pair (Str f) formals :: body)) env st =
  if scheme_symbolp (Str f) then
    (do proc <- do_lambda_form (Pair formals (slist body)) env;
     do _d <- define env f proc;
     ret (Str f)) st
  else Done st (Raise SchemeError).
Proof.
  unfold do_define_form.
  destruct body as [|b0 body].
  - rewrite bind_done_raise with (st' := st) (e := SchemeError)
      by (now rewrite check_form_slist).
    destruct (scheme_symbolp (Str f)); [|reflexivity].
    symmetry. apply bind_done_raise. unfold do_lambda_form.
    apply bind_done_raise. apply (check_form_slist [formals]).
  - rewrite bind_done with (st' := st) (a := tt)
      by (now rewrite check_form_slist).
    rewrite py_getitem_slist. cbn [base.lookup list_lookup].
    rewrite bind_lift_return.
    cbn [scheme_symbolp]. destruct (negb (startswith_quote f)); reflexivity.
Qed.

Lemma do_define_form_symbol (scheme_eval : value -> nat -> M value)
    (f : string) (e : value) (env : nat) (st : store) :
  do_define_form scheme_eval (slist [Str f; e]) env st =
  if scheme_symbolp (Str f) then
    (do v <- scheme_eval e env;
     do _d <- define env f v;
     ret (Str f)) st
  else Done st (Raise SchemeError).
Proof.
  unfold do_define_form.
  rewrite bind_done with (st' := st) (a := tt)
    by (now rewrite (check_form_slist [Str f; e])).
  rewrite (py_getitem_slist [Str f; e]). cbn [base.lookup list_lookup].
  rewrite bind_lift_return.
  destruct (scheme_symbolp (Str f)); [|reflexivity].
  rewrite bind_done with (st' := st) (a := tt)
    by (now rewrite (check_form_slist [Str f; e])).
  rewrite (py_getitem_slist [Str f; e]). cbn [base.lookup list_lookup].
  rewrite bind_lift_return. reflexivity.
Qed.

Lemma mmap_id {A} (m : M A) (st : store) : mmap id m st = m st.
Proof. unfold mmap, bind. now destruct (m st) as [st' [a|e]| |]. Qed.

Lemma mmap_value_loop (m : M value) (b d s : nat) (st : store) :
  bind (mmap Value m) (loop_of b d s) st = m st.
Proof.
  unfold mmap, bind. destruct (m st) as [st' [a|e]| |]; try reflexivity.
  cbn. apply loop_of_value.
Qed.

Lemma scheme_eval_lambda (d : nat) (rest : list value) (formals : value)
    (env : nat) (st : store) :
  scheme_eval (S d) (Pair (Str "lambda") (Pair formals (slist rest))) env st =
  do_lambda_form (Pair formals (slist rest)) env st.
Proof.
  change (scheme_eval (S d) (Pair (Str "lambda") (Pair formals (slist rest))) env st)
    with (eval_combination id (scheme_eval d) (scheme_eval d)
            (scheme_apply_direct d) (S d)
            (slist (Str "lambda" :: formals :: rest)) env st).
  unfold eval_combination. rewrite scheme_listp_slist.
  apply (mmap_id (do_lambda_form (Pair formals (slist rest)) env)).
Qed.

Lemma scheme_optimized_eval_lambda (b d : nat) (rest : list value)
    (formals : value) (env : nat) (st : store) :
  scheme_optimized_eval (S b) (S d)
    (Pair (Str "lambda") (Pair formals (slist rest))) env st =
  do_lambda_form (Pair formals (slist rest)) env st.
Proof.
  rewrite scheme_optimized_eval_unfold.
  change (loop_of (S b) d (S b)
            (Evaluate (slist (Str "lambda" :: formals :: rest)) env) st =
          do_lambda_form (Pair formals (slist rest)) env st).
  rewrite loop_of_unfold.
  unfold eval_combination. rewrite scheme_listp_slist.
  apply (mmap_value_loop (do_lambda_form (Pair formals (slist rest)) env)).
Qed.

Lemma scheme_eval_define (d : nat) (rest : list value) (env : nat)
    (st : store) :
  scheme_eval (S d) (slist (Str "define" :: rest)) env st =
  do_define_form (scheme_eval d) (slist rest) env st.
Proof.
  change (scheme_eval (S d) (slist (Str "define" :: rest)) env st)
    with (eval_combination id (scheme_eval d) (scheme_eval d)
            (scheme_apply_direct d) (S d)
            (slist (Str "define" :: rest)) env st).
  unfold eval_combination. rewrite scheme_listp_slist.
  apply (mmap_id (do_define_form (scheme_eval d) (slist rest) env)).
Qed.

Lemma scheme_optimized_eval_define (b d : nat) (rest : list value) (env : nat)
    (st : store) :
  scheme_optimized_eval (S b) (S d) (slist (Str "define" :: rest)) env st =
  do_define_form (scheme_optimized_eval (S b) d) (slist rest) env st.
Proof.
  rewrite scheme_optimized_eval_unfold.
  change (loop_of (S b) d (S b)
            (Evaluate (slist (Str "define" :: rest)) env) st =
          do_define_form (scheme_optimized_eval (S b) d) (slist rest) env st).
  rewrite loop_of_unfold.
  unfold eval_combination. rewrite scheme_listp_slist.
  apply (mmap_value_loop
           (do_define_form (scheme_optimized_eval (S b) d) (slist rest) env)).
Qed.

(** X17: [(define (f . formals) body ...)] does what
    [(define f (lambda formals body ...))] does, in both evaluators: the
    same checks of the formals and the body, the same [LambdaProcedure]
    closed over the current frame and bound to [f] in it, the same
    [SchemeError] otherwise, for any formals, any body and any name. *)
Theorem define_shorthand_is_define_lambda (f : string) (formals : value)
    (body : list value) (env : nat) (st : store) (d b : nat) :
  scheme_eval (S (S d))
    (slist (Str "define" :: Pair (Str f) formals :: body)) env st =
  scheme_eval (S (S d))
    (slist [Str "define"; Str f;
            Pair (Str "lambda") (Pair formals (slist body))]) env st /\
  scheme_optimized_eval (S b) (S (S d))
    (slist (Str "define" :: Pair (Str f) formals :: body)) env st =
  scheme_optimized_eval (S b) (S (S d))
    (slist [Str "define"; Str f;
            Pair (Str "lambda") (Pair formals (slist body))]) env st /\
  scheme_eval (S (S d))
    (slist (Str "define" :: Pair (Str f) formals :: body)) env st =
  (if scheme_symbolp (Str f) then
     (do proc <- do_lambda_form (Pair formals (slist body)) env;
      do _d <- define env f proc;
      ret (Str f)) st
   else Done st (Raise SchemeError)).
Proof.
  repeat apply conj.
  - rewrite (scheme_eval_define (S d) (Pair (Str f) formals :: body)).
    rewrite (scheme_eval_define (S d) [Str f; _]).
    rewrite do_define_form_shorthand, do_define_form_symbol.
    destruct (scheme_symbolp (Str f)); [|reflexivity].
    symmetry. apply bind_cong_l. apply scheme_eval_lambda.
  - rewrite (scheme_optimized_eval_define b (S d) (Pair (Str f) formals :: body)).
    rewrite (scheme_optimized_eval_define b (S d) [Str f; _]).
    rewrite do_define_form_shorthand, do_define_form_symbol.
    destruct (scheme_symbolp (Str f)); [|reflexivity].
    symmetry. apply bind_cong_l. apply scheme_optimized_eval_lambda.
  - rewrite (scheme_eval_define (S d) (Pair (Str f) formals :: body)).
    apply do_define_form_shorthand.
Qed.

(** X18: a [define] form whose target is neither a symbol nor a pair that
    starts with a symbol raises a [SchemeError], whatever follows the
    target; nothing is evaluated and no frame changes.  Such targets are a
    number, a string literal, and a pair that starts with one of these or
    with another pair. *)
Theorem define_rejects_bad_target (scheme_eval : value -> nat -> M value)
    (target : value) (rest : list value) (env : nat) (st : store) :
  scheme_symbolp target = false ->
  (forall first second, target = Pair first second ->
     scheme_symbolp first = false) ->
  do_define_form scheme_eval (slist (target :: rest)) env st =
  Done st (Raise SchemeError).
Proof.
  intros Hs Hp. unfold do_define_form.
  destruct rest as [|e rest].
  - apply bind_done_raise. now rewrite check_form_slist.
  - rewrite bind_done with (st' := st) (a := tt)
      by (now rewrite check_form_slist).
    rewrite py_getitem_slist. cbn [base.lookup list_lookup].
    rewrite bind_lift_return, Hs.
    destruct target; try reflexivity.
    now rewrite (Hp _ _ eq_refl).
Qed.

Lemma define_rejects_bad_target_witness :
  do_define_form (fun e _ => ret e)
    (slist [Pair (Int 5) (Pair (Str "x") Nil); Int 1]) 0 [mkFrame ∅ None] =
  Done [mkFrame ∅ None] (Raise SchemeError).
Proof.
  apply (define_rejects_bad_target (fun e _ => ret e)
           (Pair (Int 5) (Pair (Str "x") Nil)) [Int 1] 0 [mkFrame ∅ None]).
  - reflexivity.
  - intros first second [= <- <-]. reflexivity.
Defined.

(** ** Procedures and their call frames *)

Lemma do_mu_form_slist (fl bl : list value) (env : nat) (st : store) :
  do_mu_form (Pair (slist fl) (slist bl)) env st =
  match bl with
  | [] => Done st (Raise SchemeError)
  | _ =>
      match check_items fl with
      | Return _ => Done st (Return (MuProcedure (slist fl) (slist bl)))
      | Raise e => Done st (Raise e)
      end
  end.
Proof.
  unfold do_mu_form, bind.
  change (Pair (slist fl) (slist bl)) with (slist (slist fl :: bl)).
  rewrite check_form_slist. destruct bl as [|b bl]; [reflexivity|].
  cbn [length Nat.ltb Nat.leb lift].
  rewrite (py_getitem_slist (slist fl :: b :: bl)).
  cbn [base.lookup list_lookup slist fold_right attr_second].
  fold (slist fl). rewrite check_formals_slist.
  destruct (check_items fl); reflexivity.
Qed.

Lemma check_items_symbols (ss : list string) :
  Forall (fun s => scheme_symbolp (Str s) = true) ss -> NoDup ss ->
  check_items (Str <$> ss) = Return tt.
Proof.
  intros Hs Hn. apply (proj1 (check_items_spec _)). split.
  - apply Forall_fmap. exact Hs.
  - apply NoDup_fmap_2; [|exact Hn]. intros x y [= ->]. reflexivity.
Qed.

(** X19: a [lambda] form gives a procedure that keeps the frame it was
    made in, a [mu] form one that keeps none; both need formals that are
    distinct symbols and a body of at least one expression.  When such a
    procedure is called with as many values as it has formals,
    [make_call_frame] binds the formals in a new frame whose parent is the
    frame the [lambda] was made in, or, for a [mu], the frame of the
    call. *)
Theorem lambda_is_lexical_mu_is_dynamic (ss : list string) (body : list value)
    (vs : list value) (penv env : nat) (st : store) :
  Forall (fun s => scheme_symbolp (Str s) = true) ss -> NoDup ss ->
  body <> [] -> length ss = length vs ->
  do_lambda_form (Pair (slist (Str <$> ss)) (slist body)) penv st =
    Done st (Return (LambdaProcedure (slist (Str <$> ss)) (slist body) penv)) /\
  do_mu_form (Pair (slist (Str <$> ss)) (slist body)) penv st =
    Done st (Return (MuProcedure (slist (Str <$> ss)) (slist body))) /\
  make_call_frame (LambdaProcedure (slist (Str <$> ss)) (slist body) penv)
    (slist vs) env st =
    Done (st ++ [mkFrame (bound_positionally ss vs) (Some penv)])
         (Return (length st)) /\
  make_call_frame (MuProcedure (slist (Str <$> ss)) (slist body))
    (slist vs) env st =
    Done (st ++ [mkFrame (bound_positionally ss vs) (Some env)])
         (Return (length st)).
Proof.
  intros Hs Hn Hb Hl. repeat apply conj.
  - rewrite do_lambda_form_slist, (check_items_symbols ss Hs Hn).
    destruct body; [contradiction|reflexivity].
  - rewrite do_mu_form_slist, (check_items_symbols ss Hs Hn).
    destruct body; [contradiction|reflexivity].
  - cbn [make_call_frame]. rewrite make_child_frame_slist.
    apply Nat.eqb_eq in Hl as ->. reflexivity.
  - cbn [make_call_frame]. rewrite make_child_frame_slist.
    apply Nat.eqb_eq in Hl as ->. reflexivity.
Qed.

Lemma lambda_is_lexical_mu_is_dynamic_witness :
  make_call_frame (MuProcedure (slist (Str <$> ["x"])) (slist [Str "x"]))
    (slist [Int 1]) 0 [mkFrame ∅ None] =
  Done ([mkFrame ∅ None] ++ [mkFrame (bound_positionally ["x"] [Int 1]) (Some 0)])
       (Return 1).
Proof.
  apply (lambda_is_lexical_mu_is_dynamic ["x"] [Str "x"] [Int 1] 7 0
           [mkFrame ∅ None]).
  - repeat constructor.
  - apply NoDup_cons. split; [apply not_elem_of_nil|apply NoDup_nil_2].
  - discriminate.
  - reflexivity.
Defined.

(** ** [let] *)

(** X20: a [let] form whose bindings are pairs of a symbol and an
    expression makes one new frame under the current one.  The expressions
    are evaluated from left to right in the current frame, not in the new
    one, so no binding sees another; each symbol is defined in the new
    frame as its value is computed, a symbol that occurs twice keeping the
    later value without any error; the body then runs in the new frame, its
    last expression as a tail call. *)
Theorem let_evaluates_bindings_in_outer_frame (R : Type) (inj : value -> R)
    (scheme_eval : value -> nat -> M value)
    (scheme_eval_tail : value -> nat -> M R)
    (bs : list (string * value)) (es : list value) (e : value) (env : nat)
    (st : store) :
  Forall (fun b => scheme_symbolp (Str b.1) = true) bs ->
  do_let_form inj scheme_eval scheme_eval_tail
    (slist (slist (map (fun b => slist [Str b.1; b.2]) bs) :: es ++ [e])) env st =
  (do _u <- bind_each scheme_eval (length st) env bs;
   do _v <- eval_in_order scheme_eval es (length st);
   scheme_eval_tail e (length st))
    (st ++ [mkFrame ∅ (Some env)]).
Proof. apply do_let_form_body. Qed.

Lemma let_evaluates_bindings_in_outer_frame_witness :
  do_let_form id (fun e _ => ret e) (fun e env => lookup_symbol env e)
    (slist [slist [slist [Str "x"; Int 1]; slist [Str "x"; Int 2]]; Str "x"])
    0 [mkFrame ∅ None] =
  Done [mkFrame ∅ None; mkFrame (<["x" := Int 2]> (<["x" := Int 1]> ∅)) (Some 0)]
       (Return (Int 2)).
Proof.
  rewrite (let_evaluates_bindings_in_outer_frame value id (fun e _ => ret e)
             (fun e env => lookup_symbol env e)
             [("x", Int 1); ("x", Int 2)] [] (Str "x") 0 [mkFrame ∅ None]).
  - reflexivity.
  - repeat constructor.
Defined.

(** ** The checks of forms and formals *)

(** X21: [check_form] accepts exactly the proper lists whose number of
    items is at least [min] and, when there is a [max], at most [max];
    everything else, a pair with an improper end included, is a
    [SchemeError].  It changes no frame. *)
Theorem check_form_accepts_lists_within_bounds (expr : value) (min : nat)
    (max : option nat) (st : store) :
  check_form expr min max st =
  Done st
    (if scheme_listp expr && Nat.leb min (length (items expr)) &&
        match max with
        | Some mx => Nat.leb (length (items expr)) mx
        | None => true
        end
     then Return tt else Raise SchemeError).
Proof.
  destruct (scheme_listp expr) eqn:Hl.
  - rewrite (slist_items expr Hl) at 1. rewrite check_form_slist.
    cbn [andb]. f_equal.
    destruct (Nat.ltb_spec (length (items expr)) min) as [H|H];
      destruct (Nat.leb_spec min (length (items expr))) as [H'|H']; try lia;
      cbn [andb]; [reflexivity|].
    destruct max as [mx|]; [|reflexivity].
    destruct (Nat.ltb_spec mx (length (items expr)));
      destruct (Nat.leb_spec (length (items expr)) mx); try lia; reflexivity.
  - now apply check_form_improper.
Qed.

(** X22: on a proper list, [check_formals] succeeds exactly when every item
    is a symbol and no symbol occurs twice; otherwise it raises a
    [SchemeError], so for a number, a string literal or a nested list among
    the formals. *)
Theorem check_formals_accepts_distinct_symbols (formals : value) :
  scheme_listp formals = true ->
  (check_formals formals = Return tt <-> distinct_symbols formals) /\
  (check_formals formals = Return tt \/
   check_formals formals = Raise SchemeError).
Proof.
  intros Hl. rewrite (slist_items formals Hl) at 1 3 4.
  rewrite check_formals_slist.
  destruct (check_items_spec (items formals)) as [Hiff Hor].
  split; [|exact Hor].
  rewrite Hiff. unfold distinct_symbols. tauto.
Qed.

Lemma check_formals_accepts_distinct_symbols_witness :
  check_formals (slist [Str "a"; Str "b"]) = Return tt /\
  check_formals (slist [Str "a"; Str "a"]) = Raise SchemeError.
Proof.
  split; [|reflexivity].
  apply (proj1 (check_formals_accepts_distinct_symbols
                  (slist [Str "a"; Str "b"]) eq_refl)).
  split; [reflexivity|]. split.
  - repeat constructor.
  - apply NoDup_cons. split.
    + intros H. apply list_elem_of_singleton in H. discriminate.
    + apply NoDup_cons. split; [apply not_elem_of_nil|apply NoDup_nil_2].
Defined.

(** ** Calls *)

(** X23: [apply_primitive] on a proper list of arguments never lets
    Python's [TypeError] out of the call of the primitive: a wrong number
    of arguments, or an operand of a class the primitive cannot handle,
    comes out as a [SchemeError].  This holds of what the call itself
    raises, not of an expression that the call hands back to be evaluated
    later. *)
Theorem primitive_type_error_is_scheme_error (R : Type) (inj : value -> R)
    (scheme_eval : value -> nat -> M value)
    (scheme_apply_rec : value -> value -> nat -> M R) (fuel : nat)
    (fn : primitive) (args : list value) (env : nat) (st st' : store)
    (e : exn) :
  apply_primitive inj scheme_eval scheme_apply_rec fuel fn (slist args) env st =
    Done st' (Raise e) ->
  e <> TypeError.
Proof.
  unfold apply_primitive. rewrite py_list_slist, bind_lift_return.
  unfold except_type_error.
  destruct (call_primitive inj scheme_eval scheme_apply_rec fuel fn args env st)
    as [st1 [v|[]]| |]; congruence.
Qed.

Lemma primitive_type_error_is_scheme_error_witness :
  apply_primitive id (fun e _ => ret e) (fun _ _ _ => raise SchemeError) 0
    (PrimNamed "cons") (slist [Int 1]) 0 [] = Done [] (Raise SchemeError) /\
  SchemeError <> TypeError.
Proof.
  split; [reflexivity|].
  apply (primitive_type_error_is_scheme_error value id (fun e _ => ret e)
           (fun _ _ _ => raise SchemeError) 0 (PrimNamed "cons") [Int 1] 0 [] []).
  reflexivity.
Defined.

Lemma not_special_form (R : Type) (inj : value -> R)
    (scheme_eval : value -> nat -> M value)
    (scheme_eval_tail : value -> nat -> M R) (first : value) :
  is_special_form first = false ->
  (if scheme_symbolp first
   then match first with
        | Str s => SPECIAL_FORMS inj scheme_eval scheme_eval_tail s
        | _ => None
        end
   else None) = None.
Proof.
  destruct first; try reflexivity. apply is_special_form_false.
Qed.

(** X24: a combination whose first item names no special form is a call:
    the first item is evaluated, then the other items from left to right,
    all of them before anything is applied; then the value of the first is
    applied to the list of the values of the others.  When that value is
    no procedure the call raises a [SchemeError], after the operands have
    been evaluated. *)
Theorem call_evaluates_operator_then_operands (R : Type) (inj : value -> R)
    (scheme_eval : value -> nat -> M value)
    (scheme_eval_tail : value -> nat -> M R)
    (scheme_apply_rec : value -> value -> nat -> M R) (fuel : nat)
    (first : value) (es : list value) (env : nat) (st : store) :
  is_special_form first = false ->
  eval_combination inj scheme_eval scheme_eval_tail scheme_apply_rec fuel
    (slist (first :: es)) env st =
    (do procedure <- scheme_eval first env;
     do args <- eval_operands scheme_eval es env;
     scheme_apply inj scheme_eval scheme_eval_tail scheme_apply_rec fuel
       procedure (slist args) env) st /\
  (forall procedure args st1,
     (forall fn, procedure <> PrimitiveProcedure fn) ->
     (forall formals body penv, procedure <> LambdaProcedure formals body penv) ->
     (forall formals body, procedure <> MuProcedure formals body) ->
     scheme_apply inj scheme_eval scheme_eval_tail scheme_apply_rec fuel
       procedure args env st1 = Done st1 (Raise SchemeError)).
Proof.
  intros Hs. split.
  - unfold eval_combination.
    rewrite scheme_listp_slist.
    cbn [negb slist fold_right attr_first attr_second].
    rewrite !bind_lift_return. fold (slist es).
    rewrite (not_special_form R inj scheme_eval scheme_eval_tail first Hs).
    apply bind_cong. intros p st1.
    rewrite bind_cong_l with (m2 := mmap slist (eval_operands scheme_eval es env))
      by apply pair_map_slist.
    unfold mmap. rewrite bind_assoc. apply bind_cong. intros vs st2. reflexivity.
  - intros p args st1 H1 H2 H3.
    destruct p; try reflexivity; exfalso;
      [eapply H1|eapply H2|eapply H3]; reflexivity.
Qed.

Lemma call_evaluates_operator_then_operands_witness :
  eval_combination id (fun e _ => ret e) (fun e _ => ret e)
    (fun _ _ _ => raise SchemeError) 0 (slist [Int 1; Int 2]) 0 [] =
  Done [] (Raise SchemeError).
Proof.
  rewrite (proj1 (call_evaluates_operator_then_operands value id
             (fun e _ => ret e) (fun e _ => ret e)
             (fun _ _ _ => raise SchemeError) 0 (Int 1) [Int 2] 0 [] eq_refl)).
  reflexivity.
Defined.

(** ** The global frame *)

Lemma fold_insert_notin (f : string -> value) (l : list (string * string))
    (b : gmap string value) (k : string) :
  k ∉ l.*1 ->
  fold_left (fun b np => <[np.1 := f np.2]> b) l b !! k = b !! k.
Proof.
  revert b; induction l as [|[k0 v0] l IH]; intros b Hn; [reflexivity|].
  rewrite fmap_cons, not_elem_of_cons in Hn. destruct Hn as [Hne Hn].
  cbn [fold_left]. rewrite IH by assumption. cbn.
  now apply lookup_insert_ne.
Qed.

Lemma fold_insert_in (f : string -> value) (l : list (string * string))
    (b : gmap string value) (k v : string) :
  NoDup l.*1 -> (k, v) ∈ l ->
  fold_left (fun b np => <[np.1 := f np.2]> b) l b !! k = Some (f v).
Proof.
  revert b; induction l as [|[k0 v0] l IH]; intros b Hn Hin.
  - now apply elem_of_nil in Hin.
  - rewrite fmap_cons in Hn. apply NoDup_cons in Hn as [Hk0 Hn].
    apply elem_of_cons in Hin as [[= -> ->]|Hin]; cbn [fold_left].
    + rewrite fold_insert_notin by assumption. apply lookup_insert_eq.
    + now apply IH.
Qed.

Lemma primitive_names_distinct : NoDup _PRIMITIVES.*1.
Proof. apply (bool_decide_unpack _). vm_compute. reflexivity. Qed.

Lemma env_primitives_not_registered :
  ("eval" ∉ _PRIMITIVES.*1) /\ ("apply" ∉ _PRIMITIVES.*1) /\
  ("load" ∉ _PRIMITIVES.*1).
Proof.
  repeat split; apply (bool_decide_unpack _); vm_compute; reflexivity.
Qed.

(** X25: in the frame that [create_global_frame] makes, every name that
    [@primitive] registers is bound to the procedure of its decorator, no
    registration being undone by a later one: the several names of one
    decorator share one procedure.  [eval], [apply] and [load] stay bound
    to the three primitives that use the environment.  Any other symbol is
    an unknown identifier, a [SchemeError]. *)
Theorem global_frame_binds_every_primitive (name first : string) :
  ((name, first) ∈ _PRIMITIVES ->
   lookup 0 name create_global_frame =
   Done create_global_frame (Return (PrimitiveProcedure (PrimNamed first)))) /\
  lookup 0 "eval" create_global_frame =
    Done create_global_frame (Return (PrimitiveProcedure PrimEval)) /\
  lookup 0 "apply" create_global_frame =
    Done create_global_frame (Return (PrimitiveProcedure PrimApply)) /\
  lookup 0 "load" create_global_frame =
    Done create_global_frame (Return (PrimitiveProcedure PrimLoad)) /\
  (name ∉ _PRIMITIVES.*1 -> name ∉ ["eval"; "apply"; "load"] ->
   lookup 0 name create_global_frame =
   Done create_global_frame (Raise SchemeError)).
Proof.
  destruct env_primitives_not_registered as (He & Ha & Hl).
  repeat apply conj.
  - intros Hin. eapply lookup_here; [reflexivity|]. cbn [bindings].
    unfold add_primitives.
    apply (fold_insert_in (fun n => PrimitiveProcedure (PrimNamed n)));
      [apply primitive_names_distinct|exact Hin].
  - eapply lookup_here; [reflexivity|]. cbn [bindings]. unfold add_primitives.
    rewrite (fold_insert_notin (fun n => PrimitiveProcedure (PrimNamed n)))
      by exact He.
    reflexivity.
  - eapply lookup_here; [reflexivity|]. cbn [bindings]. unfold add_primitives.
    rewrite (fold_insert_notin (fun n => PrimitiveProcedure (PrimNamed n)))
      by exact Ha.
    reflexivity.
  - eapply lookup_here; [reflexivity|]. cbn [bindings]. unfold add_primitives.
    rewrite (fold_insert_notin (fun n => PrimitiveProcedure (PrimNamed n)))
      by exact Hl.
    reflexivity.
  - intros Hn Hn3. unfold lookup, create_global_frame.
    cbn [length lookup_in base.lookup list_lookup bindings parent].
    unfold add_primitives.
    rewrite (fold_insert_notin (fun n => PrimitiveProcedure (PrimNamed n)))
      by exact Hn.
    rewrite !not_elem_of_cons in Hn3. destruct Hn3 as (H1 & H2 & H3 & _).
    rewrite !lookup_insert_ne by congruence. reflexivity.
Qed.

Lemma global_frame_binds_every_primitive_witness :
  lookup 0 "fd" create_global_frame =
  Done create_global_frame (Return (PrimitiveProcedure (PrimNamed "forward"))) /\
  lookup 0 "set!" create_global_frame =
  Done create_global_frame (Raise SchemeError).
Proof.
  split.
  - apply (proj1 (global_frame_binds_every_primitive "fd" "forward")).
    apply (bool_decide_unpack _). vm_compute. reflexivity.
  - apply (proj2 (proj2 (proj2 (proj2
             (global_frame_binds_every_primitive "set!" ""))))).
    + apply (bool_decide_unpack _). vm_compute. reflexivity.
    + apply (bool_decide_unpack _). vm_compute. reflexivity.
Defined.

(** ** Frames are never lost *)

Lemma frame_le_refl (fr : Frame) : frame_le fr fr.
Proof. split; auto. Qed.

Lemma frame_le_trans (f1 f2 f3 : Frame) :
  frame_le f1 f2 -> frame_le f2 f3 -> frame_le f1 f3.
Proof. intros [P1 B1] [P2 B2]. split; [congruence|auto]. Qed.

Lemma store_le_refl (st : store) : store_le st st.
Proof. intros i fr H. exists fr. split; [exact H|apply frame_le_refl]. Qed.

Lemma store_le_trans (s1 s2 s3 : store) :
  store_le s1 s2 -> store_le s2 s3 -> store_le s1 s3.
Proof.
  intros H1 H2 i fr Hi.
  destruct (H1 i fr Hi) as (fr2 & Hi2 & L2).
  destruct (H2 i fr2 Hi2) as (fr3 & Hi3 & L3).
  exists fr3. split; [exact Hi3|]. now apply (frame_le_trans fr fr2 fr3).
Qed.

Lemma store_le_length (st st' : store) :
  store_le st st' -> length st <= length st'.
Proof.
  intros H. destruct (decide (length st <= length st')) as [|Hn]; [assumption|].
  destruct (lookup_lt_is_Some_2 st (length st') ltac:(lia)) as [fr Hfr].
  destruct (H _ _ Hfr) as (fr' & Hfr' & _).
  apply lookup_lt_Some in Hfr'. lia.
Qed.

Lemma grows_ret {A} (a : A) : grows (ret a).
Proof. intros st st' r [= <- <-]. apply store_le_refl. Qed.

Lemma grows_raise {A} (e : exn) : grows (raise (A := A) e).
Proof. intros st st' r [= <- <-]. apply store_le_refl. Qed.

Lemma grows_lift {A} (x : result A) : grows (lift x).
Proof. intros st st' r [= <- <-]. apply store_le_refl. Qed.

Lemma grows_unsupported {A} : grows (unsupported (A := A)).
Proof. intros st st' r H. discriminate. Qed.

Lemma grows_out_of_fuel {A} : grows (out_of_fuel (A := A)).
Proof. intros st st' r H. discriminate. Qed.

Lemma grows_bind {A B} (m : M A) (k : A -> M B) :
  grows m -> (forall a, grows (k a)) -> grows (bind m k).
Proof.
  intros Hm Hk st st' r. unfold bind.
  destruct (m st) as [st1 [a|e]| |] eqn:E; try discriminate.
  - intros H. eapply store_le_trans; [eapply Hm, E|eapply Hk, H].
  - intros [= <- <-]. eapply Hm, E.
Qed.

Lemma grows_mmap {A B} (f : A -> B) (m : M A) : grows m -> grows (mmap f m).
Proof. intros H. apply grows_bind; [exact H|intros a; apply grows_ret]. Qed.

Lemma grows_except_type_error {A} (m : M A) :
  grows m -> grows (except_type_error m).
Proof.
  intros Hm st st' r. unfold except_type_error.
  destruct (m st) as [st1 [a|[]]| |] eqn:E; intros [= <- <-]; eapply Hm, E.
Qed.

Lemma grows_new_frame (parent : option nat) : grows (new_frame parent).
Proof.
  intros st st' r [= <- <-] i fr Hi. exists fr.
  split; [now apply lookup_app_l_Some|apply frame_le_refl].
Qed.

Lemma grows_define (self : nat) (symbol : string) (val : value) :
  grows (define self symbol val).
Proof.
  intros st st' r. unfold define.
  destruct (st !! self) as [fr0|] eqn:E; [|discriminate].
  intros [= <- <-] i fr Hi.
  destruct (decide (i = self)) as [->|Hne].
  - rewrite list_lookup_insert_eq by (now apply lookup_lt_Some in E).
    eexists. split; [reflexivity|]. rewrite E in Hi. injection Hi as <-.
    split; [reflexivity|]. cbn [bindings]. intros s Hs.
    destruct (decide (s = symbol)) as [->|Hs'].
    + rewrite lookup_insert_eq. eauto.
    + now rewrite lookup_insert_ne by congruence.
  - rewrite list_lookup_insert_ne by congruence.
    exists fr. split; [exact Hi|apply frame_le_refl].
Qed.

Lemma grows_define_key (self : nat) (key val : value) :
  grows (define_key self key val).
Proof.
  destruct key; try apply grows_unsupported. apply grows_define.
Qed.

Lemma grows_lookup (self : nat) (symbol : string) : grows (lookup self symbol).
Proof.
  intros st st' r H. unfold lookup in H. apply lookup_in_store in H as ->.
  apply store_le_refl.
Qed.

Lemma grows_lookup_symbol (env : nat) (expr : value) :
  grows (lookup_symbol env expr).
Proof. destruct expr; try apply grows_raise. apply grows_lookup. Qed.

Create HintDb grows.

#[local] Hint Resolve grows_ret grows_raise grows_lift grows_unsupported
  grows_out_of_fuel grows_new_frame grows_define grows_define_key grows_lookup
  grows_lookup_symbol : grows.

Ltac grow_step :=
  match goal with
  | |- grows (bind _ _) => apply grows_bind; [|intros ?]
  | |- grows (mmap _ _) => apply grows_mmap
  | |- grows (except_type_error _) => apply grows_except_type_error
  | |- grows (if ?b then _ else _) => destruct b
  | |- grows (match ?x with _ => _ end) => destruct x
  | |- grows _ => solve [auto with grows]
  end.

Lemma grows_bind_formals (frame : nat) (formals vals : value) (xs : list nat) :
  grows (bind_formals frame formals vals xs).
Proof.
  induction xs as [|x xs IH]; cbn [bind_formals]; repeat grow_step.
Qed.

Lemma grows_make_child_frame (self : nat) (formals vals : value) :
  grows (make_child_frame self formals vals).
Proof.
  unfold make_child_frame. repeat grow_step. apply grows_bind_formals.
Qed.

Lemma grows_check_form (expr : value) (min : nat) (max : option nat) :
  grows (check_form expr min max).
Proof. unfold check_form. repeat grow_step. Qed.

Lemma grows_prim_call (fuel : nat) (name : string) (args : list value) :
  grows (Prim.call fuel name args).
Proof.
  unfold Prim.call. repeat grow_step.
Qed.

Lemma grows_pair_map (fn : value -> M value) (x : value) :
  (forall v, grows (fn v)) -> grows (pair_map fn x).
Proof.
  intros Hfn. induction x; cbn [pair_map]; repeat grow_step.
Qed.

#[local] Hint Resolve grows_make_child_frame grows_check_form grows_prim_call
  : grows.

(** The handlers leave a later store when the calls they make do. *)
Section Grows.

Context {R : Type}.
Variable inj : value -> R.
Variable ev : value -> nat -> M value.
Variable evt : value -> nat -> M R.
Variable ap : value -> value -> nat -> M R.
Variable fuel : nat.

Hypothesis Hev : forall e env, grows (ev e env).
Hypothesis Hevt : forall e env, grows (evt e env).
Hypothesis Hap : forall p a env, grows (ap p a env).

Ltac grow :=
  repeat first [apply Hev | apply Hevt | apply Hap | grow_step].

Lemma grows_eval_each (expressions : value) (env : nat) (xs : list nat) :
  grows (eval_each ev expressions env xs).
Proof. induction xs as [|x xs IH]; cbn [eval_each]; grow. Qed.

Lemma grows_eval_all (expressions : value) (env : nat) :
  grows (eval_all inj ev evt expressions env).
Proof. unfold eval_all. grow. apply grows_eval_each. Qed.

Lemma grows_do_lambda_form (expressions : value) (env : nat) :
  grows (do_lambda_form expressions env).
Proof. unfold do_lambda_form. grow. Qed.

Lemma grows_do_mu_form (expressions : value) (env : nat) :
  grows (do_mu_form expressions env).
Proof. unfold do_mu_form. grow. Qed.

Lemma grows_do_define_form (expressions : value) (env : nat) :
  grows (do_define_form ev expressions env).
Proof. unfold do_define_form. grow; apply grows_do_lambda_form. Qed.

Lemma grows_do_quote_form (expressions : value) (env : nat) :
  grows (do_quote_form expressions env).
Proof. unfold do_quote_form. grow. Qed.

Lemma grows_do_begin_form (expressions : value) (env : nat) :
  grows (do_begin_form inj ev evt expressions env).
Proof. unfold do_begin_form. grow. apply grows_eval_all. Qed.

Lemma grows_do_if_form (expressions : value) (env : nat) :
  grows (do_if_form inj ev evt expressions env).
Proof. unfold do_if_form. grow. Qed.

Lemma grows_and_loop (expressions : value) (env : nat) (xs : list nat)
    (after : M R) :
  grows after -> grows (and_loop inj ev expressions env xs after).
Proof.
  intros Ha. induction xs as [|x xs IH]; cbn [and_loop]; [exact Ha|].
  grow.
Qed.

Lemma grows_do_and_form (expressions : value) (env : nat) :
  grows (do_and_form inj ev evt expressions env).
Proof. unfold do_and_form. grow. apply grows_and_loop. grow. Qed.

Lemma grows_or_loop (expressions : value) (env : nat) (xs : list nat)
    (after : M R) :
  grows after -> grows (or_loop inj ev expressions env xs after).
Proof.
  intros Ha. induction xs as [|x xs IH]; cbn [or_loop]; [exact Ha|].
  grow.
Qed.

Lemma grows_do_or_form (expressions : value) (env : nat) :
  grows (do_or_form inj ev evt expressions env).
Proof. unfold do_or_form. grow. apply grows_or_loop. grow. Qed.

Lemma grows_cond_loop (num_clauses env i : nat) (clauses : list value) :
  grows (cond_loop inj ev evt num_clauses env i clauses).
Proof.
  revert i; induction clauses as [|clause clauses IH]; intros i;
    cbn [cond_loop]; grow; try apply grows_eval_all; apply IH.
Qed.

Lemma grows_do_cond_form (expressions : value) (env : nat) :
  grows (do_cond_form inj ev evt expressions env).
Proof. unfold do_cond_form. grow. apply grows_cond_loop. Qed.

Lemma grows_let_loop (let_env env : nat) (bindings : list value) :
  grows (let_loop ev let_env env bindings).
Proof.
  induction bindings as [|b bs IH]; cbn [let_loop]; grow.
Qed.

Lemma grows_make_let_frame (bindings : value) (env : nat) :
  grows (make_let_frame ev bindings env).
Proof. unfold make_let_frame. grow. apply grows_let_loop. Qed.

Lemma grows_do_let_form (expressions : value) (env : nat) :
  grows (do_let_form inj ev evt expressions env).
Proof.
  unfold do_let_form. grow; [apply grows_make_let_frame|apply grows_eval_all].
Qed.

Lemma grows_special_form (name : string) (handler : value -> nat -> M R)
    (rest : value) (env : nat) :
  SPECIAL_FORMS inj ev evt name = Some handler -> grows (handler rest env).
Proof.
  unfold SPECIAL_FORMS.
  repeat match goal with
         | |- context [String.eqb name ?x] => destruct (String.eqb name x)
         end; intros [= <-]; try apply grows_mmap;
    auto using grows_do_and_form, grows_do_begin_form, grows_do_cond_form,
      grows_do_define_form, grows_do_if_form, grows_do_lambda_form,
      grows_do_let_form, grows_do_or_form, grows_do_quote_form,
      grows_do_mu_form.
Qed.

Lemma grows_call_primitive (fn : primitive) (args : list value) (env : nat) :
  grows (call_primitive inj ev ap fuel fn args env).
Proof. unfold call_primitive. grow. Qed.

Lemma grows_apply_primitive (fn : primitive) (args : value) (env : nat) :
  grows (apply_primitive inj ev ap fuel fn args env).
Proof. unfold apply_primitive. grow. apply grows_call_primitive. Qed.

Lemma grows_make_call_frame (procedure args : value) (env : nat) :
  grows (make_call_frame procedure args env).
Proof. unfold make_call_frame. grow. Qed.

Lemma grows_scheme_apply (procedure args : value) (env : nat) :
  grows (scheme_apply inj ev evt ap fuel procedure args env).
Proof.
  unfold scheme_apply. destruct procedure; grow;
    first [apply grows_apply_primitive | apply grows_make_call_frame
          | apply grows_eval_all].
Qed.

Lemma grows_eval_combination (expr : value) (env : nat) :
  grows (eval_combination inj ev evt ap fuel expr env).
Proof.
  unfold eval_combination. grow_step; [grow|].
  do 2 (apply grows_bind; [grow|intros ?]).
  destruct (if scheme_symbolp a then _ else _) as [handler|] eqn:E.
  - destruct (scheme_symbolp a); [|discriminate].
    destruct a; try discriminate. eapply grows_special_form, E.
  - grow; [apply grows_pair_map; intros v; apply Hev|apply grows_scheme_apply].
Qed.

End Grows.

Lemma grows_direct (depth : nat) :
  (forall e env, grows (scheme_eval depth e env)) /\
  (forall p a env, grows (scheme_apply_direct depth p a env)).
Proof.
  induction depth as [|d [IHe IHa]]; split; intros;
    try apply grows_out_of_fuel.
  - change (grows (if scheme_symbolp e then lookup_symbol env e
                   else if self_evaluating e then ret e
                   else eval_combination id (scheme_eval d) (scheme_eval d)
                          (scheme_apply_direct d) (S d) e env)).
    repeat grow_step. now apply grows_eval_combination.
  - change (grows (scheme_apply id (scheme_eval d) (scheme_eval d)
                     (scheme_apply_direct d) (S d) p a env)).
    now apply grows_scheme_apply.
Qed.

Lemma grows_optimized_eval_tail (expr : value) (env : nat) :
  grows (scheme_optimized_eval_tail expr env).
Proof. unfold scheme_optimized_eval_tail. repeat grow_step. Qed.

Lemma grows_trampoline (ev : value -> nat -> M value)
    (ap : value -> value -> nat -> M deferred) (fuel steps : nat)
    (result : deferred) :
  (forall e env, grows (ev e env)) -> (forall p a env, grows (ap p a env)) ->
  grows (trampoline ev ap fuel steps result).
Proof.
  intros Hev Hap. revert result; induction steps as [|steps IH];
    intros [v|expr env]; cbn [trampoline]; repeat grow_step.
  apply grows_eval_combination; auto using grows_optimized_eval_tail.
Qed.

Lemma grows_optimized (budget depth : nat) :
  (forall e env, grows (scheme_optimized_eval budget depth e env)) /\
  (forall p a env, grows (scheme_apply_optimized budget depth p a env)).
Proof.
  induction depth as [|d [IHe IHa]]; split; intros;
    try apply grows_out_of_fuel.
  - rewrite scheme_optimized_eval_unfold. repeat grow_step.
    now apply grows_trampoline.
  - rewrite scheme_apply_optimized_unfold.
    apply grows_scheme_apply; auto using grows_optimized_eval_tail.
Qed.

(** X26: in every evaluation that this embedding follows to its end, so
    one whose primitive calls are calls of the primitives of [Prim.call], of
    [eval] with one argument and of [apply], and whether it ends with a
    value or an error, neither evaluator ever removes a frame, renumbers
    one, changes the parent of one, or unbinds a name in one: the frames
    after the evaluation are the frames before it, with more names bound or
    names bound again, followed by the frames that were made. *)
Theorem evaluation_never_loses_frames (depth budget : nat) (e : value)
    (env : nat) (st st' : store) (r : result value) :
  (scheme_eval depth e env st = Done st' r ->
   length st <= length st' /\ store_le st st') /\
  (scheme_optimized_eval budget depth e env st = Done st' r ->
   length st <= length st' /\ store_le st st').
Proof.
  split; intros H.
  - apply (proj1 (grows_direct depth)) in H.
    split; [now apply store_le_length|exact H].
  - apply (proj1 (grows_optimized budget depth)) in H.
    split; [now apply store_le_length|exact H].
Qed.

Lemma evaluation_never_loses_frames_witness :
  1 <= 1 /\
  store_le [mkFrame (<["x" := Int 0]> ∅) None]
           [mkFrame (<["x" := Int 1]> (<["x" := Int 0]> ∅)) None].
Proof.
  apply (proj1 (evaluation_never_loses_frames 2 0
           (slist [Str "define"; Str "x"; Int 1]) 0
           [mkFrame (<["x" := Int 0]> ∅) None]
           [mkFrame (<["x" := Int 1]> (<["x" := Int 0]> ∅)) None]
           (Return (Str "x")))).
  reflexivity.
Defined.

(** ** Expressions that are no combinations *)

Lemma scheme_eval_unfold (d : nat) (e : value) (env : nat) :
  scheme_eval (S d) e env =
  if scheme_symbolp e then lookup_symbol env e
  else if self_evaluating e then ret e
  else eval_combination id (scheme_eval d) (scheme_eval d)
         (scheme_apply_direct d) (S d) e env.
Proof. reflexivity. Qed.

(** X27: what both evaluators do with an expression that is no proper
    list.  A symbol is looked up from the current frame.  A boolean, a
    number, [nil], [okay] and a string literal evaluate to themselves and
    change no frame.  Anything else, so a pair with an improper end or a
    procedure object handed to [eval], is a malformed list: a
    [SchemeError]. *)
Theorem atoms_and_malformed_expressions (e : value) (env : nat) (st : store)
    (d b : nat) :
  (scheme_symbolp e = true ->
   scheme_eval (S d) e env st = lookup_symbol env e st /\
   scheme_optimized_eval (S b) (S d) e env st = lookup_symbol env e st) /\
  (scheme_symbolp e = false ->
   scheme_booleanp e || scheme_numberp e || scheme_nullp e || is_okay e ||
     scheme_stringp e = true ->
   scheme_eval (S d) e env st = Done st (Return e) /\
   scheme_optimized_eval (S b) (S d) e env st = Done st (Return e)) /\
  (scheme_symbolp e = false -> self_evaluating e = false ->
   scheme_listp e = false ->
   scheme_eval (S d) e env st = Done st (Raise SchemeError) /\
   scheme_optimized_eval (S b) (S d) e env st = Done st (Raise SchemeError)).
Proof.
  rewrite scheme_eval_unfold, scheme_optimized_eval_unfold.
  repeat apply conj.
  - intros ->. split; reflexivity.
  - intros Hs Ha. rewrite Hs.
    assert (Hse : self_evaluating e = true)
      by (unfold self_evaluating, scheme_atomp; rewrite Hs;
          destruct (scheme_booleanp e), (scheme_numberp e), (scheme_nullp e),
            (is_okay e), (scheme_stringp e); cbn in *; congruence).
    rewrite Hse. split; reflexivity.
  - intros Hs Hse Hl. rewrite Hs, Hse. split.
    + unfold eval_combination. now rewrite Hl.
    + rewrite loop_of_unfold. apply bind_done_raise.
      unfold eval_combination. now rewrite Hl.
Qed.

Lemma atoms_and_malformed_expressions_witness :
  scheme_eval 1 (Pair (Int 1) (Int 2)) 0 [] = Done [] (Raise SchemeError) /\
  scheme_eval 1 Nil 0 [] = Done [] (Return Nil).
Proof.
  split.
  - apply (proj2 (proj2 (atoms_and_malformed_expressions
                           (Pair (Int 1) (Int 2)) 0 [] 0 0))); reflexivity.
  - apply (proj1 (proj2 (atoms_and_malformed_expressions Nil 0 [] 0 0)));
      reflexivity.
Defined.

(** ** Whole results of arithmetic *)

Lemma integerp_float (q : Q) : scheme_integerp (Float q) = Prim.is_integral q.
Proof. reflexivity. Qed.

(** X28: what [scheme_add] and [scheme_mul] return, and what [scheme_sub]
    and [scheme_div] return for two operands or more, is never a float with
    a whole value: when [scheme_integerp] holds of the result, the result
    is an int.  The negation of a single operand does not go through
    [_arith]: [(- 2.0)] is the float -2.0, of which [scheme_integerp]
    holds. *)
Theorem whole_results_are_ints (vals : list value) (r : value) :
  Prim.scheme_add vals = Return r \/ Prim.scheme_mul vals = Return r \/
  (2 <= length vals /\
   (Prim.scheme_sub vals = Return r \/ Prim.scheme_div vals = Return r)) ->
  scheme_integerp r = true ->
  (exists z, r = Int z) /\
  Prim.scheme_sub [Float 2] = Return (Float (-2)) /\
  scheme_integerp (Float (-2)) = true.
Proof.
  intros H Hi. split; [|split; reflexivity].
  assert (Hn : scheme_numberp r = true)
    by (unfold scheme_integerp in Hi; now apply andb_true_iff in Hi).
  destruct r; try discriminate; [eauto|]. exfalso.
  rewrite integerp_float in Hi.
  assert (Ha : exists fn init l, Prim._arith fn init l = Return (Float q)).
  { destruct H as [H|[H|[Hl [H|H]]]].
    - eauto.
    - eauto.
    - unfold Prim.scheme_sub in H.
      destruct vals as [|val0 [|val1 vals]]; cbn in Hl; try lia.
      destruct (Prim._check_nums (val0 :: val1 :: vals)); [eauto|discriminate].
    - unfold Prim.scheme_div in H.
      destruct vals as [|val0 [|val1 vals]]; cbn in Hl; try lia.
      destruct (Prim._check_nums (val0 :: val1 :: vals)); [|discriminate].
      destruct (Prim._arith Prim.truediv val0 (val1 :: vals)) as [v|[]] eqn:E;
        try discriminate.
      cbn in H. injection H as ->. eauto. }
  destruct Ha as (fn & init & l & Ha).
  apply arith_normalizes in Ha. congruence.
Qed.

Lemma whole_results_are_ints_witness :
  (exists z, Int 3 = Int z) /\
  Prim.scheme_sub [Float 2] = Return (Float (-2)) /\
  scheme_integerp (Float (-2)) = true.
Proof.
  apply (whole_results_are_ints [Float 1.5; Float 1.5] (Int 3)).
  - left. reflexivity.
  - reflexivity.
Defined.
